(** * Module rules: reference detection and cascade merge

    A shallow embedding of [hooks/lib/module-rules.ts] and the properties
    its specification states about it.

    Modelling conventions.
    - A [ReferenceIndex] (a JavaScript object used as a dictionary) is a
      [gmap string ReferenceEntry]: its own enumerable properties.
      [Object.entries] is [map_to_list]; the enumeration order it fixes is
      the "encounter order" of the loops below. Where the code reads or
      writes a dictionary through [obj[name]], the prototype chain is
      modelled too ([Dictionary]): a name such as [constructor] is found
      on every object, and assigning to [__proto__] sets the prototype.
    - An optional field [f?: T] is an [option T]; [undefined] is [None].
    - Token counts, which the code adds up, are IEEE 754 binary64 numbers,
      as every JavaScript [number] is: [number] is the Standard Library's
      [spec_float] with the operations of [SpecFloat] at precision 53.
      Priorities are only compared (the sign of the difference of two
      doubles is the sign of the difference of their values), so a
      priority is the whole number it holds ([Z]); so are the numerals of
      a front-matter block.
    - Strings are sequences of code units below 128 (ASCII documents); on
      these [toLowerCase] and [toUpperCase] are the mappings of the
      letters a-z and A-Z.
    - Effectful functions run in the monad [M], which threads a [World]
      (file system, external processes, console) and models [throw] /
      [try]-[catch] with the [Throw] outcome. An [async] function is the
      sequence of its awaited steps; a rejected promise is a [Throw].
      Of a [console.error] call the console keeps the message, its first
      argument.

    The file has the embedding first, then the definitions the properties
    are stated with and the sample data, then the properties. *)

From Stdlib Require Import ZArith String Ascii List Lia Sorted SpecFloat.
From stdpp Require Import base option gmap strings list fin_maps.

Open Scope Z_scope.

(** ** Numbers *)

Abbreviation number := spec_float.

Module JSNumber.

Definition prec : Z := 53.
Definition emax : Z := 1024.

(** The double nearest to a whole number (a numeric literal, or
    [JSON.parse] and [Number] on a decimal numeral). *)
Definition ofZ (z : Z) : number := binary_normalize prec emax z 0 false.

(** [x + y] and [x > y] *)
Definition add : number → number → number := SFadd prec emax.
Definition gtb (x y : number) : bool := SFltb y x.

(** A number used as a condition: neither zero nor [NaN]. *)
Definition truthy (x : number) : bool :=
  match x with S754_zero _ | S754_nan => false | _ => true end.

(** The whole number a double holds, if it holds one. *)
Definition whole (x : number) : option Z :=
  match x with
  | S754_zero _ => Some 0
  | S754_finite s m e =>
      if 0 <=? e then Some (cond_Zopp s (Zpos m * 2 ^ e))
      else if Zpos m mod 2 ^ (- e) =? 0 then Some (cond_Zopp s (Zpos m / 2 ^ (- e)))
      else None
  | _ => None
  end.

Arguments ofZ : simpl never.
Arguments add : simpl never.
Arguments gtb : simpl never.

End JSNumber.

(** ** Types *)

Record Triggers := mkTriggers {
  filePatterns : option (list string);
  imports : option (list string);
  dependencies : option (list string);
  keywords : option (list string)
}.

Record ReferenceEntry := mkReferenceEntry {
  name : string;
  path : string;
  description : option string;
  triggers : Triggers;
  priority : Z;
  maxTokens : number;
  disabled : option bool;
  overrideTriggers : option bool
}.

Abbreviation ReferenceIndex := (gmap string ReferenceEntry).

Record DetectionResult := mkDetectionResult {
  dr_module : string;
  dr_path : string;
  dr_priority : Z;
  dr_maxTokens : number;
  dr_triggers : list string
}.

(** ** Constants *)

Definition MAX_TOTAL_TOKENS : number := JSNumber.ofZ 8000.

(** ** JavaScript truthiness of the values the code tests *)

(** [if (x.disabled)], [!x.overrideTriggers]: an optional boolean. *)
Definition truthy_flag (b : option bool) : bool :=
  match b with Some true => true | _ => false end.

(** [arr?.length] used as a condition: defined and non-empty. *)
Definition has_length (l : option (list string)) : bool :=
  match l with Some (_ :: _) => true | _ => false end.

(** A string used as a condition: non-empty. *)
Definition truthy_string (s : string) : bool :=
  match s with EmptyString => false | _ => true end.

(** [l || []] *)
Definition or_empty (l : option (list string)) : list string := default [] l.

(** A [string | null] or [string | undefined] used as a condition. *)
Definition truthy_match (r : option string) : bool :=
  match r with
  | Some s => truthy_string s
  | None => false
  end.

Definition str_eqb (a b : string) : bool := bool_decide (a = b).

(** ** Outcomes: a returned value or a thrown exception *)

Inductive Outcome (A : Type) : Type :=
  | Return (a : A)
  | Throw (e : string).
Arguments Return {A} a.
Arguments Throw {A} e.

Definition obind {A B} (o : Outcome A) (k : A → Outcome B) : Outcome B :=
  match o with
  | Return a => k a
  | Throw e => Throw e
  end.

Fixpoint ofold {S A} (step : S → A → Outcome S) (s : S) (l : list A) : Outcome S :=
  match l with
  | [] => Return s
  | a :: l' => obind (step s a) (λ s', ofold step s' l')
  end.

(** ** Objects used as dictionaries

    [obj[name]] looks the name up along the prototype chain of [obj], and
    [obj[name] = v] under the name [__proto__] sets the prototype of [obj]
    instead of giving it a property. A dictionary of entries is therefore
    its own properties together with its prototype: [Object.prototype]
    ([None]), or an entry that was assigned to [__proto__], whose own
    prototype is [Object.prototype]. *)

(** The properties of [Object.prototype] (ECMAScript, Annex B included).
    [__proto__] is an accessor, the others are writable methods. *)
Definition OBJECT_PROTOTYPE : list string :=
  ["constructor"; "__defineGetter__"; "__defineSetter__"; "hasOwnProperty";
   "__lookupGetter__"; "__lookupSetter__"; "isPrototypeOf";
   "propertyIsEnumerable"; "toString"; "valueOf"; "__proto__"; "toLocaleString"].

Definition inherited (key : string) : bool := bool_decide (key ∈ OBJECT_PROTOTYPE).

Record Dictionary := mkDictionary {
  own : ReferenceIndex;
  proto : option ReferenceEntry
}.

(** What [obj[name]] evaluates to, as far as the code can tell: an entry;
    another truthy value (a method of [Object.prototype], a field of the
    prototype entry), on which [.triggers] is [undefined]; or a falsy
    value ([undefined] included). *)
Inductive Property :=
  | PEntry (e : ReferenceEntry)
  | PForeign
  | PFalsy.

(** The fields of an entry object, each with the truthiness of its
    value. *)
Definition entryFields (e : ReferenceEntry) : list (string * bool) :=
  [("name", truthy_string (name e)); ("path", truthy_string (path e));
   ("description", truthy_match (description e)); ("triggers", true);
   ("priority", negb (priority e =? 0)); ("maxTokens", JSNumber.truthy (maxTokens e));
   ("disabled", truthy_flag (disabled e));
   ("overrideTriggers", truthy_flag (overrideTriggers e))].

Definition fieldTruthy (e : ReferenceEntry) (key : string) : bool :=
  existsb (λ field, str_eqb field.1 key && field.2) (entryFields e).

(** [obj[key]] *)
Definition lookupProperty (obj : Dictionary) (key : string) : Property :=
  match own obj !! key with
  | Some e => PEntry e
  | None =>
      match proto obj with
      | None => if inherited key then PForeign else PFalsy
      | Some e =>
          if str_eqb key "__proto__" then PEntry e
          else if fieldTruthy e key || inherited key then PForeign
          else PFalsy
      end
  end.

(** [obj[key] = ref] *)
Definition assignProperty (obj : Dictionary) (key : string) (ref : ReferenceEntry)
  : Dictionary :=
  match own obj !! key with
  | Some _ => mkDictionary (<[key := ref]> (own obj)) (proto obj)
  | None =>
      if str_eqb key "__proto__" then mkDictionary (own obj) (Some ref)
      else mkDictionary (<[key := ref]> (own obj)) (proto obj)
  end.

(** [delete obj[key]] *)
Definition deleteProperty (obj : Dictionary) (key : string) : Dictionary :=
  mkDictionary (delete key (own obj)) (proto obj).

(** ** Index merging *)

Definition mergeTriggers (userTriggers projectTriggers : Triggers) : Triggers :=
  {| filePatterns := Some (or_empty (filePatterns userTriggers) ++ or_empty (filePatterns projectTriggers));
     imports := Some (or_empty (imports userTriggers) ++ or_empty (imports projectTriggers));
     dependencies := Some (or_empty (dependencies userTriggers) ++ or_empty (dependencies projectTriggers));
     keywords := Some (or_empty (keywords userTriggers) ++ or_empty (keywords projectTriggers)) |}.

(** [{ ...projectRef, triggers: t }] *)
Definition with_triggers (projectRef : ReferenceEntry) (t : Triggers) : ReferenceEntry :=
  {| name := name projectRef;
     path := path projectRef;
     description := description projectRef;
     triggers := t;
     priority := priority projectRef;
     maxTokens := maxTokens projectRef;
     disabled := disabled projectRef;
     overrideTriggers := overrideTriggers projectRef |}.

(** One iteration of the loop over [Object.entries(projectIndex)]. When
    [merged[name]] is truthy without being an entry, its [triggers] is
    [undefined] and [mergeTriggers] throws on reading [filePatterns] of
    it. *)
Definition mergeStep (merged : Dictionary) (kv : string * ReferenceEntry)
  : Outcome Dictionary :=
  let '(key, projectRef) := kv in
  if truthy_flag (disabled projectRef) then Return (deleteProperty merged key)
  else
    match lookupProperty merged key with
    | PEntry existing =>
        if negb (truthy_flag (overrideTriggers projectRef))
        then Return (assignProperty merged key
                       (with_triggers projectRef
                          (mergeTriggers (triggers existing) (triggers projectRef))))
        else Return (assignProperty merged key projectRef)
    | PForeign =>
        if negb (truthy_flag (overrideTriggers projectRef))
        then Throw "TypeError"
        else Return (assignProperty merged key projectRef)
    | PFalsy => Return (assignProperty merged key projectRef)
    end.

(** The loop over a given enumeration of the project entries, started on
    the copy [{ ...(userIndex || {}) }] of the user catalog. *)
Definition mergeEntries (userIndex : option ReferenceIndex)
    (entries : list (string * ReferenceEntry)) : Outcome Dictionary :=
  ofold mergeStep (mkDictionary (default ∅ userIndex) None) entries.

(** The function returns the object [merged]; the module goes on with its
    own properties ([Object.keys], [Object.entries]), which is what a
    [ReferenceIndex] holds. *)
Definition mergeIndices (userIndex projectIndex : option ReferenceIndex)
  : Outcome ReferenceIndex :=
  match projectIndex with
  | None => Return (default ∅ userIndex)
  | Some p => obind (mergeEntries userIndex (map_to_list p)) (λ merged, Return (own merged))
  end.


(** ** JavaScript string primitives used by the module *)

Module JSString.

Definition nl : string := String "010"%char EmptyString.
Definition dquote : ascii := "034"%char.
Definition squote : ascii := "039"%char.

Definition is_space (c : ascii) : bool :=
  let n := nat_of_ascii c in
  ((9 <=? n)%nat && (n <=? 13)%nat) || (n =? 32)%nat.

Definition is_quote (c : ascii) : bool :=
  Ascii.eqb c dquote || Ascii.eqb c squote.

Fixpoint trimStart (s : string) : string :=
  match s with
  | String c s' => if is_space c then trimStart s' else s
  | EmptyString => EmptyString
  end.

Definition trimEnd (s : string) : string :=
  String.rev (trimStart (String.rev s)).

Definition trim (s : string) : string := trimEnd (trimStart s).

Definition startsWith (p s : string) : bool := String.prefix p s.

Definition endsWith (p s : string) : bool :=
  String.prefix (String.rev p) (String.rev s).

(** [s.slice(n)] for [0 <= n] *)
Fixpoint sliceFrom (n : nat) (s : string) : string :=
  match n, s with
  | S n', String _ s' => sliceFrom n' s'
  | _, _ => s
  end.

(** [s.slice(0, n)] for [0 <= n] *)
Fixpoint sliceTo (n : nat) (s : string) : string :=
  match n, s with
  | S n', String c s' => String c (sliceTo n' s')
  | _, _ => EmptyString
  end.

(** [s.slice(1, -1)] *)
Definition sliceInner (s : string) : string :=
  String.rev (sliceFrom 1 (String.rev (sliceFrom 1 s))).

(** [s.indexOf(c)] for a one-character needle; [None] is [-1]. *)
Fixpoint indexOf (c : ascii) (s : string) : option nat :=
  match s with
  | EmptyString => None
  | String d s' => if Ascii.eqb c d then Some 0%nat else S <$> indexOf c s'
  end.

(** [s.split(c)] for a one-character separator. *)
Fixpoint split (c : ascii) (s : string) : list string :=
  match s with
  | EmptyString => [EmptyString]
  | String d s' =>
      if Ascii.eqb c d then EmptyString :: split c s'
      else match split c s' with
           | h :: t => String d h :: t
           | [] => [String d EmptyString]
           end
  end.

(** [s.includes(sub)] *)
Fixpoint includes (sub s : string) : bool :=
  String.prefix sub s
  || match s with
     | EmptyString => false
     | String _ s' => includes sub s'
     end.

(** [l.join(sep)] *)
Definition join (sep : string) (l : list string) : string := String.concat sep l.

Definition lower (c : ascii) : ascii :=
  let n := nat_of_ascii c in
  if ((65 <=? n)%nat && (n <=? 90)%nat) then ascii_of_nat (n + 32) else c.

Definition upper (c : ascii) : ascii :=
  let n := nat_of_ascii c in
  if ((97 <=? n)%nat && (n <=? 122)%nat) then ascii_of_nat (n - 32) else c.

Fixpoint mapChars (f : ascii → ascii) (s : string) : string :=
  match s with
  | EmptyString => EmptyString
  | String c s' => String (f c) (mapChars f s')
  end.

Definition toLowerCase : string → string := mapChars lower.
Definition toUpperCase : string → string := mapChars upper.

(** [s.replace(/^["']|["']$/g, '')]: one quote off the front, then one
    off the end of what is left. *)
Definition stripLeadingQuote (s : string) : string :=
  match s with
  | String c s' => if is_quote c then s' else s
  | EmptyString => EmptyString
  end.

Definition stripQuotes (s : string) : string :=
  String.rev (stripLeadingQuote (String.rev (stripLeadingQuote s))).

(** The first occurrence of [sep] in [s]: the text before it and the
    text after it. *)
Fixpoint cut (sep s : string) : option (string * string) :=
  if String.prefix sep s then Some (EmptyString, sliceFrom (String.length sep) s)
  else match s with
       | EmptyString => None
       | String c s' =>
           match cut sep s' with
           | Some (a, b) => Some (String c a, b)
           | None => None
           end
       end.

(** [str.replace(/[.*+?^${}()|[\]\\]/g, '\\$&')] *)
Definition is_regex_special (c : ascii) : bool :=
  existsb (Ascii.eqb c)
    ["."; "*"; "+"; "?"; "^"; "$"; "{"; "}"; "("; ")"; "|"; "["; "]"; "092"]%char.

Fixpoint escapeRegex (str : string) : string :=
  match str with
  | EmptyString => EmptyString
  | String c s' =>
      if is_regex_special c then String "092"%char (String c (escapeRegex s'))
      else String c (escapeRegex s')
  end.

End JSString.

Definition lines (l : list string) : string := JSString.join JSString.nl l.

(** ** Built-ins the module takes from its runtime

    [Number] is JavaScript's string-to-number conversion ([None] is
    [NaN]); [JSON_parse_index] is [JSON.parse] followed by the cast to
    [ReferenceIndex | null] ([None]: the parser throws; [Some None]: the
    document is the literal [null]); [JSON_parse_package] is [JSON.parse]
    of a dependency manifest ([None]: the parser throws, or the document
    has no properties to read); [path_join] is [path.join]. *)

Record PackageJson := mkPackageJson {
  pkg_dependencies : gmap string string;
  pkg_devDependencies : gmap string string;
  pkg_peerDependencies : gmap string string
}.

Class Runtime := {
  Number : string → option Z;
  JSON_parse_index : string → option (option ReferenceIndex);
  JSON_parse_package : string → option PackageJson;
  path_join : string → string → string
}.

(** ** Front-matter parsing *)

(** The values the parser stores in the [frontmatter: any] object.

    The arrays of strings that the parser fills item by item, or assigns
    under a name of [frontmatter.triggers], live in a store and are held
    by reference ([currentArray] aliases the array it last created);
    [props] are the named properties assigned through
    [frontmatter.triggers[key] = ...], each the place of an array in the
    store. An array stored under a top-level key is never aliased and is
    held by value: its elements and its named properties. Its elements are
    strings at first; when it is the value of [triggers], an assignment
    under an index puts an array of the store there, and an assignment to
    [length] cuts it or leaves holes at its end. *)

Inductive Scalar :=
  | SBool (b : bool)
  | SNum (n : Z)
  | SStr (s : string).

Inductive Element :=
  | EString (s : string)
  | EArray (a : nat)
  | EHole.

Inductive Value :=
  | VScalar (s : Scalar)
  | VArray (elems : list Element) (props : gmap string nat)
  | VObject (props : gmap string nat).

Definition truthy (v : option Value) : bool :=
  match v with
  | None => false
  | Some (VScalar (SBool b)) => b
  | Some (VScalar (SNum n)) => negb (n =? 0)
  | Some (VScalar (SStr s)) => truthy_string s
  | Some (VArray _ _) => true
  | Some (VObject _) => true
  end.

Record ParseState := mkParseState {
  frontmatter : gmap string Value;
  arrays : list (list string);
  currentKey : string;
  currentArray : option nat
}.

Record Parsed := mkParsed {
  p_frontmatter : gmap string Value;
  p_arrays : list (list string);
  p_body : string
}.

Definition TRIGGER_KINDS : list string :=
  ["filePatterns"; "imports"; "dependencies"; "keywords"].

Definition isArrayParent (key : string) : bool :=
  bool_decide (key ∈ TRIGGER_KINDS).

(** [if (!frontmatter.triggers) frontmatter.triggers = {}] *)
Definition ensureTriggers (fm : gmap string Value) : gmap string Value :=
  if truthy (fm !! "triggers") then fm else <["triggers" := VObject ∅]> fm.

(** [frontmatter[key] = v]: under the name [__proto__] the assignment
    reaches the accessor of [Object.prototype], which sets the prototype
    (to an array) or does nothing (for a primitive), and no property is
    made. None of the names the module reads from the structure is a
    property of an array or of [Object.prototype]. *)
Definition assignTop (fm : gmap string Value) (key : string) (v : Value)
  : gmap string Value :=
  if str_eqb key "__proto__" then fm else <[key := v]> fm.

(** [currentArray.push(value)] *)
Definition push (a : nat) (value : string) (store : list (list string))
  : list (list string) :=
  alter (λ l, l ++ [value]) a store.

(** Array indices: the decimal numeral, without superfluous zeros, of a
    whole number below [2^32 - 1]. *)
Fixpoint decimalFrom (acc : Z) (s : string) : option Z :=
  match s with
  | EmptyString => Some acc
  | String c s' =>
      let n := nat_of_ascii c in
      if ((48 <=? n)%nat && (n <=? 57)%nat)
      then decimalFrom (10 * acc + Z.of_nat (n - 48)) s'
      else None
  end.

Definition MAX_ARRAY_LENGTH : Z := 4294967295.

Definition arrayIndex (key : string) : option nat :=
  match key with
  | EmptyString => None
  | String c rest =>
      if Ascii.eqb c "0" && negb (str_eqb rest EmptyString) then None
      else
        match decimalFrom 0 key with
        | Some i => if i <? MAX_ARRAY_LENGTH then Some (Z.to_nat i) else None
        | None => None
        end
  end.

(** An array cut or extended to a given length. *)
Definition resize (n : nat) (elems : list Element) : list Element :=
  take n elems ++ replicate (n - length elems) EHole.

(** [arr[i] = v] *)
Definition setElement (i : nat) (v : Element) (elems : list Element) : list Element :=
  <[i := v]> (resize (max (S i) (length elems)) elems).

Section parse.
Context {rt : Runtime}.

(** [arr.length = items] for an array [items] of strings: the array is
    converted to a number through its string form, its items joined by
    commas, and the assignment throws unless that number is a valid
    length. *)
Definition setLength (elems : list Element) (items : list string)
  : Outcome (list Element) :=
  match Number (JSString.join "," items) with
  | Some n =>
      if (0 <=? n) && (n <=? MAX_ARRAY_LENGTH)
      then Return (resize (Z.to_nat n) elems)
      else Throw "RangeError"
  | None => Throw "RangeError"
  end.

(** [frontmatter.triggers[key] = arr], where [arr] is the array at place
    [a] of the store and holds [items]. On a plain object this makes or
    updates a property, except under [__proto__]. On an array, [length]
    and the array indices are not plain properties. The module is
    strict-mode code: creating a property on a primitive throws, while an
    assignment under [__proto__] reaches the accessor, which leaves a
    primitive alone. *)
Definition setTrigger (fm : gmap string Value) (key : string) (a : nat)
    (items : list string) : Outcome (gmap string Value) :=
  match fm !! "triggers" with
  | Some (VObject props) =>
      if str_eqb key "__proto__" then Return fm
      else Return (<["triggers" := VObject (<[key := a]> props)]> fm)
  | Some (VArray elems props) =>
      if str_eqb key "__proto__" then Return fm
      else if str_eqb key "length" then
        obind (setLength elems items) (λ elems',
          Return (<["triggers" := VArray elems' props]> fm))
      else
        match arrayIndex key with
        | Some i => Return (<["triggers" := VArray (setElement i (EArray a) elems) props]> fm)
        | None => Return (<["triggers" := VArray elems (<[key := a]> props)]> fm)
        end
  | Some (VScalar _) =>
      if str_eqb key "__proto__" then Return fm else Throw "TypeError"
  | None => Throw "TypeError"
  end.

(** The "key: value pair" part of the loop body, once the key and the
    value have been cut out of the line. *)
Definition isBlockValue (value : string) : bool :=
  negb (truthy_string value) || str_eqb value "{".

Definition isInlineArray (cleanValue : string) : bool :=
  JSString.startsWith "[" cleanValue && JSString.endsWith "]" cleanValue.

Definition inlineItems (cleanValue : string) : list string :=
  map (λ s, JSString.stripQuotes (JSString.trim s))
      (JSString.split ","%char (JSString.sliceInner cleanValue)).

Definition assignKey (st : ParseState) (key value : string) : Outcome ParseState :=
  if isBlockValue value then
    if isArrayParent key then
      let a := length (arrays st) in
      obind (setTrigger (ensureTriggers (frontmatter st)) key a []) (λ fm,
        Return (mkParseState fm (arrays st ++ [[]]) key (Some a)))
    else if str_eqb key "triggers" then
      Return (mkParseState (<["triggers" := VObject ∅]> (frontmatter st))
                (arrays st) key (currentArray st))
    else
      Return (mkParseState (frontmatter st) (arrays st) key (currentArray st))
  else
    let cleanValue := JSString.stripQuotes value in
    if isInlineArray cleanValue then
      let items := inlineItems cleanValue in
      if str_eqb (currentKey st) "triggers" || truthy (frontmatter st !! "triggers") then
        let a := length (arrays st) in
        obind (setTrigger (ensureTriggers (frontmatter st)) key a items) (λ fm,
          Return (mkParseState fm (arrays st ++ [items]) (currentKey st) None))
      else
        Return (mkParseState (assignTop (frontmatter st) key (VArray (EString <$> items) ∅))
                  (arrays st) (currentKey st) None)
    else if str_eqb cleanValue "true" then
      Return (mkParseState (assignTop (frontmatter st) key (VScalar (SBool true)))
                (arrays st) (currentKey st) None)
    else if str_eqb cleanValue "false" then
      Return (mkParseState (assignTop (frontmatter st) key (VScalar (SBool false)))
                (arrays st) (currentKey st) None)
    else
      match Number cleanValue with
      | Some n =>
          Return (mkParseState (assignTop (frontmatter st) key (VScalar (SNum n)))
                    (arrays st) (currentKey st) None)
      | None =>
          Return (mkParseState (assignTop (frontmatter st) key (VScalar (SStr cleanValue)))
                    (arrays st) (currentKey st) None)
      end.

(** The body of the loop over the lines of the block. *)
Definition parseLine (st : ParseState) (line : string) : Outcome ParseState :=
  let trimmed := JSString.trim line in
  if negb (truthy_string trimmed) || JSString.startsWith "#" trimmed then Return st
  else if JSString.startsWith "- " trimmed then
    match currentArray st with
    | Some a =>
        let value := JSString.stripQuotes (JSString.trim (JSString.sliceFrom 2 trimmed)) in
        Return (mkParseState (frontmatter st) (push a value (arrays st))
                  (currentKey st) (currentArray st))
    | None => Return st
    end
  else
    match JSString.indexOf ":"%char line with
    | Some (S n) =>
        let colonIndex := S n in
        assignKey st (JSString.trim (JSString.sliceTo colonIndex line))
                     (JSString.trim (JSString.sliceFrom (colonIndex + 1) line))
    | _ => Return st
    end.

Definition initialParseState : ParseState := mkParseState ∅ [] EmptyString None.

(** [content.match(...)] with the pattern: three dashes and a newline at
    the start, the shortest text up to a newline, three dashes and a
    newline, then the rest. Yields the block between the opening line
    and the first closing line, and the text after it. *)
Definition matchFrontmatter (content : string) : option (string * string) :=
  if JSString.startsWith ("---" +:+ JSString.nl) content
  then JSString.cut (JSString.nl +:+ "---" +:+ JSString.nl) (JSString.sliceFrom 4 content)
  else None.

Definition parseFrontmatter (content : string) : Outcome Parsed :=
  match matchFrontmatter content with
  | None => Return (mkParsed ∅ [] content)
  | Some (yaml, body) =>
      obind (ofold parseLine initialParseState (JSString.split "010"%char yaml)) (λ st,
        Return (mkParsed (frontmatter st) (arrays st) (JSString.trim body)))
  end.
End parse.

(** ** The world the module runs in, and the monad of its effects *)

(** [fs_read], [fs_readdir], [glob_scan] and [grep] answer [None] where the
    corresponding call throws. [glob_scan pattern cwd] is
    [new Glob(pattern).scan({ cwd, onlyFiles: false })], the paths in the
    order the scan yields them, or the failure of an invalid pattern;
    [grep argv cwd] is the standard output of the spawned process.
    [console] collects what is written with [console.error], oldest
    first. *)
Record World := mkWorld {
  fs_exists : string → bool;
  fs_read : string → option string;
  fs_readdir : string → option (list string);
  glob_scan : string → string → option (list string);
  grep : list string → string → option string;
  console : list string
}.

Definition M (A : Type) : Type := World → Outcome A * World.

#[export] Instance M_ret : MRet M := λ A a w, (Return a, w).

#[export] Instance M_bind : MBind M := λ A B k m w,
  match m w with
  | (Return a, w') => k a w'
  | (Throw e, w') => (Throw e, w')
  end.

(** [try { body } catch (e) { handler e }] *)
Definition try_catch {A} (body : M A) (handler : string → M A) : M A := λ w,
  match body w with
  | (Return a, w') => (Return a, w')
  | (Throw e, w') => handler e w'
  end.

Definition lift {A} (o : Outcome A) : M A := λ w, (o, w).

Definition of_option {A} (e : string) (o : option A) : Outcome A :=
  match o with
  | Some a => Return a
  | None => Throw e
  end.

Definition existsSync (p : string) : M bool := λ w, (Return (fs_exists w p), w).

Definition readFileSync (p : string) : M string := λ w,
  (of_option "ENOENT" (fs_read w p), w).

Definition readdirSync (p : string) : M (list string) := λ w,
  (of_option "ENOTDIR" (fs_readdir w p), w).

Definition globScan (pattern cwd : string) : M (list string) := λ w,
  (of_option "GlobError" (glob_scan w pattern cwd), w).

Definition spawn (argv : list string) (cwd : string) : M string := λ w,
  (of_option "SpawnError" (grep w argv cwd), w).

Definition console_error (msg : string) : M unit := λ w,
  (Return tt,
   mkWorld (fs_exists w) (fs_read w) (fs_readdir w) (glob_scan w) (grep w)
           (console w ++ [msg])).

(** A [for ... of] loop whose body runs in [M]. *)
Fixpoint mfold {S A} (step : S → A → M S) (s : S) (l : list A) : M S :=
  match l with
  | [] => mret s
  | a :: l' => s' ← step s a; mfold step s' l'
  end.

(** ** Index loading *)

(** Reading a frontmatter value at the type the [ReferenceEntry] interface
    declares for it. Flags are read through their truthiness, which is all
    the module observes of them; a [priority], [maxTokens] or
    [description] of another type than declared is outside the interface
    and is read as absent. *)
Definition lookupArray (store : list (list string)) (props : gmap string nat)
    (key : string) : option (list string) :=
  a ← props !! key; store !! a.

Definition asTriggers (store : list (list string)) (v : Value) : Triggers :=
  match v with
  | VObject props | VArray _ props =>
      mkTriggers (lookupArray store props "filePatterns")
                 (lookupArray store props "imports")
                 (lookupArray store props "dependencies")
                 (lookupArray store props "keywords")
  | VScalar _ => mkTriggers None None None None
  end.

Definition asNumber (v : option Value) : option Z :=
  match v with Some (VScalar (SNum n)) => Some n | _ => None end.

Definition asString (v : option Value) : option string :=
  match v with Some (VScalar (SStr s)) => Some s | _ => None end.

Definition asFlag (v : option Value) : option bool :=
  match v with None => None | Some _ => Some (truthy v) end.

Section engine.
Context {rt : Runtime}.

(** [index[name] = entry] on the catalog being built, of which the caller
    keeps the own properties. *)
Definition assignEntry (index : ReferenceIndex) (key : string) (e : ReferenceEntry)
  : ReferenceIndex :=
  own (assignProperty (mkDictionary index None) key e).

(** The body of the loop of [scanReferencesDirectory]. *)
Definition scanFile (dir : string) (index : ReferenceIndex) (file : string)
  : M ReferenceIndex :=
  let filePath := path_join dir file in
  try_catch
    (content ← readFileSync filePath;
     parsed ← lift (parseFrontmatter content);
     let fm := p_frontmatter parsed in
     if truthy (fm !! "name") && truthy (fm !! "triggers") then
       match fm !! "name", fm !! "triggers" with
       | Some (VScalar (SStr nm)), Some trig =>
           mret (assignEntry index (JSString.toLowerCase nm)
                   (mkReferenceEntry nm filePath
                      (asString (fm !! "description"))
                      (asTriggers (p_arrays parsed) trig)
                      (default 50 (asNumber (fm !! "priority")))
                      (default (JSNumber.ofZ 2000)
                         (JSNumber.ofZ <$> asNumber (fm !! "maxTokens")))
                      (asFlag (fm !! "disabled"))
                      (asFlag (fm !! "overrideTriggers"))))
       | _, _ => lift (Throw "TypeError")
       end
     else mret index)
    (λ e, _ ← console_error ("[ModuleRules] Failed to parse " +:+ filePath +:+ ":");
          mret index).

Definition scanReferencesDirectory (dir : string) : M ReferenceIndex :=
  listing ← readdirSync dir;
  let files :=
    filter (λ f, JSString.endsWith ".md" f = true ∧ f ≠ "README.md") listing in
  mfold (scanFile dir) ∅ files.

Definition loadReferenceIndex (dir : string) : M (option ReferenceIndex) :=
  let referencesDir := path_join dir "references" in
  found ← existsSync referencesDir;
  if negb found then mret None
  else
    let indexPath := path_join referencesDir "index.json" in
    hasIndex ← existsSync indexPath;
    early ←
      (if (hasIndex : bool) then
         try_catch
           (content ← readFileSync indexPath;
            parsed ← lift (of_option "SyntaxError" (JSON_parse_index content));
            mret (Some parsed))
           (λ e, _ ← console_error ("[ModuleRules] Failed to parse " +:+ indexPath +:+ ":");
                 mret None)
       else mret None);
    match early with
    | Some parsed => mret parsed
    | None => index ← scanReferencesDirectory referencesDir; mret (Some index)
    end.

(** ** Detection *)

(** The loop over the paths one scan yields: paths that mention
    [node_modules] or [.git] are passed over, and the loop is left as
    soon as three matches are held. *)
Fixpoint collectMatches (files matches : list string) : list string :=
  match files with
  | [] => matches
  | file :: rest =>
      if JSString.includes "node_modules" file || JSString.includes ".git" file
      then collectMatches rest matches
      else
        let matches' := matches ++ [file] in
        if (3 <=? length matches')%nat then matches'
        else collectMatches rest matches'
  end.

Fixpoint checkFilePatternsFrom (matches : list string) (patterns : list string)
    (cwd : string) : M (list string) :=
  match patterns with
  | [] => mret matches
  | pattern :: rest =>
      r ← try_catch
            (files ← globScan pattern cwd;
             let matches' := collectMatches files matches in
             mret (matches', (0 <? length matches')%nat))
            (λ _, mret (matches, false));
      if (r.2 : bool) then mret r.1
      else checkFilePatternsFrom r.1 rest cwd
  end.

Definition checkFilePatterns (patterns : list string) (cwd : string)
  : M (list string) :=
  checkFilePatternsFrom [] patterns cwd.

Definition grepArgv (importPattern : string) : list string :=
  ["grep"; "-rlE"; importPattern;
   "--include=*.ts"; "--include=*.tsx";
   "--include=*.js"; "--include=*.jsx";
   "--include=*.py"; "."].

Definition checkImports (patterns : list string) (cwd : string)
  : M (option string) :=
  let importPattern := JSString.join "|" (map JSString.escapeRegex patterns) in
  try_catch
    (output ← spawn (grepArgv importPattern) cwd;
     if truthy_string (JSString.trim output) then
       match
         List.find (λ p, JSString.includes p output
                         || existsb (λ pat, (0 <? String.length output)%nat) patterns)
                   patterns
       with
       | Some p => mret (Some p)
       | None => mret (head patterns)
       end
     else mret None)
    (λ _, mret None).

(** [{ ...pkg.dependencies, ...pkg.devDependencies, ...pkg.peerDependencies }] *)
Definition allDeps (pkg : PackageJson) : gmap string string :=
  pkg_peerDependencies pkg ∪ (pkg_devDependencies pkg ∪ pkg_dependencies pkg).

(** [allDeps[pkgName]] used as a condition: the version the manifest
    gives the package, or else what every object inherits under that
    name. *)
Definition declares (deps : gmap string string) (pkgName : string) : bool :=
  match deps !! pkgName with
  | Some v => truthy_string v
  | None => inherited pkgName
  end.

Definition checkDependencies (packages : list string) (cwd : string)
  : M (option string) :=
  let pkgPath := path_join cwd "package.json" in
  hasPkg ← existsSync pkgPath;
  fromManifest ←
    (if (hasPkg : bool) then
       try_catch
         (content ← readFileSync pkgPath;
          pkg ← lift (of_option "SyntaxError" (JSON_parse_package content));
          mret (List.find (declares (allDeps pkg)) packages))
         (λ _, mret None)
     else mret None);
  match fromManifest with
  | Some pkgName => mret (Some pkgName)
  | None =>
      let reqPath := path_join cwd "requirements.txt" in
      hasReq ← existsSync reqPath;
      if (hasReq : bool) then
        try_catch
          (content ← readFileSync reqPath;
           mret (List.find
                   (λ pkgName, JSString.includes (JSString.toLowerCase pkgName)
                                                 (JSString.toLowerCase content))
                   packages))
          (λ _, mret None)
      else mret None
  end.

Definition checkKeywords (kws : list string) (prompt : string) : option string :=
  let promptLower := JSString.toLowerCase prompt in
  List.find (λ keyword, JSString.includes (JSString.toLowerCase keyword) promptLower) kws.

(** The evidence one catalog entry gathers ([matchedTriggers]). *)
Definition matchTriggers (ref : ReferenceEntry) (cwd : string) (prompt : option string)
  : M (list string) :=
  fromFiles ←
    (if has_length (filePatterns (triggers ref)) then
       fileMatches ← checkFilePatterns (or_empty (filePatterns (triggers ref))) cwd;
       if (0 <? length fileMatches)%nat
       then mret ["files: " +:+ JSString.join ", " (take 2 fileMatches)]
       else mret []
     else mret []);
  fromImports ←
    (if has_length (imports (triggers ref)) then
       importMatch ← checkImports (or_empty (imports (triggers ref))) cwd;
       if truthy_match importMatch
       then mret ["import: " +:+ default EmptyString importMatch]
       else mret []
     else mret []);
  fromDeps ←
    (if has_length (dependencies (triggers ref)) then
       depMatch ← checkDependencies (or_empty (dependencies (triggers ref))) cwd;
       if truthy_match depMatch
       then mret ["dependency: " +:+ default EmptyString depMatch]
       else mret []
     else mret []);
  let fromKeywords :=
    if has_length (keywords (triggers ref)) && truthy_match prompt then
      let keywordMatch :=
        checkKeywords (or_empty (keywords (triggers ref))) (default EmptyString prompt) in
      if truthy_match keywordMatch
      then ["keyword: " +:+ default EmptyString keywordMatch]
      else []
    else [] in
  mret (fromFiles ++ fromImports ++ fromDeps ++ fromKeywords).

(** The body of the loop over [Object.entries(index)]. *)
Definition detectEntry (cwd : string) (prompt : option string)
    (results : list DetectionResult) (kv : string * ReferenceEntry)
  : M (list DetectionResult) :=
  matchedTriggers ← matchTriggers kv.2 cwd prompt;
  if (0 <? length matchedTriggers)%nat
  then mret (results ++ [mkDetectionResult kv.1 (path kv.2) (priority kv.2)
                                           (maxTokens kv.2) matchedTriggers])
  else mret results.

(** [Array.prototype.sort] with a comparator. The sort is stable; for a
    consistent comparator that fixes the result, which is the one the
    insertion below builds. *)
Fixpoint sortInsert {A} (compare : A → A → Z) (x : A) (l : list A) : list A :=
  match l with
  | [] => [x]
  | y :: l' =>
      if compare x y <=? 0 then x :: y :: l'
      else y :: sortInsert compare x l'
  end.

Definition Array_sort {A} (compare : A → A → Z) (l : list A) : list A :=
  foldr (sortInsert compare) [] l.

Definition byPriority (a b : DetectionResult) : Z := dr_priority b - dr_priority a.

Definition detectModules (index : ReferenceIndex) (cwd : string)
    (prompt : option string) : M (list DetectionResult) :=
  results ← mfold (detectEntry cwd prompt) [] (map_to_list index);
  mret (Array_sort byPriority results).

(** ** Reference loading *)

Record LoadState := mkLoadState {
  totalTokens : number;
  loadedContent : list string;
  loadedModules : list string
}.

Definition renderSection (module : DetectionResult) (body : string) : string :=
  "### " +:+ JSString.toUpperCase (dr_module module) +:+ JSString.nl
  +:+ "_Triggered by: " +:+ JSString.join ", " (dr_triggers module) +:+ "_"
  +:+ JSString.nl +:+ JSString.nl +:+ body.

(** The body of the loop of [loadReferences], for a given ceiling. *)
Definition loadStep (ceiling : number) (st : LoadState) (module : DetectionResult)
  : M LoadState :=
  if JSNumber.gtb (JSNumber.add (totalTokens st) (dr_maxTokens module)) ceiling then
    _ ← console_error ("[ModuleRules] Token budget exceeded, skipping "
                        +:+ dr_module module);
    mret st
  else
    try_catch
      (content ← readFileSync (dr_path module);
       parsed ← lift (parseFrontmatter content);
       mret (mkLoadState (JSNumber.add (totalTokens st) (dr_maxTokens module))
               (loadedContent st ++ [renderSection module (p_body parsed)])
               (loadedModules st ++ [dr_module module])))
      (λ e, _ ← console_error ("[ModuleRules] Failed to load " +:+ dr_path module +:+ ":");
            mret st).

Definition initialLoadState : LoadState := mkLoadState (JSNumber.ofZ 0) [] [].

Definition loadLoop (ceiling : number) (st : LoadState) (detected : list DetectionResult)
  : M LoadState :=
  mfold (loadStep ceiling) st detected.

Definition divider : string :=
  JSString.nl +:+ JSString.nl +:+ "---" +:+ JSString.nl +:+ JSString.nl.

Definition renderLoaded (st : LoadState) : string :=
  match loadedContent st with
  | [] => EmptyString
  | _ :: _ =>
      "## Module Rules (Auto-detected: " +:+ JSString.join ", " (loadedModules st)
      +:+ ")" +:+ JSString.nl +:+ JSString.nl
      +:+ JSString.join divider (loadedContent st)
  end.

(** [loadReferences] with the ceiling made explicit; the source fixes it
    to [MAX_TOTAL_TOKENS]. *)
Definition loadReferencesWith (ceiling : number) (detected : list DetectionResult)
  : M string :=
  st ← loadLoop ceiling initialLoadState detected;
  mret (renderLoaded st).

Definition loadReferences (detected : list DetectionResult) : M string :=
  loadReferencesWith MAX_TOTAL_TOKENS detected.

(** ** Main entry point *)

Record ModuleRulesConfig := mkConfig {
  userDir : string;
  projectDir : string;
  cwd : string;
  prompt : option string
}.

Definition detectAndLoadModuleRules (config : ModuleRulesConfig)
  : M (option string) :=
  try_catch
    (userIndex ← loadReferenceIndex (userDir config);
     projectIndex ← loadReferenceIndex (projectDir config);
     if negb (bool_decide (is_Some userIndex)) && negb (bool_decide (is_Some projectIndex))
     then mret None
     else
       mergedIndex ← lift (mergeIndices userIndex projectIndex);
       if (length (map_to_list mergedIndex) =? 0)%nat then mret None
       else
         detected ← detectModules mergedIndex (cwd config) (prompt config);
         if (length detected =? 0)%nat then mret None
         else
           content ← loadReferences detected;
           mret (if truthy_string content then Some content else None))
    (λ e, _ ← console_error "[ModuleRules] Detection error:"; mret None).
End engine.

(** * Definitions used to state the properties *)

Section specification.
Context {rt : Runtime}.

(** ** The merge *)

(** The entry the loop of the merge leaves under a name, given the user's
    entry of that name, if there is one, and the project's. *)
Definition mergedEntry (userRef : option ReferenceEntry) (key : string)
    (projectRef : ReferenceEntry) : option ReferenceEntry :=
  if truthy_flag (disabled projectRef) then None
  else
    match userRef with
    | Some existing =>
        if truthy_flag (overrideTriggers projectRef) then Some projectRef
        else Some (with_triggers projectRef
                     (mergeTriggers (triggers existing) (triggers projectRef)))
    | None => if str_eqb key "__proto__" then None else Some projectRef
    end.

(** A project entry on which the loop throws: it is to be combined with
    what the object holds under its name, and that is not an entry. *)
Definition clashes (obj : Dictionary) (kv : string * ReferenceEntry) : bool :=
  negb (truthy_flag (disabled kv.2)) && negb (truthy_flag (overrideTriggers kv.2))
  && match lookupProperty obj kv.1 with
     | PForeign => true
     | _ => false
     end.

(** No project entry meets a property of [Object.prototype]: an entry
    whose name is one is disabled, or has a user entry of its name, or
    sets [overrideTriggers] and is not named [__proto__]. *)
Definition mergeable (u p : ReferenceIndex) : Prop :=
  ∀ k pe, p !! k = Some pe → inherited k = true →
    is_Some (u !! k) ∨ truthy_flag (disabled pe) = true
    ∨ (truthy_flag (overrideTriggers pe) = true ∧ k ≠ "__proto__").

(** ** Effects *)

(** The world after some lines were written to the console. *)
Definition logged (w : World) (msgs : list string) : World :=
  mkWorld (fs_exists w) (fs_read w) (fs_readdir w) (glob_scan w) (grep w)
          (console w ++ msgs).

(** A computation that only observes the world. *)
Definition frames {A} (m : M A) : Prop := ∀ w, (m w).2 = w.

(** A computation that never throws. *)
Definition returns {A} (m : M A) : Prop := ∀ w, ∃ a, (m w).1 = Return a.

(** A computation that observes the world and returns: it neither changes
    the world nor throws. *)
Definition observes {A} (m : M A) : Prop := ∀ w, ∃ a, m w = (Return a, w).

(** The value a computation returns in a world ([d] if it throws). *)
Definition valueOf {A} (d : A) (r : Outcome A * World) : A :=
  match r.1 with
  | Return a => a
  | Throw _ => d
  end.

(** ** The budgeted assembler *)

(** The body of an entry's document, when it can be read and parsed. *)
Definition readBody (w : World) (d : DetectionResult) : option string :=
  match fs_read w (dr_path d) with
  | Some content =>
      match parseFrontmatter content with
      | Return parsed => Some (p_body parsed)
      | Throw _ => None
      end
  | None => None
  end.

(** The entries the assembler accepts, in the words of the specification:
    walk the results in order; skip a result whose [maxTokens] would take
    the running total over the ceiling; skip a result whose body cannot be
    read; count and keep every other one. The running total and the test
    are computed as the code computes them, in doubles. *)
Fixpoint accepted (ceiling : number) (w : World) (runningTotal : number)
    (detected : list DetectionResult) : list DetectionResult :=
  match detected with
  | [] => []
  | d :: rest =>
      if JSNumber.gtb (JSNumber.add runningTotal (dr_maxTokens d)) ceiling
      then accepted ceiling w runningTotal rest
      else match readBody w d with
           | Some _ => d :: accepted ceiling w (JSNumber.add runningTotal (dr_maxTokens d)) rest
           | None => accepted ceiling w runningTotal rest
           end
  end.

(** The counter after a list of results has been counted in, one addition
    of doubles per result. *)
Definition runningTotal (start : number) (l : list DetectionResult) : number :=
  foldl (λ total d, JSNumber.add total (dr_maxTokens d)) start l.

(** The whole number of tokens a result declares (0 when its [maxTokens]
    is not a whole number), and their exact sum over a list. *)
Definition tokens (d : DetectionResult) : Z :=
  default 0 (JSNumber.whole (dr_maxTokens d)).

Definition sumTokens (l : list DetectionResult) : Z :=
  foldr (λ d acc, tokens d + acc) 0 l.

(** Token counts for which the double arithmetic of the assembler is
    exact: the doubles of the whole numbers from 0 up to, not including,
    [2^52]. *)
Definition wholeCount (x : number) (n : Z) : Prop :=
  0 ≤ n < 2 ^ 52 ∧ x = JSNumber.ofZ n.

Definition wholeTokens (d : DetectionResult) : Prop :=
  ∃ n, wholeCount (dr_maxTokens d) n.

(** The double of a positive whole number below [2^53], written out: 53
    significant bits and the exponent that goes with them. *)
Definition canon (v : Z) : number :=
  S754_finite false (Z.to_pos (v * 2 ^ (52 - Z.log2 v))) (Z.log2 v - 52).

Definition skipMessage (d : DetectionResult) : string :=
  "[ModuleRules] Token budget exceeded, skipping " +:+ dr_module d.

Definition failMessage (d : DetectionResult) : string :=
  "[ModuleRules] Failed to load " +:+ dr_path d +:+ ":".

(** ** The file-pattern check *)

(** A path the scan loop keeps. *)
Definition kept (file : string) : bool :=
  negb (JSString.includes "node_modules" file || JSString.includes ".git" file).

(** What one pattern contributes when the scan starts with no match held:
    nothing if the scan throws, else the first three kept paths. *)
Definition yield (w : World) (cwd pattern : string) : list string :=
  match glob_scan w pattern cwd with
  | Some files => take 3 (List.filter kept files)
  | None => []
  end.

Fixpoint firstYield (w : World) (cwd : string) (patterns : list string) : list string :=
  match patterns with
  | [] => []
  | pattern :: rest =>
      match yield w cwd pattern with
      | [] => firstYield w cwd rest
      | found => found
      end
  end.

(** ** Detection *)

Definition descending (a b : DetectionResult) : Prop := dr_priority b ≤ dr_priority a.

(** The evidence each trigger kind produces for an entry in a world. *)
Definition filesEvidence (w : World) (cwd : string) (ref : ReferenceEntry)
  : list string :=
  if has_length (filePatterns (triggers ref)) then
    let fileMatches :=
      valueOf [] (checkFilePatterns (or_empty (filePatterns (triggers ref))) cwd w) in
    if (0 <? length fileMatches)%nat
    then ["files: " +:+ JSString.join ", " (take 2 fileMatches)]
    else []
  else [].

Definition importsEvidence (w : World) (cwd : string) (ref : ReferenceEntry)
  : list string :=
  if has_length (imports (triggers ref)) then
    let importMatch :=
      valueOf None (checkImports (or_empty (imports (triggers ref))) cwd w) in
    if truthy_match importMatch
    then ["import: " +:+ default EmptyString importMatch]
    else []
  else [].

Definition dependenciesEvidence (w : World) (cwd : string) (ref : ReferenceEntry)
  : list string :=
  if has_length (dependencies (triggers ref)) then
    let depMatch :=
      valueOf None (checkDependencies (or_empty (dependencies (triggers ref))) cwd w) in
    if truthy_match depMatch
    then ["dependency: " +:+ default EmptyString depMatch]
    else []
  else [].

Definition keywordsEvidence (prompt : option string) (ref : ReferenceEntry)
  : list string :=
  if has_length (keywords (triggers ref)) && truthy_match prompt then
    let keywordMatch :=
      checkKeywords (or_empty (keywords (triggers ref))) (default EmptyString prompt) in
    if truthy_match keywordMatch
    then ["keyword: " +:+ default EmptyString keywordMatch]
    else []
  else [].

(** The evidence an entry gathers: what the four kinds produce, in the
    order the kinds are checked. It is empty exactly when no kind produced
    any. *)
Definition evidence (w : World) (cwd : string) (prompt : option string)
    (ref : ReferenceEntry) : list string :=
  filesEvidence w cwd ref ++ importsEvidence w cwd ref
  ++ dependenciesEvidence w cwd ref ++ keywordsEvidence prompt ref.

(** The detection result an entry gives rise to when it has evidence. *)
Definition candidate (w : World) (cwd : string) (prompt : option string)
    (kv : string * ReferenceEntry) : option DetectionResult :=
  let ev := evidence w cwd prompt kv.2 in
  if (0 <? length ev)%nat
  then Some (mkDetectionResult kv.1 (path kv.2) (priority kv.2) (maxTokens kv.2) ev)
  else None.

(** The matched entries in encounter order, before the sort. *)
Definition candidates (w : World) (index : ReferenceIndex) (cwd : string)
    (prompt : option string) : list DetectionResult :=
  omap (candidate w cwd prompt) (map_to_list index).

(** ** Catalog loading *)

Definition parseFailure (indexPath : string) : string :=
  "[ModuleRules] Failed to parse " +:+ indexPath +:+ ":".

(** The index document is there but cannot be read or parsed. *)
Definition unusableIndex (w : World) (indexPath : string) : Prop :=
  fs_exists w indexPath = true
  ∧ (fs_read w indexPath = None
     ∨ ∃ content, fs_read w indexPath = Some content ∧ JSON_parse_index content = None).

(** The index document is there and parses to [parsed]. *)
Definition usableIndex (w : World) (indexPath : string)
    (parsed : option ReferenceIndex) : Prop :=
  fs_exists w indexPath = true
  ∧ ∃ content, fs_read w indexPath = Some content
               ∧ JSON_parse_index content = Some parsed.

(** ** Front-matter parsing *)

(** The key and the value the parser cuts out of a line, for the lines it
    treats as "key: value". *)
Definition keyValue (line : string) : option (string * string) :=
  let trimmed := JSString.trim line in
  if negb (truthy_string trimmed) || JSString.startsWith "#" trimmed then None
  else if JSString.startsWith "- " trimmed then None
  else
    match JSString.indexOf ":"%char line with
    | Some (S n) =>
        Some (JSString.trim (JSString.sliceTo (S n) line),
              JSString.trim (JSString.sliceFrom (S n + 1) line))
    | _ => None
    end.

(** The lines of the front-matter block of a document. *)
Definition blockLines (content : string) : list string :=
  match matchFrontmatter content with
  | Some (yaml, _) => JSString.split "010"%char yaml
  | None => []
  end.

(** [fm.triggers] holds [props] as its named properties. *)
Definition triggersProps (fm : gmap string Value) (props : gmap string nat) : Prop :=
  fm !! "triggers" = Some (VObject props)
  ∨ ∃ elems, fm !! "triggers" = Some (VArray elems props).

(** In the parsed structure, [triggers] holds under [key] a list with the
    items [l]. *)
Definition nested (p : Parsed) (key : string) (l : list string) : Prop :=
  ∃ props a, triggersProps (p_frontmatter p) props
             ∧ props !! key = Some a ∧ p_arrays p !! a = Some l.

(** A line that gives [key] a value, on the line or in block form. *)
Definition assigns (key line : string) : bool :=
  match keyValue line with
  | Some (k, _) => str_eqb k key
  | None => false
  end.

(** A line that leaves alone what [triggers] holds under [key]: it gives
    a value neither to [triggers] nor to [key]. *)
Definition leaves (key line : string) : bool :=
  negb (assigns "triggers" line) && negb (assigns key line).

(** ** Keyword, import and dependency checks *)

(** The keyword occurs in the prompt, letter case aside. *)
Definition occurs (keyword prompt : string) : bool :=
  JSString.includes (JSString.toLowerCase keyword) (JSString.toLowerCase prompt).

(** A text written in ASCII: on such texts [toLowerCase] and
    [toUpperCase] map the letters A to Z and a to z and nothing else, as
    [JSString.toLowerCase] and [JSString.toUpperCase] do. *)
Fixpoint isAscii (s : string) : bool :=
  match s with
  | EmptyString => true
  | String c s' => (nat_of_ascii c <? 128)%nat && isAscii s'
  end.

(** What the spawned search prints for a list of import strings, if the
    process can be run. *)
Definition grepOutput (w : World) (patterns : list string) (cwd : string)
  : option string :=
  grep w (grepArgv (JSString.join "|" (map JSString.escapeRegex patterns))) cwd.

(** The search printed the name of at least one file. *)
Definition grepHit (w : World) (patterns : list string) (cwd : string) : bool :=
  match grepOutput w patterns cwd with
  | Some output => truthy_string (JSString.trim output)
  | None => false
  end.

(** ** Escaped import strings as search patterns *)

Definition backslash : ascii := "092"%char.

(** Reading an escaped string back: a backslash stands for the character
    after it. *)
Fixpoint unescapeRegex (s : string) : string :=
  match s with
  | EmptyString => EmptyString
  | String c s' =>
      if Ascii.eqb c backslash then
        match s' with
        | String d s'' => String d (unescapeRegex s'')
        | EmptyString => EmptyString
        end
      else String c (unescapeRegex s')
  end.

(** A pattern without operators: every reserved character in it directly
    follows a backslash that escapes it. *)
Fixpoint literalPattern (s : string) : bool :=
  match s with
  | EmptyString => true
  | String c s' =>
      if Ascii.eqb c backslash then
        match s' with
        | String d s'' => JSString.is_regex_special d && literalPattern s''
        | EmptyString => false
        end
      else negb (JSString.is_regex_special c) && literalPattern s'
  end.

Fixpoint noSpecial (s : string) : bool :=
  match s with
  | EmptyString => true
  | String c s' => negb (JSString.is_regex_special c) && noSpecial s'
  end.

Definition consHead (c : ascii) (l : list string) : list string :=
  match l with
  | h :: t => String c h :: t
  | [] => [String c EmptyString]
  end.

Definition prependHead (p : string) (l : list string) : list string :=
  match l with
  | h :: t => (p +:+ h) :: t
  | [] => [p]
  end.

(** The branches of an alternation: the pattern cut at every bar that is
    not escaped. *)
Fixpoint alternatives (s : string) : list string :=
  match s with
  | EmptyString => [EmptyString]
  | String c s' =>
      if Ascii.eqb c backslash then
        match s' with
        | String d s'' => consHead c (consHead d (alternatives s''))
        | EmptyString => [String c EmptyString]
        end
      else if Ascii.eqb c "|"%char then EmptyString :: alternatives s'
      else consHead c (alternatives s')
  end.

(** What the dependency manifest yields for a list of packages: the first
    listed package it declares, if it is there and can be read and
    parsed. *)
Definition manifestHit (w : World) (packages : list string) (cwd : string)
  : option string :=
  if fs_exists w (path_join cwd "package.json") then
    match fs_read w (path_join cwd "package.json") with
    | Some content =>
        match JSON_parse_package content with
        | Some pkg => List.find (declares (allDeps pkg)) packages
        | None => None
        end
    | None => None
    end
  else None.

(** What the plain dependency list yields: the first listed package whose
    name occurs in it, letter case aside. *)
Definition requirementsHit (w : World) (packages : list string) (cwd : string)
  : option string :=
  if fs_exists w (path_join cwd "requirements.txt") then
    match fs_read w (path_join cwd "requirements.txt") with
    | Some content => List.find (λ pkgName, occurs pkgName content) packages
    | None => None
    end
  else None.

(** ** Header of the assembled text *)

Definition header (modules : list string) : string :=
  "## Module Rules (Auto-detected: " +:+ JSString.join ", " modules
  +:+ ")" +:+ JSString.nl +:+ JSString.nl.

(** ** Effects, continued *)

(** A computation whose only effect on the world is to write to the
    console. *)
Definition logsOnly {A} (m : M A) : Prop := ∀ w, ∃ msgs, (m w).2 = logged w msgs.

(** ** Front-matter delimiters and lines *)

Definition openingLine : string := "---" +:+ JSString.nl.
Definition closingLine : string := JSString.nl +:+ "---" +:+ JSString.nl.

(** Some line of the block after its first line is exactly three dashes,
    so that the block would be closed before its end. *)
Definition closesEarly (yaml : string) : bool :=
  JSString.includes closingLine (yaml +:+ JSString.nl +:+ "---").

(** A line the parser passes over whatever it has read before: blank, a
    comment, or (not being a list item) without a colon after its first
    character. *)
Definition inert (line : string) : bool :=
  let trimmed := JSString.trim line in
  if negb (truthy_string trimmed) || JSString.startsWith "#" trimmed then true
  else if JSString.startsWith "- " trimmed then false
  else match JSString.indexOf ":"%char line with
       | Some (S _) => false
       | _ => true
       end.

(** A list item line, and the value it contributes. *)
Definition itemLine (line : string) : bool :=
  JSString.startsWith "- " (JSString.trim line).

Definition itemValue (line : string) : string :=
  JSString.stripQuotes (JSString.trim (JSString.sliceFrom 2 (JSString.trim line))).

(** A line that stores a scalar under the key [triggers]. *)
Definition scalarTriggersLine (line : string) : bool :=
  match keyValue line with
  | Some (key, value) =>
      str_eqb key "triggers" && negb (isBlockValue value)
      && negb (isInlineArray (JSString.stripQuotes value))
  | None => false
  end.

Definition triggersNotScalar (fm : gmap string Value) : Prop :=
  ∀ s, fm !! "triggers" ≠ Some (VScalar s).

(** A line that gives the key [triggers], and one that gives the key
    [length], an inline list. *)
Definition inlineListLine (key line : string) : bool :=
  match keyValue line with
  | Some (k, value) =>
      str_eqb k key && negb (isBlockValue value)
      && isInlineArray (JSString.stripQuotes value)
  | None => false
  end.

Definition triggersPlain (fm : gmap string Value) : Prop :=
  fm !! "triggers" = None ∨ ∃ props, fm !! "triggers" = Some (VObject props).
End specification.

(** * Sample data

    Catalogs, documents, worlds and a runtime for the scenarios of the
    specification and for the instances of the theorems below. *)

Definition entry (nm : string) (prio : Z) (kws : list string)
    (dis ovr : option bool) : ReferenceEntry :=
  mkReferenceEntry nm ("references/" +:+ nm +:+ ".md") None
    (mkTriggers None None None (Some kws)) prio (JSNumber.ofZ 2000) dis ovr.

Definition sampleUser : ReferenceIndex :=
  <["auth" := entry "Auth" 80 ["login"] None None]>
    (<["legacy" := entry "legacy" 50 ["old"] (Some true) None]> ∅).

Definition sampleProject : ReferenceIndex :=
  <["auth" := entry "auth" 90 ["oauth"] None None]> ∅.

(** A project catalog that disables [legacy] (Scenario 2). *)
Definition disablingProject : ReferenceIndex :=
  <["legacy" := entry "legacy" 50 [] (Some true) None]> ∅.

(** The built-ins on the documents the examples use: [Number] on decimal
    numerals, [JSON.parse] on the literal [null] and on a text that is not
    JSON. *)
Definition sampleRuntime : Runtime :=
  {| Number := λ s, match s with EmptyString => Some 0 | _ => decimalFrom 0 s end;
     JSON_parse_index := λ s, if str_eqb s "null" then Some None else None;
     JSON_parse_package := λ _, None;
     path_join := λ a b, a +:+ "/" +:+ b |}.

Definition sampleDoc : string :=
  lines ["---"; "name: Auth"; "priority: 80"; "---"; "Use the auth service."].

Definition sampleWorld : World :=
  {| fs_exists := λ _, false;
     fs_read := λ p, if bool_decide (p ∈ ["a.md"; "b.md"; "c.md"]) then Some sampleDoc else None;
     fs_readdir := λ _, None;
     glob_scan := λ _ _, Some [];
     grep := λ _ _, None;
     console := [] |}.

Definition result (nm : string) (prio count : Z) : DetectionResult :=
  mkDetectionResult nm (nm +:+ ".md") prio (JSNumber.ofZ count) ["keyword: " +:+ nm].

(** Scenario 4 of the specification. *)
Definition scenario4 : list DetectionResult :=
  [result "a" 90 2000; result "b" 80 2000; result "c" 70 500].

(** Three results whose token counts are whole numbers with the exact sum
    8001, the first of them beyond the range in which doubles hold every
    whole number. *)
Definition overshoot : list DetectionResult :=
  [result "a" 90 (- 2 ^ 54); result "b" 80 1; result "c" 70 (2 ^ 54 + 8000)].

Definition parsedSampleDoc : Parsed :=
  mkParsed (<["priority" := VScalar (SNum 80)]> (<["name" := VScalar (SStr "Auth")]> ∅))
    [] "Use the auth service.".

(** A world whose references directory holds an index document that is the
    JSON literal [null], and one whose [references] entry exists but
    cannot be listed (it is a plain file). *)
Definition nullIndexWorld : World :=
  {| fs_exists := λ p, bool_decide (p ∈ ["home/references"; "home/references/index.json"]);
     fs_read := λ p, if str_eqb p "home/references/index.json" then Some "null" else None;
     fs_readdir := λ p, if str_eqb p "home/references" then Some ["index.json"] else None;
     glob_scan := λ _ _, Some [];
     grep := λ _ _, None;
     console := [] |}.

Definition plainFileWorld : World :=
  {| fs_exists := λ p, str_eqb p "home/references";
     fs_read := λ _, None;
     fs_readdir := λ _, None;
     glob_scan := λ _ _, Some [];
     grep := λ _ _, None;
     console := [] |}.

(** A document that gives [keywords] an inline list and has no [triggers]
    line. *)
Definition inlineKeywordsDoc : string :=
  lines ["---"; "name: Auth"; "keywords: [login, oauth]"; "---"; "Body."].

(** A document that gives [keywords] in block form and has no [triggers]
    line. *)
Definition blockKeywordsDoc : string :=
  lines ["---"; "name: Auth"; "keywords:"; "  - login"; "  - oauth"; "---"; "Body."].

Definition blockParsed : Parsed :=
  Eval vm_compute in
    match parseFrontmatter (rt:=sampleRuntime) blockKeywordsDoc with
    | Return p => p
    | Throw _ => mkParsed ∅ [] EmptyString
    end.

(** A working tree for the file-pattern check: the first pattern is
    invalid, the second matches only excluded paths, the third matches. *)
Definition treeWorld : World :=
  {| fs_exists := λ _, false;
     fs_read := λ _, None;
     fs_readdir := λ _, None;
     glob_scan := λ pattern _,
       if str_eqb pattern "[" then None
       else if str_eqb pattern "**/*.lock"
       then Some ["node_modules/a/yarn.lock"; ".git/index.lock"]
       else if str_eqb pattern "supabase/**"
       then Some ["node_modules/supabase/x.ts"; "supabase/config.toml"; "supabase/a.sql";
                  ".git/supabase"; "supabase/b.sql"; "supabase/c.sql"]
       else Some ["other"];
     grep := λ _ _, None;
     console := [] |}.

(** A working tree with build output and the metadata of another version
    control system. *)
Definition buildWorld : World :=
  {| fs_exists := λ _, false;
     fs_read := λ _, None;
     fs_readdir := λ _, None;
     glob_scan := λ pattern _,
       if str_eqb pattern "**/*.js"
       then Some ["dist/bundle.js"; "node_modules/x/index.js"; ".svn/pristine/a.js";
                  "build/out.js"; "src/main.js"]
       else Some [];
     grep := λ _ _, None;
     console := [] |}.

Definition sampleMerged : ReferenceIndex :=
  <["auth" := mkReferenceEntry "auth" "references/auth.md" None
                (mkTriggers (Some []) (Some []) (Some []) (Some ["login"; "oauth"]))
                90 (JSNumber.ofZ 2000) None None]> sampleUser.

Definition sampleConfig : ModuleRulesConfig :=
  mkConfig "home/.claude" "proj/.claude" "proj" (Some "please add oauth support").

(** A project catalog with an entry named like a method every object
    inherits, and one whose entry named [__proto__] sets
    [overrideTriggers], with an entry named like a field beside it. *)
Definition clashingProject : ReferenceIndex :=
  <["constructor" := entry "constructor" 10 ["new"] None None]> sampleProject.

Definition protoEntry : ReferenceEntry := entry "__proto__" 10 ["proto"] None (Some true).

Definition pathEntry : ReferenceEntry := entry "path" 10 ["route"] None None.

(** A project catalog whose [auth] entry replaces the user's triggers. *)
Definition overridingProject : ReferenceIndex :=
  <["auth" := entry "auth" 90 ["oauth"] None (Some true)]> ∅.

(** An entry whose keyword list starts with an empty keyword. *)
Definition maskedEntry : ReferenceEntry :=
  entry "auth" 90 [EmptyString; "oauth"] None None.

(** A manifest that declares [react] and [zod], with an empty version for
    [vue] among the peer dependencies, and a runtime that parses it (the
    text of the manifest is abbreviated). *)
Definition samplePackage : PackageJson :=
  {| pkg_dependencies := <["vue" := "^3.0.0"]> (<["react" := "^18.0.0"]> ∅);
     pkg_devDependencies := <["zod" := "^3.0.0"]> ∅;
     pkg_peerDependencies := <["vue" := EmptyString]> ∅ |}.

Definition manifestRuntime : Runtime :=
  {| Number := λ _, None;
     JSON_parse_index := λ _, None;
     JSON_parse_package := λ s, if str_eqb s "{manifest}" then Some samplePackage else None;
     path_join := λ a b, a +:+ "/" +:+ b |}.

Definition manifestWorld : World :=
  {| fs_exists := λ p, bool_decide (p ∈ ["proj/package.json"; "proj/requirements.txt"]);
     fs_read := λ p,
       if str_eqb p "proj/package.json" then Some "{manifest}"
       else if str_eqb p "proj/requirements.txt" then Some "Vue==1.0"
       else None;
     fs_readdir := λ _, None;
     glob_scan := λ _ _, Some [];
     grep := λ _ _, None;
     console := [] |}.

(** An entry without any trigger, in a catalog of its own. *)
Definition silentEntry : ReferenceEntry :=
  mkReferenceEntry "notes" "references/notes.md" None
    (mkTriggers None (Some []) None None) 99 (JSNumber.ofZ 100) None None.

Definition silentIndex : ReferenceIndex := <["notes" := silentEntry]> sampleMerged.

(** A document with a [keywords] list and a [triggers] line after it. *)
Definition droppedKeywordsDoc : string :=
  lines ["---"; "keywords:"; "  - login"; "triggers:"; "---"; "Body."].

(** A document whose [triggers] is given a scalar and then a list. *)
Definition scalarTriggersDoc : string :=
  lines ["---"; "name: Auth"; "triggers: yes"; "keywords:"; "  - login"; "---"; "Body."].

(** A document whose [triggers] is given an inline list, and then the
    key [length] another. *)
Definition arrayLengthDoc : string :=
  lines ["---"; "triggers: [x]"; "length: [a, b]"; "---"; "Body."].

Definition keywordsState : ParseState :=
  mkParseState (<["triggers" := VObject {["keywords" := 0%nat]}]> ∅) [[]] "keywords" (Some 0%nat).

(** A world in which the user's references directory exists but cannot be
    listed, while the project's holds nothing wrong. *)
Definition brokenUserWorld : World :=
  {| fs_exists := λ p, bool_decide (p ∈ ["home/.claude/references"; "proj/.claude/references"]);
     fs_read := λ _, None;
     fs_readdir := λ p, if str_eqb p "proj/.claude/references" then Some [] else None;
     glob_scan := λ _ _, Some [];
     grep := λ _ _, None;
     console := [] |}.

(** * Properties *)

(** ** Properties of the merge *)

Section merge_facts.
Implicit Types (d : Dictionary) (l : list (string * ReferenceEntry)).

Lemma mergeStep_other d d' k k' e :
  k ≠ k' → mergeStep d (k', e) = Return d' → own d' !! k = own d !! k.
Proof.
  intros Hne. unfold mergeStep, assignProperty, deleteProperty.
  destruct (truthy_flag (disabled e)).
  { intros [= <-]. simpl. by rewrite lookup_delete_ne. }
  destruct (lookupProperty d k') as [existing| |];
    destruct (negb (truthy_flag (overrideTriggers e)));
    destruct (own d !! k'); destruct (str_eqb k' "__proto__");
    intros [= <-]; simpl; by rewrite ?lookup_insert_ne.
Qed.

Lemma mergeStep_own d d' k e :
  mergeStep d (k, e) = Return d' → own d' !! k = mergedEntry (own d !! k) k e.
Proof.
  unfold mergeStep, mergedEntry, lookupProperty, assignProperty, deleteProperty.
  destruct (truthy_flag (disabled e)).
  { intros [= <-]. simpl. by rewrite lookup_delete_eq. }
  destruct (own d !! k) as [existing|] eqn:Hown.
  - destruct (truthy_flag (overrideTriggers e)); intros [= <-]; simpl;
      by rewrite lookup_insert_eq.
  - destruct (proto d) as [pe|].
    + destruct (str_eqb k "__proto__") eqn:Hk.
      * destruct (negb _); intros [= <-]; done.
      * destruct (fieldTruthy pe k || inherited k);
          [destruct (negb _); [done|]|]; intros [= <-]; simpl;
          by rewrite lookup_insert_eq.
    + destruct (inherited k); [destruct (negb _); [done|]|];
        destruct (str_eqb k "__proto__"); intros [= <-]; simpl;
        by rewrite ?lookup_insert_eq.
Qed.

Lemma merge_fold_absent l : ∀ d d' k,
  k ∉ l.*1 → ofold mergeStep d l = Return d' → own d' !! k = own d !! k.
Proof.
  induction l as [|[k' e] l IH]; intros d d' k Hk; cbn [ofold].
  - by intros [= <-].
  - rewrite fmap_cons, not_elem_of_cons in Hk. destruct Hk as [Hne Hk].
    destruct (mergeStep d (k', e)) as [d1|err] eqn:Hstep; cbn [obind]; [|done].
    intros Hrest. rewrite (IH _ _ _ Hk Hrest). by eapply mergeStep_other.
Qed.

Lemma merge_fold_present l : ∀ d d' k e,
  NoDup l.*1 → (k, e) ∈ l → ofold mergeStep d l = Return d' →
  own d' !! k = mergedEntry (own d !! k) k e.
Proof.
  induction l as [|[k' e'] l IH]; intros d d' k e Hnd Hin.
  - by apply elem_of_nil in Hin.
  - rewrite fmap_cons in Hnd. apply NoDup_cons in Hnd as [Hfresh Hnd].
    simpl in Hfresh. cbn [ofold].
    destruct (mergeStep d (k', e')) as [d1|err] eqn:Hstep; cbn [obind]; [|done].
    intros Hrest. apply elem_of_cons in Hin as [Heq|Hin].
    + injection Heq as -> ->.
      rewrite (merge_fold_absent _ _ _ _ Hfresh Hrest). by apply mergeStep_own.
    + assert (k ≠ k') as Hne.
      { intros ->. apply Hfresh. apply list_elem_of_fmap. by exists (k', e). }
      rewrite (IH _ _ _ _ Hnd Hin Hrest).
      by rewrite (mergeStep_other _ _ _ _ _ Hne Hstep).
Qed.

(** The merged catalog, key by key, whenever the merge returns one. *)
Lemma mergeIndices_lookup (u : option ReferenceIndex) (p merged : ReferenceIndex) k :
  mergeIndices u (Some p) = Return merged →
  merged !! k =
    match p !! k with
    | None => default ∅ u !! k
    | Some e => mergedEntry (default ∅ u !! k) k e
    end.
Proof.
  unfold mergeIndices, mergeEntries.
  destruct (ofold mergeStep _ _) as [d|err] eqn:Hfold; cbn [obind]; [|done].
  intros [= <-].
  destruct (p !! k) as [e|] eqn:Hp.
  - apply elem_of_map_to_list in Hp.
    by rewrite (merge_fold_present _ _ _ k e (NoDup_fst_map_to_list p) Hp Hfold).
  - assert (k ∉ (map_to_list p).*1) as Hout.
    { intros [[k' e] [Hk Hin]]%list_elem_of_fmap. simpl in Hk. subst k'.
      apply elem_of_map_to_list in Hin. congruence. }
    by rewrite (merge_fold_absent _ _ _ k Hout Hfold).
Qed.

(** The step throws exactly on a clash. *)
Lemma mergeStep_throws d kv :
  (clashes d kv = true → mergeStep d kv = Throw "TypeError")
  ∧ (clashes d kv = false → ∃ d', mergeStep d kv = Return d').
Proof.
  destruct kv as [k e]. unfold clashes, mergeStep. simpl.
  destruct (truthy_flag (disabled e)); simpl; [split; [done|eauto]|].
  destruct (truthy_flag (overrideTriggers e)); simpl.
  - split; [done|]. destruct (lookupProperty d k); eauto.
  - destruct (lookupProperty d k); split; try done; eauto.
Qed.


Lemma mergeStep_proto d d' k e :
  k ≠ "__proto__" ∨ is_Some (own d !! k) ∨ truthy_flag (disabled e) = true →
  mergeStep d (k, e) = Return d' → proto d' = proto d.
Proof.
  intros Hk. unfold mergeStep, assignProperty, deleteProperty.
  destruct (truthy_flag (disabled e)) eqn:Hdis; [by intros [= <-]|].
  assert (own d !! k = None → str_eqb k "__proto__" = false) as Hplain.
  { intros Hnone. apply bool_decide_eq_false. intros ->.
    destruct Hk as [?|[[? Hs]|?]]; [done|congruence|done]. }
  destruct (lookupProperty d k);
    destruct (negb (truthy_flag (overrideTriggers e))); try done;
    (destruct (own d !! k); [|rewrite Hplain by done]); by intros [= <-].
Qed.


(** The loop returns when no entry meets what the object inherits. *)
Lemma merge_fold_returns l : ∀ d,
  NoDup l.*1 → proto d = None →
  (∀ k pe, (k, pe) ∈ l → inherited k = true →
     is_Some (own d !! k) ∨ truthy_flag (disabled pe) = true
     ∨ (truthy_flag (overrideTriggers pe) = true ∧ k ≠ "__proto__")) →
  ∃ d', ofold mergeStep d l = Return d'.
Proof.
  induction l as [|[k e] l IH]; intros d Hnd Hp Hok; [by exists d|].
  rewrite fmap_cons in Hnd. apply NoDup_cons in Hnd as [Hfresh Hnd].
  simpl in Hfresh. cbn [ofold].
  assert (clashes d (k, e) = false) as Hclash.
  { unfold clashes, lookupProperty. simpl. rewrite Hp.
    destruct (truthy_flag (disabled e)) eqn:Hdis; [done|].
    destruct (truthy_flag (overrideTriggers e)) eqn:Hovr; [done|]. simpl.
    destruct (own d !! k) eqn:Hown; [done|].
    destruct (inherited k) eqn:Hinh; [|done].
    destruct (Hok k e ltac:(apply list_elem_of_here) Hinh) as [[? Hs]|[?|[? _]]]; congruence. }
  destruct (proj2 (mergeStep_throws d (k, e)) Hclash) as [d1 Hstep].
  rewrite Hstep. cbn [obind]. apply IH; [done| |].
  - rewrite <- Hp. eapply mergeStep_proto; [|exact Hstep].
    destruct (decide (k = "__proto__")) as [->|Hne]; [|by left]. right.
    destruct (Hok "__proto__" e ltac:(apply list_elem_of_here) eq_refl)
      as [Hs|[Hd|[_ Hne]]]; [by left|by right|done].
  - intros k' pe' Hin Hinh.
    assert (k' ≠ k) as Hne.
    { intros ->. apply Hfresh. apply list_elem_of_fmap. by exists (k, pe'). }
    rewrite (mergeStep_other _ _ _ _ _ Hne Hstep).
    apply Hok; [by apply list_elem_of_further|done].
Qed.

Lemma mergeIndices_returns (u p : ReferenceIndex) :
  mergeable u p → ∃ merged, mergeIndices (Some u) (Some p) = Return merged.
Proof.
  intros Hok. unfold mergeIndices, mergeEntries.
  change (default ∅ (Some u)) with u.
  destruct (merge_fold_returns (map_to_list p) (mkDictionary u None)) as [d ->].
  - apply NoDup_fst_map_to_list.
  - done.
  - intros k pe Hin%elem_of_map_to_list Hinh. simpl. by apply Hok.
  - simpl. eauto.
Qed.
End merge_facts.

(** Scenario 1 and Scenario 2 of the specification. *)
Example mergeIndices_scenario1 :
  mergeIndices (Some sampleUser) (Some sampleProject) = Return sampleMerged.
Proof. vm_compute. reflexivity. Qed.

Example mergeIndices_scenario2 :
  ∃ merged, mergeIndices (Some sampleUser) (Some disablingProject) = Return merged
            ∧ merged !! "legacy" = None.
Proof. eexists. split; [vm_compute; reflexivity|]. reflexivity. Qed.

(** C1, as stated, fails: an entry that the user catalog marks as disabled
    and that the project catalog does not mention is still in the merged
    catalog, with its [disabled] field true. *)
Lemma mergeIndices_keeps_user_disabled :
  ∃ merged e, mergeIndices (Some sampleUser) (Some sampleProject) = Return merged
    ∧ merged !! "legacy" = Some e
    ∧ disabled e = Some true.
Proof. eexists _, _. split; [vm_compute; reflexivity|]. split; reflexivity. Qed.

(** C1 (amended): the [disabled] flag is interpreted on project entries
    only. An entry found in a merged catalog is never one that the
    project catalog disables; and if its own [disabled] field is true, it
    is the user catalog's entry of that name, passed through unchanged,
    and the project catalog has no entry of that name. *)
Theorem mergeIndices_disabled (u p : option ReferenceIndex) (merged : ReferenceIndex)
    (k : string) (e : ReferenceEntry) :
  mergeIndices u p = Return merged →
  merged !! k = Some e →
  (∀ pe, default ∅ p !! k = Some pe → truthy_flag (disabled pe) = false)
  ∧ (truthy_flag (disabled e) = true →
     default ∅ u !! k = Some e ∧ default ∅ p !! k = None).
Proof.
  destruct p as [p|]; intros Hrun He.
  - rewrite (mergeIndices_lookup u p merged k Hrun) in He.
    cbn [default from_option id].
    destruct (p !! k) as [pe|] eqn:Hp.
    + unfold mergedEntry in He. destruct (truthy_flag (disabled pe)) eqn:Hd; [done|].
      split; [by intros ? [= <-]|].
      intros Hdis. exfalso.
      destruct (default ∅ u !! k);
        [destruct (truthy_flag (overrideTriggers pe))|destruct (str_eqb k "__proto__")];
        try done; injection He as <-; simpl in Hdis; congruence.
    + split; [discriminate|done].
  - injection Hrun as <-. cbn [default from_option id].
    split; [by rewrite lookup_empty|]. by rewrite lookup_empty.
Qed.

Lemma mergeIndices_disabled_witness :
  (∀ pe, sampleProject !! "legacy" = Some pe → truthy_flag (disabled pe) = false)
  ∧ (truthy_flag (disabled (entry "legacy" 50 ["old"] (Some true) None)) = true →
     sampleUser !! "legacy" = Some (entry "legacy" 50 ["old"] (Some true) None)
     ∧ sampleProject !! "legacy" = None).
Proof.
  apply (mergeIndices_disabled (Some sampleUser) (Some sampleProject) sampleMerged "legacy").
  - vm_compute. reflexivity.
  - vm_compute. reflexivity.
Defined.

(** C2: for a name present in both catalogs whose project entry sets
    neither [overrideTriggers] nor [disabled], the entry of that name in
    the merged catalog has the project entry's path, priority, maxTokens
    and description, and each of its four trigger lists is the user list
    followed by the project list, nothing removed. A merged catalog is
    produced unless a project entry meets a property that every object
    inherits. *)
Theorem mergeIndices_combines_triggers (u p : ReferenceIndex) (k : string)
    (ue pe : ReferenceEntry) :
  u !! k = Some ue →
  p !! k = Some pe →
  truthy_flag (overrideTriggers pe) = false →
  truthy_flag (disabled pe) = false →
  (∀ merged, mergeIndices (Some u) (Some p) = Return merged →
     ∃ e, merged !! k = Some e
       ∧ path e = path pe ∧ priority e = priority pe
       ∧ maxTokens e = maxTokens pe ∧ description e = description pe
       ∧ filePatterns (triggers e)
         = Some (or_empty (filePatterns (triggers ue)) ++ or_empty (filePatterns (triggers pe)))
       ∧ imports (triggers e)
         = Some (or_empty (imports (triggers ue)) ++ or_empty (imports (triggers pe)))
       ∧ dependencies (triggers e)
         = Some (or_empty (dependencies (triggers ue)) ++ or_empty (dependencies (triggers pe)))
       ∧ keywords (triggers e)
         = Some (or_empty (keywords (triggers ue)) ++ or_empty (keywords (triggers pe))))
  ∧ (mergeable u p → ∃ merged, mergeIndices (Some u) (Some p) = Return merged).
Proof.
  intros Hu Hp Hovr Hdis. split; [|apply mergeIndices_returns].
  intros merged Hrun.
  rewrite (mergeIndices_lookup (Some u) p merged k Hrun), Hp.
  unfold mergedEntry. cbn [default from_option id]. rewrite Hdis, Hu, Hovr.
  eexists. split; [reflexivity|]. simpl. repeat split.
Qed.

Lemma mergeIndices_combines_triggers_witness :
  ∃ e, sampleMerged !! "auth" = Some e
    ∧ path e = "references/auth.md" ∧ priority e = 90
    ∧ maxTokens e = JSNumber.ofZ 2000 ∧ description e = None
    ∧ filePatterns (triggers e) = Some []
    ∧ imports (triggers e) = Some []
    ∧ dependencies (triggers e) = Some []
    ∧ keywords (triggers e) = Some ["login"; "oauth"].
Proof.
  apply (proj1 (mergeIndices_combines_triggers sampleUser sampleProject "auth"
                  (entry "Auth" 80 ["login"] None None) (entry "auth" 90 ["oauth"] None None)
                  eq_refl eq_refl eq_refl eq_refl) sampleMerged).
  vm_compute. reflexivity.
Defined.

(** ** Reasoning about the effects *)

Lemma logged_nil w : logged w [] = w.
Proof. destruct w. unfold logged. simpl. by rewrite app_nil_r. Qed.

Lemma logged_logged w a b : logged (logged w a) b = logged w (a ++ b).
Proof. unfold logged. simpl. by rewrite app_assoc. Qed.

Lemma frames_ret {A} (a : A) : frames (mret a).
Proof. by intros w. Qed.

Lemma frames_bind {A B} (m : M A) (k : A → M B) :
  frames m → (∀ a, frames (k a)) → frames (m ≫= k).
Proof.
  intros Hm Hk w. unfold mbind, M_bind. specialize (Hm w).
  destruct (m w) as [[a|e] w']; simpl in *; subst w'; [apply Hk|done].
Qed.

Lemma frames_try_catch {A} (body : M A) (handler : string → M A) :
  frames body → (∀ e, frames (handler e)) → frames (try_catch body handler).
Proof.
  intros Hb Hh w. unfold try_catch. specialize (Hb w).
  destruct (body w) as [[a|e] w']; simpl in *; subst w'; [done|apply Hh].
Qed.

Lemma frames_lift {A} (o : Outcome A) : frames (lift o).
Proof. by intros w. Qed.

Lemma frames_existsSync p : frames (existsSync p).
Proof. by intros w. Qed.

Lemma frames_readFileSync p : frames (readFileSync p).
Proof. by intros w. Qed.

Lemma frames_globScan p c : frames (globScan p c).
Proof. by intros w. Qed.

Lemma frames_spawn a c : frames (spawn a c).
Proof. by intros w. Qed.

Lemma frames_mfold {S A} (step : S → A → M S) l :
  (∀ s a, frames (step s a)) → ∀ s, frames (mfold step s l).
Proof.
  intros Hstep. induction l as [|a l IH]; intros s; simpl.
  - apply frames_ret.
  - apply frames_bind; [apply Hstep|apply IH].
Qed.

Lemma returns_ret {A} (a : A) : returns (mret a).
Proof. intros w. by exists a. Qed.

Lemma returns_bind {A B} (m : M A) (k : A → M B) :
  returns m → (∀ a, returns (k a)) → returns (m ≫= k).
Proof.
  intros Hm Hk w. unfold mbind, M_bind. destruct (Hm w) as [a Ha].
  destruct (m w) as [[a'|e] w']; simpl in *; [apply Hk|discriminate].
Qed.

Lemma returns_try_catch {A} (body : M A) (handler : string → M A) :
  (∀ e, returns (handler e)) → returns (try_catch body handler).
Proof.
  intros Hh w. unfold try_catch.
  destruct (body w) as [[a|e] w']; [by exists a|apply Hh].
Qed.

Lemma returns_console_error msg : returns (console_error msg).
Proof. intros w. by exists tt. Qed.

Lemma returns_existsSync p : returns (existsSync p).
Proof. intros w. by eexists. Qed.

Lemma returns_mfold {S A} (step : S → A → M S) l :
  (∀ s a, returns (step s a)) → ∀ s, returns (mfold step s l).
Proof.
  intros Hstep. induction l as [|a l IH]; intros s; simpl.
  - apply returns_ret.
  - apply returns_bind; [apply Hstep|apply IH].
Qed.

Lemma mfold_app {S A} (step : S → A → M S) (l1 l2 : list A) s w :
  mfold step s (l1 ++ l2) w =
    match mfold step s l1 w with
    | (Return s1, w1) => mfold step s1 l2 w1
    | (Throw e, w1) => (Throw e, w1)
    end.
Proof.
  revert s w. induction l1 as [|a l1 IH]; intros s w; simpl; [done|].
  unfold mbind, M_bind. destruct (step s a w) as [[s'|e] w']; [apply IH|done].
Qed.

(** ** Doubles that hold whole numbers

    On whole numbers below [2^53] the addition and the comparison of
    doubles are those of the whole numbers. *)

Section doubles.
Import JSNumber.

Lemma digits2_size p : digits2_pos p = Pos.size p.
Proof. induction p as [p IH|p IH|]; simpl; by rewrite ?IH. Qed.

Lemma digits2_log2 p : Zpos (digits2_pos p) = Z.log2 (Zpos p) + 1.
Proof.
  rewrite digits2_size. destruct p as [p|p|]; simpl; try lia.
Qed.

Lemma iter_pos_iter {A} (f : A → A) n x : SpecFloat.iter_pos f n x = Pos.iter f x n.
Proof.
  revert x. induction n as [n IH|n IH|]; intros x; simpl.
  - by rewrite !IH, !Pos.iter_swap.
  - by rewrite !IH.
  - done.
Qed.

Lemma iter_xO m n : Zpos (Pos.iter xO m n) = Zpos m * 2 ^ Zpos n.
Proof.
  induction n as [|n IH] using Pos.peano_ind.
  - simpl. lia.
  - rewrite Pos.iter_succ, Pos2Z.inj_xO, IH, Pos2Z.inj_succ, Z.pow_succ_r by lia. lia.
Qed.

Lemma shr_exact m n :
  SpecFloat.iter_pos shr_1 n (Build_shr_record (Zpos (Pos.iter xO m n)) false false)
  = Build_shr_record (Zpos m) false false.
Proof.
  rewrite iter_pos_iter.
  induction n as [|n IH] using Pos.peano_ind.
  - reflexivity.
  - rewrite Pos.iter_succ_r at 1. rewrite Pos.iter_succ. simpl. exact IH.
Qed.


Lemma fexp_normal x : -1021 ≤ x → fexp prec emax x = x - 53.
Proof. unfold fexp, emin, prec, emax. lia. Qed.

Lemma shl_align_le m e e' :
  e' ≤ e → ∃ m', shl_align m e e' = (m', e') ∧ Zpos m' = Zpos m * 2 ^ (e - e').
Proof.
  intros Hle. unfold shl_align. destruct (e' - e) as [|n|n] eqn:Hn.
  - exists m. assert (e' = e) as -> by lia. split; [done|]. rewrite Z.sub_diag. lia.
  - lia.
  - exists (Pos.iter xO m n). split; [done|]. rewrite iter_xO. f_equal. f_equal. lia.
Qed.

Lemma shl_align_ge m e e' : e ≤ e' → shl_align m e e' = (m, e).
Proof. unfold shl_align. intros Hle. destruct (e' - e) eqn:Hn; [done|done|lia]. Qed.

Lemma shr_fexp_exact m m' e t :
  t = Z.log2 (Zpos m) + e - 52 → e ≤ t → -1074 ≤ t →
  Zpos m = Zpos m' * 2 ^ (t - e) →
  shr_fexp prec emax (Zpos m) e loc_Exact = (Build_shr_record (Zpos m') false false, t).
Proof.
  intros Ht Hle Hmin Hm. unfold shr_fexp.
  change (Zdigits2 (Zpos m)) with (Zpos (digits2_pos m)). rewrite digits2_log2.
  rewrite fexp_normal by lia.
  replace (Z.log2 (Zpos m) + 1 + e - 53 - e) with (t - e) by lia.
  unfold shr, shr_record_of_loc.
  destruct (t - e) as [|n|n] eqn:Hn.
  - rewrite Z.pow_0_r, Z.mul_1_r in Hm. injection Hm as ->. f_equal. lia.
  - assert (m = Pos.iter xO m' n) as -> by (apply Pos2Z.inj; rewrite iter_xO; exact Hm).
    rewrite shr_exact. f_equal. lia.
  - lia.
Qed.

Lemma binary_round_aux_exact m m' e t :
  t = Z.log2 (Zpos m) + e - 52 → e ≤ t → -1074 ≤ t ≤ 971 →
  Zpos m = Zpos m' * 2 ^ (t - e) →
  binary_round_aux prec emax false (Zpos m) e loc_Exact = S754_finite false m' t.
Proof.
  intros Ht Hle Hr Hm. unfold binary_round_aux.
  rewrite (shr_fexp_exact m m' e t) by (done || lia).
  cbn [shr_m loc_of_shr_record round_nearest_even].
  assert (Z.log2 (Zpos m') = 52) as Hl.
  { assert (Z.log2 (Zpos m) = t - e + Z.log2 (Zpos m')) as Hlm.
    { rewrite Hm. apply Z.log2_mul_pow2; lia. }
    lia. }
  rewrite (shr_fexp_exact m' m' t t); [|lia|lia|lia|rewrite Z.sub_diag; lia].
  cbn [shr_m]. unfold emax, prec.
  destruct (Z.leb_spec t (1024 - 53)); [done|lia].
Qed.

Lemma binary_round_exact s e v :
  0 < v < 2 ^ 53 → e ≤ 0 → Zpos s = v * 2 ^ (- e) →
  binary_round prec emax false s e = canon v.
Proof.
  intros Hv He Hs.
  assert (0 ≤ Z.log2 v ≤ 52) as HL.
  { split; [apply Z.log2_nonneg|].
    assert (Z.log2 v < 53) by (apply Z.log2_lt_pow2; lia). lia. }
  assert (Z.log2 (Zpos s) = - e + Z.log2 v) as Hls.
  { rewrite Hs. apply Z.log2_mul_pow2; lia. }
  unfold binary_round. rewrite digits2_log2, Hls, fexp_normal by lia.
  replace (- e + Z.log2 v + 1 + e - 53) with (Z.log2 v - 52) by lia.
  unfold canon. set (t := Z.log2 v - 52).
  replace (52 - Z.log2 v) with (- t) by lia.
  assert (0 < v * 2 ^ (- t)) as Hpos.
  { apply Z.mul_pos_pos; [lia|apply Z.pow_pos_nonneg; lia]. }
  destruct (Z.le_gt_cases t e) as [Hte|Hte].
  - destruct (shl_align_le s e t Hte) as (mz & -> & Hmz).
    assert (Zpos mz = v * 2 ^ (- t)) as Hval.
    { rewrite Hmz, Hs, <- Z.mul_assoc, <- Z.pow_add_r by lia. f_equal. f_equal. lia. }
    apply binary_round_aux_exact.
    + rewrite Hval, Z.log2_mul_pow2 by lia. lia.
    + lia.
    + lia.
    + rewrite Z.sub_diag, Z.pow_0_r, Z.mul_1_r, Z2Pos.id by lia. done.
  - rewrite shl_align_ge by lia.
    apply binary_round_aux_exact.
    + lia.
    + lia.
    + lia.
    + rewrite Z2Pos.id by lia. rewrite Hs, <- Z.mul_assoc, <- Z.pow_add_r by lia.
      f_equal. f_equal. lia.
Qed.

Lemma ofZ_canon v : 0 < v < 2 ^ 53 → ofZ v = canon v.
Proof.
  intros Hv. unfold ofZ, binary_normalize. destruct v as [|p|p]; [lia| |lia].
  apply binary_round_exact; [done|lia|]. simpl. lia.
Qed.

Lemma canon_add a b :
  0 < a → 0 < b → a + b < 2 ^ 53 → add (canon a) (canon b) = canon (a + b).
Proof.
  intros Ha Hb Hab. unfold add, canon at 1 2, SFadd.
  assert (∀ v, 0 < v < 2 ^ 53 → 0 ≤ Z.log2 v ≤ 52) as HL.
  { intros v Hv. split; [apply Z.log2_nonneg|].
    assert (Z.log2 v < 53) by (apply Z.log2_lt_pow2; lia). lia. }
  pose proof (HL a ltac:(lia)) as HLa. pose proof (HL b ltac:(lia)) as HLb.
  set (ea := Z.log2 a - 52). set (eb := Z.log2 b - 52).
  set (ez := Z.min ea eb).
  assert (∀ v, 0 < v < 2 ^ 53 → 0 < v * 2 ^ (52 - Z.log2 v)) as Hpos.
  { intros v Hv. apply Z.mul_pos_pos; [lia|apply Z.pow_pos_nonneg; [lia|]].
    specialize (HL v Hv). lia. }
  destruct (shl_align_le (Z.to_pos (a * 2 ^ (52 - Z.log2 a))) ea ez ltac:(lia))
    as (ma & -> & Hma).
  destruct (shl_align_le (Z.to_pos (b * 2 ^ (52 - Z.log2 b))) eb ez ltac:(lia))
    as (mb & -> & Hmb).
  rewrite Z2Pos.id in Hma by (apply Hpos; lia).
  rewrite Z2Pos.id in Hmb by (apply Hpos; lia).
  cbn [fst cond_Zopp]. change (Zpos ma + Zpos mb) with (Zpos (ma + mb)).
  cbn [binary_normalize]. apply binary_round_exact; [lia|lia|].
  rewrite Pos2Z.inj_add, Hma, Hmb, <- !Z.mul_assoc, <- !Z.pow_add_r by lia.
  replace (52 - Z.log2 a + (ea - ez)) with (- ez) by lia.
  replace (52 - Z.log2 b + (eb - ez)) with (- ez) by lia. lia.
Qed.

Lemma ofZ_add a b :
  0 ≤ a → 0 ≤ b → a + b < 2 ^ 53 → add (ofZ a) (ofZ b) = ofZ (a + b).
Proof.
  intros Ha Hb Hab.
  destruct (decide (a = 0)) as [->|Hna].
  { destruct (decide (b = 0)) as [->|Hnb]; [reflexivity|].
    change (ofZ 0) with (S754_zero false).
    rewrite Z.add_0_l, ofZ_canon by lia. reflexivity. }
  destruct (decide (b = 0)) as [->|Hnb].
  { change (ofZ 0) with (S754_zero false). rewrite Z.add_0_r.
    rewrite ofZ_canon by lia. reflexivity. }
  rewrite !ofZ_canon by lia. apply canon_add; lia.
Qed.

Lemma canon_ltb a b :
  0 < a < 2 ^ 53 → 0 < b < 2 ^ 53 → SFltb (canon a) (canon b) = (a <? b).
Proof.
  intros Ha Hb. unfold SFltb, SFcompare, canon.
  assert (∀ v, 0 < v < 2 ^ 53 → 0 ≤ Z.log2 v ≤ 52) as HL.
  { intros v Hv. split; [apply Z.log2_nonneg|].
    assert (Z.log2 v < 53) by (apply Z.log2_lt_pow2; lia). lia. }
  pose proof (HL a Ha) as HLa. pose proof (HL b Hb) as HLb.
  destruct (Z.compare_spec (Z.log2 a - 52) (Z.log2 b - 52)) as [Heq|Hlt|Hgt].
  - assert (Z.log2 a = Z.log2 b) as Hl by lia. rewrite Hl.
    assert (0 < 2 ^ (52 - Z.log2 b)) as Hp by (apply Z.pow_pos_nonneg; lia).
    rewrite Pos.compare_cont_spec, <- Z2Pos.inj_compare by nia.
    destruct (Z.compare_spec (a * 2 ^ (52 - Z.log2 b)) (b * 2 ^ (52 - Z.log2 b)))
      as [Hc|Hc|Hc]; simpl; symmetry.
    + apply Z.ltb_ge. nia.
    + apply Z.ltb_lt. nia.
    + apply Z.ltb_ge. nia.
  - assert (a < b) as Hab by (apply Z.log2_lt_cancel; lia).
    symmetry. by apply Z.ltb_lt.
  - assert (b < a) as Hab by (apply Z.log2_lt_cancel; lia).
    symmetry. apply Z.ltb_ge. lia.
Qed.

Lemma ofZ_ltb a b :
  0 ≤ a < 2 ^ 53 → 0 ≤ b < 2 ^ 53 → SFltb (ofZ a) (ofZ b) = (a <? b).
Proof.
  intros Ha Hb.
  destruct (decide (a = 0)) as [->|Hna]; destruct (decide (b = 0)) as [->|Hnb].
  - reflexivity.
  - rewrite (ofZ_canon b) by lia. change (ofZ 0) with (S754_zero false).
    simpl. symmetry. apply Z.ltb_lt. lia.
  - rewrite (ofZ_canon a) by lia. change (ofZ 0) with (S754_zero false).
    simpl. symmetry. apply Z.ltb_ge. lia.
  - rewrite !ofZ_canon by lia. apply canon_ltb; lia.
Qed.

Lemma whole_ofZ a : 0 ≤ a < 2 ^ 53 → whole (ofZ a) = Some a.
Proof.
  intros Ha. destruct (decide (a = 0)) as [->|Hna]; [reflexivity|].
  rewrite ofZ_canon by lia. unfold canon, whole.
  assert (0 ≤ Z.log2 a ≤ 52) as HL.
  { split; [apply Z.log2_nonneg|].
    assert (Z.log2 a < 53) by (apply Z.log2_lt_pow2; lia). lia. }
  assert (0 < 2 ^ (52 - Z.log2 a)) as Hp by (apply Z.pow_pos_nonneg; lia).
  rewrite Z2Pos.id by nia.
  replace (- (Z.log2 a - 52)) with (52 - Z.log2 a) by lia.
  destruct (Z.leb_spec 0 (Z.log2 a - 52)) as [Hle|Hlt].
  - assert (Z.log2 a = 52) as Hl by lia. rewrite Hl. simpl. f_equal. lia.
  - rewrite Z.mod_mul by lia. simpl. rewrite Z.div_mul by lia. done.
Qed.

Lemma gtb_irrefl x : gtb x x = false.
Proof.
  unfold gtb, SFltb, SFcompare. destruct x as [s|[]| |[] m e]; try done.
  - by rewrite Z.compare_refl, Pos.compare_cont_refl.
  - by rewrite Z.compare_refl, Pos.compare_cont_refl.
Qed.
End doubles.

(** ** The budgeted assembler *)

Section budget.
Context {rt : Runtime}.

Lemma readBody_logged w msgs d : readBody (logged w msgs) d = readBody w d.
Proof. reflexivity. Qed.

Lemma accepted_logged ceiling w msgs detected : ∀ total,
  accepted ceiling (logged w msgs) total detected = accepted ceiling w total detected.
Proof.
  induction detected as [|d rest IH]; intros total; simpl; [done|].
  rewrite readBody_logged, !IH. done.
Qed.

(** One iteration, case by case. *)
Lemma loadStep_eq ceiling st d w :
  loadStep ceiling st d w =
    if JSNumber.gtb (JSNumber.add (totalTokens st) (dr_maxTokens d)) ceiling
    then (Return st, logged w [skipMessage d])
    else match readBody w d with
         | Some body =>
             (Return (mkLoadState (JSNumber.add (totalTokens st) (dr_maxTokens d))
                        (loadedContent st ++ [renderSection d body])
                        (loadedModules st ++ [dr_module d])), w)
         | None => (Return st, logged w [failMessage d])
         end.
Proof.
  unfold loadStep, readBody.
  destruct (JSNumber.gtb _ ceiling); [reflexivity|].
  unfold try_catch, mbind, M_bind, readFileSync, lift, of_option. simpl.
  destruct (fs_read w (dr_path d)) as [content|]; simpl; [|reflexivity].
  destruct (parseFrontmatter content); reflexivity.
Qed.

Lemma loadLoop_accepts ceiling detected : ∀ st w,
  ∃ st' msgs,
    loadLoop ceiling st detected w = (Return st', logged w msgs)
    ∧ loadedModules st'
      = loadedModules st ++ map dr_module (accepted ceiling w (totalTokens st) detected)
    ∧ length (loadedContent st')
      = (length (loadedContent st)
         + length (accepted ceiling w (totalTokens st) detected))%nat
    ∧ totalTokens st'
      = runningTotal (totalTokens st) (accepted ceiling w (totalTokens st) detected).
Proof.
  unfold loadLoop.
  induction detected as [|d rest IH]; intros st w.
  - exists st, []. simpl. rewrite logged_nil, app_nil_r. repeat split; lia.
  - cbn [mfold accepted]. unfold mbind at 1, M_bind at 1. rewrite loadStep_eq.
    destruct (JSNumber.gtb _ ceiling).
    + destruct (IH st (logged w [skipMessage d])) as (st' & msgs & -> & Hm & Hl & Ht).
      rewrite accepted_logged in Hm, Hl, Ht. rewrite logged_logged. eauto 10.
    + destruct (readBody w d) as [body|].
      * destruct (IH (mkLoadState (JSNumber.add (totalTokens st) (dr_maxTokens d))
                        (loadedContent st ++ [renderSection d body])
                        (loadedModules st ++ [dr_module d])) w)
          as (st' & msgs & -> & Hm & Hl & Ht).
        simpl in Hm, Hl, Ht. exists st', msgs. split; [done|].
        rewrite Hm, Hl, Ht, length_app. simpl.
        rewrite <- app_assoc. repeat split; lia.
      * destruct (IH st (logged w [failMessage d])) as (st' & msgs & -> & Hm & Hl & Ht).
        rewrite accepted_logged in Hm, Hl, Ht. rewrite logged_logged. eauto 10.
Qed.

(** On whole counts the test and the sum of the loop are exact. *)
Lemma budget_test ceiling limit d total :
  wholeCount ceiling limit → wholeTokens d → 0 ≤ total ≤ limit →
  0 ≤ tokens d
  ∧ JSNumber.add (JSNumber.ofZ total) (dr_maxTokens d) = JSNumber.ofZ (total + tokens d)
  ∧ JSNumber.gtb (JSNumber.add (JSNumber.ofZ total) (dr_maxTokens d)) ceiling
    = (limit <? total + tokens d).
Proof.
  intros [Hlimit ->] (n & Hn & Hd) Htotal.
  assert (2 ^ 53 = 2 ^ 52 + 2 ^ 52) as Hpow by reflexivity.
  assert (tokens d = n) as ->.
  { unfold tokens. rewrite Hd, whole_ofZ by lia. done. }
  rewrite Hd, ofZ_add by lia. split; [lia|]. split; [done|].
  unfold JSNumber.gtb. apply ofZ_ltb; lia.
Qed.

Lemma accepted_within_budget ceiling limit w detected :
  wholeCount ceiling limit → ∀ total,
  Forall wholeTokens detected → 0 ≤ total ≤ limit →
  0 ≤ sumTokens (accepted ceiling w (JSNumber.ofZ total) detected)
  ∧ total + sumTokens (accepted ceiling w (JSNumber.ofZ total) detected) ≤ limit
  ∧ runningTotal (JSNumber.ofZ total) (accepted ceiling w (JSNumber.ofZ total) detected)
    = JSNumber.ofZ (total + sumTokens (accepted ceiling w (JSNumber.ofZ total) detected)).
Proof.
  intros Hceiling.
  induction detected as [|d rest IH]; intros total Hall Htotal; simpl.
  - rewrite Z.add_0_r. repeat split; lia.
  - apply Forall_cons in Hall as [Hd Hall].
    destruct (budget_test ceiling limit d total Hceiling Hd Htotal) as (Hpos & Hadd & Htest).
    rewrite Htest, Hadd.
    destruct (Z.ltb_spec limit (total + tokens d)) as [Hover|Hfits]; [by apply IH|].
    destruct (readBody w d); [|by apply IH].
    destruct (IH (total + tokens d) Hall ltac:(lia)) as (Hsum & Hle & Hrun).
    cbn [sumTokens foldr runningTotal foldl].
    fold (sumTokens (accepted ceiling w (JSNumber.ofZ (total + tokens d)) rest)).
    rewrite Hadd.
    fold (runningTotal (JSNumber.ofZ (total + tokens d))
            (accepted ceiling w (JSNumber.ofZ (total + tokens d)) rest)).
    rewrite Hrun. split; [lia|]. split; [lia|]. f_equal. lia.
Qed.

Lemma accepted_sublist ceiling w detected : ∀ total,
  accepted ceiling w total detected `sublist_of` detected.
Proof.
  induction detected as [|d rest IH]; intros total; simpl; [done|].
  destruct (JSNumber.gtb _ ceiling); [by apply sublist_cons|].
  destruct (readBody w d); [by apply sublist_skip|by apply sublist_cons].
Qed.
End budget.

Example scenario4_accepted :
  accepted (rt:=sampleRuntime) (JSNumber.ofZ 3000) sampleWorld (JSNumber.ofZ 0) scenario4
  = [result "a" 90 2000; result "c" 70 500].
Proof. vm_compute. reflexivity. Qed.

(** C3, as stated, fails: the counter of the assembler is a double. With
    the ceiling of the code, 8000, it accepts three results that declare
    -2^54, 1 and 2^54 + 8000 tokens, since adding 1 to -2^54 changes
    nothing; the sum of what the accepted entries declare is 8001. *)
Lemma loadReferences_overshoot :
  ∃ st w',
    loadLoop (rt:=sampleRuntime) MAX_TOTAL_TOKENS initialLoadState overshoot sampleWorld
    = (Return st, w')
    ∧ loadedModules st = ["a"; "b"; "c"]
    ∧ accepted (rt:=sampleRuntime) MAX_TOTAL_TOKENS sampleWorld (JSNumber.ofZ 0) overshoot
      = overshoot
    ∧ map (λ d, JSNumber.whole (dr_maxTokens d)) overshoot
      = [Some (- 2 ^ 54); Some 1; Some (2 ^ 54 + 8000)]
    ∧ JSNumber.whole MAX_TOTAL_TOKENS = Some 8000
    ∧ sumTokens overshoot = 8001.
Proof. eexists _, _. split; [vm_compute; reflexivity|]. repeat split. Qed.

(** Nor does the bound hold for a ceiling below zero, under which the
    empty load already lies above the ceiling. *)
Example loadReferences_negative_ceiling :
  accepted (rt:=sampleRuntime) (JSNumber.ofZ (-5)) sampleWorld (JSNumber.ofZ 0) [] = []
  ∧ JSNumber.whole (JSNumber.ofZ (-5)) = Some (-5)
  ∧ -5 < sumTokens [].
Proof. repeat split. Qed.

Section budget_claims.
Context {rt : Runtime}.

(** C3 (amended): for a ceiling and token counts that are whole numbers
    from 0 up to, not including, 2^52, the assembler's loop ends, the
    entries it loads are the accepted ones, its counter holds the sum of
    their [maxTokens], and that sum does not exceed the ceiling. An entry
    whose [maxTokens] would take the sum of the entries accepted before it
    over the ceiling is skipped with the counter and the loaded entries
    unchanged, and the loop goes on with the entries after it. *)
Theorem loadReferences_budget (ceiling : number) (limit : Z) (w : World)
    (detected : list DetectionResult) :
  wholeCount ceiling limit →
  Forall wholeTokens detected →
  ∃ st' w',
    loadLoop ceiling initialLoadState detected w = (Return st', w')
    ∧ loadReferencesWith ceiling detected w = (Return (renderLoaded st'), w')
    ∧ accepted ceiling w (JSNumber.ofZ 0) detected `sublist_of` detected
    ∧ loadedModules st' = map dr_module (accepted ceiling w (JSNumber.ofZ 0) detected)
    ∧ length (loadedContent st') = length (accepted ceiling w (JSNumber.ofZ 0) detected)
    ∧ totalTokens st'
      = JSNumber.ofZ (sumTokens (accepted ceiling w (JSNumber.ofZ 0) detected))
    ∧ sumTokens (accepted ceiling w (JSNumber.ofZ 0) detected) ≤ limit
    ∧ ∀ pre d post st1 w1,
        detected = pre ++ d :: post →
        loadLoop ceiling initialLoadState pre w = (Return st1, w1) →
        limit < sumTokens (accepted ceiling w (JSNumber.ofZ 0) pre) + tokens d →
        loadLoop ceiling initialLoadState detected w
        = loadLoop ceiling st1 post (logged w1 [skipMessage d]).
Proof.
  intros Hceiling Hall.
  assert (0 ≤ 0 ≤ limit) as Hzero by (destruct Hceiling; lia).
  destruct (loadLoop_accepts ceiling detected initialLoadState w)
    as (st' & msgs & Hrun & Hm & Hl & Ht).
  simpl in Hm, Hl, Ht.
  destruct (accepted_within_budget ceiling limit w detected Hceiling 0 Hall Hzero)
    as (_ & Hle & Hexact).
  exists st', (logged w msgs). split; [done|].
  split. { unfold loadReferencesWith, mbind, M_bind. by rewrite Hrun. }
  split; [apply accepted_sublist|].
  split; [done|]. split; [done|]. split; [by rewrite Ht, Hexact|].
  split; [lia|].
  intros pre d post st1 w1 -> Hpre Hover.
  apply Forall_app in Hall as [Hallpre Halld]. apply Forall_cons in Halld as [Hd _].
  destruct (loadLoop_accepts ceiling pre initialLoadState w)
    as (st1' & msgs1 & Hrun1 & _ & _ & Ht1).
  rewrite Hpre in Hrun1. injection Hrun1 as <- _. simpl in Ht1.
  destruct (accepted_within_budget ceiling limit w pre Hceiling 0 Hallpre Hzero)
    as (Hsum1 & Hle1 & Hexact1).
  rewrite Hexact1, Z.add_0_l in Ht1.
  assert (0 ≤ sumTokens (accepted ceiling w (JSNumber.ofZ 0) pre) ≤ limit) as Hbefore
    by lia.
  destruct (budget_test ceiling limit d _ Hceiling Hd Hbefore) as (_ & _ & Htest).
  unfold loadLoop in *. rewrite mfold_app, Hpre. cbn [mfold].
  unfold mbind at 1, M_bind at 1. rewrite loadStep_eq, Ht1, Htest.
  by rewrite (proj2 (Z.ltb_lt _ _) Hover).
Qed.

(** C10: the bound is inclusive. An entry that brings the running total to
    exactly the ceiling, and whose document can be read and parsed, is
    accepted: its section and its name are appended, the counter becomes
    the ceiling, and nothing is logged. *)
Theorem loadStep_accepts_at_ceiling (ceiling : number) (st : LoadState)
    (d : DetectionResult) (w : World) (content : string) (parsed : Parsed) :
  JSNumber.add (totalTokens st) (dr_maxTokens d) = ceiling →
  fs_read w (dr_path d) = Some content →
  parseFrontmatter content = Return parsed →
  loadStep ceiling st d w
  = (Return (mkLoadState ceiling
               (loadedContent st ++ [renderSection d (p_body parsed)])
               (loadedModules st ++ [dr_module d])), w).
Proof.
  intros Htotal Hread Hparse. rewrite loadStep_eq. unfold readBody.
  by rewrite Hread, Hparse, Htotal, gtb_irrefl.
Qed.
End budget_claims.

Lemma loadReferences_budget_witness :
  ∃ st' w',
    loadLoop (rt:=sampleRuntime) (JSNumber.ofZ 3000) initialLoadState scenario4 sampleWorld
    = (Return st', w')
    ∧ loadReferencesWith (rt:=sampleRuntime) (JSNumber.ofZ 3000) scenario4 sampleWorld
      = (Return (renderLoaded st'), w')
    ∧ accepted (rt:=sampleRuntime) (JSNumber.ofZ 3000) sampleWorld (JSNumber.ofZ 0) scenario4
      `sublist_of` scenario4
    ∧ loadedModules st'
      = map dr_module
          (accepted (rt:=sampleRuntime) (JSNumber.ofZ 3000) sampleWorld (JSNumber.ofZ 0)
             scenario4)
    ∧ length (loadedContent st')
      = length (accepted (rt:=sampleRuntime) (JSNumber.ofZ 3000) sampleWorld
                  (JSNumber.ofZ 0) scenario4)
    ∧ totalTokens st'
      = JSNumber.ofZ
          (sumTokens (accepted (rt:=sampleRuntime) (JSNumber.ofZ 3000) sampleWorld
                        (JSNumber.ofZ 0) scenario4))
    ∧ sumTokens (accepted (rt:=sampleRuntime) (JSNumber.ofZ 3000) sampleWorld
                   (JSNumber.ofZ 0) scenario4) ≤ 3000
    ∧ ∀ pre d post st1 w1,
        scenario4 = pre ++ d :: post →
        loadLoop (rt:=sampleRuntime) (JSNumber.ofZ 3000) initialLoadState pre sampleWorld
        = (Return st1, w1) →
        3000 < sumTokens (accepted (rt:=sampleRuntime) (JSNumber.ofZ 3000) sampleWorld
                            (JSNumber.ofZ 0) pre) + tokens d →
        loadLoop (rt:=sampleRuntime) (JSNumber.ofZ 3000) initialLoadState scenario4 sampleWorld
        = loadLoop (rt:=sampleRuntime) (JSNumber.ofZ 3000) st1 post
            (logged w1 [skipMessage d]).
Proof.
  apply (loadReferences_budget (rt:=sampleRuntime) (JSNumber.ofZ 3000) 3000 sampleWorld
           scenario4).
  - split; [split; [discriminate|reflexivity]|reflexivity].
  - repeat constructor.
    + exists 2000. split; [split; [discriminate|reflexivity]|reflexivity].
    + exists 2000. split; [split; [discriminate|reflexivity]|reflexivity].
    + exists 500. split; [split; [discriminate|reflexivity]|reflexivity].
Defined.

Lemma loadStep_accepts_at_ceiling_witness :
  loadStep (rt:=sampleRuntime) (JSNumber.ofZ 3000) (mkLoadState (JSNumber.ofZ 1000) [] [])
    (result "a" 90 2000) sampleWorld
  = (Return (mkLoadState (JSNumber.ofZ 3000)
               ([] ++ [renderSection (result "a" 90 2000) "Use the auth service."])
               ([] ++ ["a"])), sampleWorld).
Proof.
  apply (loadStep_accepts_at_ceiling (rt:=sampleRuntime) (JSNumber.ofZ 3000)
           (mkLoadState (JSNumber.ofZ 1000) [] [])
           (result "a" 90 2000) sampleWorld sampleDoc parsedSampleDoc).
  - vm_compute. reflexivity.
  - reflexivity.
  - vm_compute. reflexivity.
Defined.

(** ** The file-pattern check *)

Lemma collectMatches_take files : ∀ matches,
  (length matches < 3)%nat →
  collectMatches files matches = take 3 (matches ++ List.filter kept files).
Proof.
  induction files as [|file rest IH]; intros matches Hlen.
  - simpl. rewrite app_nil_r, take_ge; [done|lia].
  - cbn [collectMatches List.filter]. unfold kept at 1.
    destruct (JSString.includes "node_modules" file || JSString.includes ".git" file);
      cbn [negb]; [by apply IH|].
    replace (matches ++ file :: List.filter kept rest)
      with ((matches ++ [file]) ++ List.filter kept rest)
      by (by rewrite <- app_assoc).
    destruct (3 <=? length (matches ++ [file]))%nat eqn:Hfull.
    + apply Nat.leb_le in Hfull. rewrite take_app_length'; [done|].
      rewrite length_app in *. simpl in *. lia.
    + apply Nat.leb_gt in Hfull. by rewrite IH.
Qed.

Lemma checkFilePatternsFrom_nil patterns cwd w :
  checkFilePatternsFrom [] patterns cwd w = (Return (firstYield w cwd patterns), w).
Proof.
  induction patterns as [|pattern rest IH]; [reflexivity|].
  cbn [checkFilePatternsFrom firstYield].
  unfold mbind at 1, M_bind at 1, try_catch, globScan, yield.
  unfold mbind at 1, M_bind at 1.
  destruct (glob_scan w pattern cwd) as [files|]; simpl; [|apply IH].
  rewrite collectMatches_take by (simpl; lia). simpl.
  destruct (take 3 (List.filter kept files)) as [|f found]; simpl; [apply IH|done].
Qed.

Lemma yield_kept w cwd pattern file :
  file ∈ yield w cwd pattern → kept file = true.
Proof.
  unfold yield. destruct (glob_scan w pattern cwd) as [files|]; [|by intros ?%elem_of_nil].
  intros (i & Hi & _)%elem_of_take.
  apply list_elem_of_lookup_2, list_elem_of_In, filter_In in Hi. tauto.
Qed.

Lemma yield_length w cwd pattern : (length (yield w cwd pattern) ≤ 3)%nat.
Proof.
  unfold yield. destruct (glob_scan w pattern cwd); [apply firstn_le_length|simpl; lia].
Qed.

Lemma firstYield_is_yield w cwd patterns :
  firstYield w cwd patterns = [] ∨ ∃ pattern, pattern ∈ patterns
    ∧ firstYield w cwd patterns = yield w cwd pattern.
Proof.
  induction patterns as [|pattern rest IH]; [by left|].
  simpl. destruct (yield w cwd pattern) as [|f found] eqn:Hy.
  - destruct IH as [IH|(q & Hq & IH)]; [by left|].
    right. exists q. split; [by apply list_elem_of_further|done].
  - right. exists pattern. split; [apply list_elem_of_here|done].
Qed.

Lemma firstYield_stops w cwd pre pattern post :
  (∀ q, q ∈ pre → yield w cwd q = []) →
  yield w cwd pattern ≠ [] →
  firstYield w cwd (pre ++ pattern :: post) = yield w cwd pattern.
Proof.
  intros Hpre Hy. induction pre as [|q pre IH]; simpl.
  - by destruct (yield w cwd pattern).
  - rewrite (Hpre q) by apply list_elem_of_here.
    apply IH. intros q' Hq'. apply Hpre. by apply list_elem_of_further.
Qed.

Lemma firstYield_none w cwd patterns :
  (∀ q, q ∈ patterns → yield w cwd q = []) → firstYield w cwd patterns = [].
Proof.
  induction patterns as [|q rest IH]; intros Hall; simpl; [done|].
  rewrite (Hall q) by apply list_elem_of_here.
  apply IH. intros q' Hq'. apply Hall. by apply list_elem_of_further.
Qed.

(** A path with a component named [dir] mentions [dir]. *)
Lemma split_head_prefix c s :
  ∃ h t, JSString.split c s = h :: t ∧ String.prefix h s = true.
Proof.
  induction s as [|d s (h & t & Hs & Hp)]; simpl.
  - by exists EmptyString, [].
  - destruct (Ascii.eqb c d).
    + by exists EmptyString, (JSString.split c s).
    + rewrite Hs. exists (String d h), t. split; [done|].
      simpl. by destruct (ascii_dec d d).
Qed.

Lemma includes_component c dir s :
  dir ∈ JSString.split c s → JSString.includes dir s = true.
Proof.
  induction s as [|d s IH]; cbn [JSString.split JSString.includes].
  - intros ->%list_elem_of_singleton. reflexivity.
  - destruct (split_head_prefix c s) as (h & t & Hs & Hp).
    destruct (Ascii.eqb c d).
    + intros [->|Hin]%elem_of_cons; [reflexivity|].
      rewrite (IH Hin). apply orb_true_r.
    + rewrite Hs. intros [->|Hin]%elem_of_cons.
      * simpl. destruct (ascii_dec d d); [|done]. by rewrite Hp.
      * rewrite IH; [apply orb_true_r|]. rewrite Hs. by apply list_elem_of_further.
Qed.

(** C7, as stated, fails: the check leaves out the paths that mention
    [node_modules] or [.git] and no others. Paths under [dist], [.svn]
    and [build] are returned as evidence. *)
Lemma checkFilePatterns_returns_build_output :
  checkFilePatterns ["**/*.js"] "proj" buildWorld
  = (Return ["dist/bundle.js"; ".svn/pristine/a.js"; "build/out.js"], buildWorld)
  ∧ "dist" ∈ JSString.split "/" "dist/bundle.js"
  ∧ ".svn" ∈ JSString.split "/" ".svn/pristine/a.js"
  ∧ "build" ∈ JSString.split "/" "build/out.js".
Proof.
  split; [vm_compute; reflexivity|].
  repeat split; vm_compute; apply list_elem_of_here.
Qed.

(** C7 (amended): the file-pattern check only observes the world and
    always returns; the directories it excludes are the two it names: no
    returned path mentions [node_modules] or [.git], so none lies in a
    directory of either name; at most three paths are returned; and they
    are what the first pattern with any kept match yields, whatever
    patterns follow it (none of those is scanned). *)
Theorem checkFilePatterns_evidence (patterns : list string) (cwd : string) (w : World) :
  ∃ found,
    checkFilePatterns patterns cwd w = (Return found, w)
    ∧ (∀ file, file ∈ found →
         JSString.includes "node_modules" file = false
         ∧ JSString.includes ".git" file = false
         ∧ ("node_modules" ∉ JSString.split "/" file)
         ∧ (".git" ∉ JSString.split "/" file))
    ∧ (length found ≤ 3)%nat
    ∧ (∀ pre pattern post,
         patterns = pre ++ pattern :: post →
         (∀ q, q ∈ pre → yield w cwd q = []) →
         yield w cwd pattern ≠ [] →
         found = yield w cwd pattern
         ∧ checkFilePatterns (pre ++ [pattern]) cwd w = (Return found, w))
    ∧ ((∀ q, q ∈ patterns → yield w cwd q = []) → found = []).
Proof.
  exists (firstYield w cwd patterns). unfold checkFilePatterns.
  split; [apply checkFilePatternsFrom_nil|].
  split.
  { intros file Hin.
    assert (kept file = true) as Hk.
    { destruct (firstYield_is_yield w cwd patterns) as [Hnil|(q & _ & Hq)].
      - rewrite Hnil in Hin. by apply elem_of_nil in Hin.
      - rewrite Hq in Hin. by eapply yield_kept. }
    unfold kept in Hk. apply negb_true_iff, orb_false_iff in Hk as [Hn Hg].
    repeat split; [done|done| |];
      intros Hc%includes_component; congruence. }
  split.
  { destruct (firstYield_is_yield w cwd patterns) as [->|(q & _ & ->)];
      [simpl; lia|apply yield_length]. }
  split.
  { intros pre pattern post -> Hpre Hy. rewrite checkFilePatternsFrom_nil.
    rewrite (firstYield_stops w cwd pre pattern post Hpre Hy).
    by rewrite (firstYield_stops w cwd pre pattern [] Hpre Hy). }
  apply firstYield_none.
Qed.

(** ** Detection *)

Lemma observes_ret {A} (a : A) : observes (mret a).
Proof. intros w. by exists a. Qed.

Lemma observes_bind {A B} (m : M A) (k : A → M B) :
  observes m → (∀ a, observes (k a)) → observes (m ≫= k).
Proof.
  intros Hm Hk w. unfold mbind, M_bind. destruct (Hm w) as [a ->]. apply Hk.
Qed.

Lemma observes_try_catch {A} (body : M A) (handler : string → M A) :
  frames body → (∀ e, observes (handler e)) → observes (try_catch body handler).
Proof.
  intros Hb Hh w. unfold try_catch. specialize (Hb w).
  destruct (body w) as [[a|e] w']; simpl in Hb; subst w'; [by exists a|apply Hh].
Qed.

Lemma observes_existsSync p : observes (existsSync p).
Proof. intros w. by eexists. Qed.

Lemma observes_mfold {S A} (step : S → A → M S) l :
  (∀ s a, observes (step s a)) → ∀ s, observes (mfold step s l).
Proof.
  intros Hstep. induction l as [|a l IH]; intros s; simpl.
  - apply observes_ret.
  - apply observes_bind; [apply Hstep|apply IH].
Qed.

Ltac effects :=
  repeat first
    [ progress intros
    | apply observes_ret | apply observes_existsSync
    | apply observes_bind | apply observes_try_catch
    | apply frames_ret | apply frames_lift | apply frames_existsSync
    | apply frames_readFileSync | apply frames_globScan | apply frames_spawn
    | apply frames_bind | apply frames_try_catch
    | match goal with
      | |- context [if ?b then _ else _] => destruct b
      | |- context [match ?x with _ => _ end] => destruct x
      end ].

Section detection.
Context {rt : Runtime}.

Lemma observes_checkFilePatterns patterns cwd : observes (checkFilePatterns patterns cwd).
Proof. intros w. eexists. apply checkFilePatternsFrom_nil. Qed.

Lemma observes_checkImports patterns cwd : observes (checkImports patterns cwd).
Proof. unfold checkImports. effects. Qed.

Lemma observes_checkDependencies packages cwd : observes (checkDependencies packages cwd).
Proof. unfold checkDependencies. effects. Qed.

Lemma observes_matchTriggers ref cwd prompt : observes (matchTriggers ref cwd prompt).
Proof.
  unfold matchTriggers.
  repeat first
    [ apply observes_ret | apply observes_checkFilePatterns
    | apply observes_checkImports | apply observes_checkDependencies
    | apply observes_bind | progress intros
    | match goal with |- context [if ?b then _ else _] => destruct b end ].
Qed.

Lemma observes_detectEntry cwd prompt results kv :
  observes (detectEntry cwd prompt results kv).
Proof.
  unfold detectEntry. apply observes_bind; [apply observes_matchTriggers|].
  intros ev. destruct (0 <? length ev)%nat; apply observes_ret.
Qed.
End detection.

(** *** Sorting by priority *)

Lemma sortInsert_perm {A} (compare : A → A → Z) x l :
  sortInsert compare x l ≡ₚ x :: l.
Proof.
  induction l as [|y l IH]; simpl; [done|].
  destruct (compare x y <=? 0); [done|].
  rewrite IH. apply Permutation_swap.
Qed.

Lemma Array_sort_perm {A} (compare : A → A → Z) l : Array_sort compare l ≡ₚ l.
Proof.
  induction l as [|x l IH]; simpl; [done|].
  by rewrite sortInsert_perm, IH.
Qed.

Lemma sortInsert_sorted x l :
  StronglySorted descending l → StronglySorted descending (sortInsert byPriority x l).
Proof.
  induction 1 as [|y l Hl IH Hy]; simpl.
  - by repeat constructor.
  - unfold byPriority at 1. destruct (dr_priority y - dr_priority x <=? 0) eqn:Hc.
    + apply Z.leb_le in Hc. constructor; [by constructor|].
      constructor; [unfold descending; lia|].
      eapply Forall_impl; [exact Hy|]. unfold descending. intros; lia.
    + apply Z.leb_gt in Hc. constructor; [done|].
      rewrite sortInsert_perm. constructor; [unfold descending; lia|done].
Qed.

Lemma Array_sort_sorted l : StronglySorted descending (Array_sort byPriority l).
Proof.
  induction l as [|x l IH]; simpl; [constructor|by apply sortInsert_sorted].
Qed.

Lemma sortInsert_filter p x l :
  filter (λ r, dr_priority r = p) (sortInsert byPriority x l)
  = filter (λ r, dr_priority r = p) (x :: l).
Proof.
  induction l as [|y l IH]; simpl; [done|].
  unfold byPriority at 1. destruct (dr_priority y - dr_priority x <=? 0) eqn:Hc; [done|].
  apply Z.leb_gt in Hc. rewrite filter_cons, IH, !filter_cons.
  repeat case_decide; try done; lia.
Qed.

Lemma Array_sort_stable p l :
  filter (λ r, dr_priority r = p) (Array_sort byPriority l)
  = filter (λ r, dr_priority r = p) l.
Proof.
  induction l as [|x l IH]; simpl; [done|].
  by rewrite sortInsert_filter, !filter_cons, IH.
Qed.

Section detection_claims.
Context {rt : Runtime}.

Lemma observes_value {A} (m : M A) (d : A) w :
  observes m → m w = (Return (valueOf d (m w)), w).
Proof. intros Hm. destruct (Hm w) as [a Ha]. by rewrite Ha. Qed.

Lemma matchTriggers_eq ref cwd prompt w :
  matchTriggers ref cwd prompt w = (Return (evidence w cwd prompt ref), w).
Proof.
  unfold matchTriggers, evidence, filesEvidence, importsEvidence,
    dependenciesEvidence, keywordsEvidence.
  unfold mbind at 1, M_bind at 1.
  assert (∀ (b : bool) (m : M (list string)) (l : list string),
            m w = (Return l, w) →
            (if b then m else mret []) w = (Return (if b then l else []), w)) as Hif.
  { intros [] m l Hm; [exact Hm|reflexivity]. }
  rewrite (Hif (has_length (filePatterns (triggers ref))) _
             (let fileMatches :=
                valueOf [] (checkFilePatterns (or_empty (filePatterns (triggers ref))) cwd w) in
              if (0 <? length fileMatches)%nat
              then ["files: " +:+ JSString.join ", " (take 2 fileMatches)] else [])).
  2:{ unfold mbind, M_bind.
      rewrite (observes_value _ [] w (observes_checkFilePatterns _ _)). cbv zeta.
      by destruct (0 <? length _)%nat. }
  unfold mbind at 1, M_bind at 1.
  rewrite (Hif (has_length (imports (triggers ref))) _
             (let importMatch :=
                valueOf None (checkImports (or_empty (imports (triggers ref))) cwd w) in
              if truthy_match importMatch
              then ["import: " +:+ default EmptyString importMatch] else [])).
  2:{ unfold mbind, M_bind.
      rewrite (observes_value _ None w (observes_checkImports _ _)). cbv zeta.
      by destruct (truthy_match _). }
  unfold mbind at 1, M_bind at 1.
  rewrite (Hif (has_length (dependencies (triggers ref))) _
             (let depMatch :=
                valueOf None (checkDependencies (or_empty (dependencies (triggers ref))) cwd w) in
              if truthy_match depMatch
              then ["dependency: " +:+ default EmptyString depMatch] else [])).
  2:{ unfold mbind, M_bind.
      rewrite (observes_value _ None w (observes_checkDependencies _ _)). cbv zeta.
      by destruct (truthy_match _). }
  reflexivity.
Qed.

Lemma detectEntry_eq cwd prompt results kv w :
  detectEntry cwd prompt results kv w
  = (Return (results ++ option_list (candidate w cwd prompt kv)), w).
Proof.
  unfold detectEntry, mbind, M_bind, candidate. rewrite matchTriggers_eq.
  destruct (0 <? length (evidence w cwd prompt kv.2))%nat; simpl; [done|].
  by rewrite app_nil_r.
Qed.

Lemma detect_loop cwd prompt l : ∀ results w,
  mfold (detectEntry cwd prompt) results l w
  = (Return (results ++ omap (candidate w cwd prompt) l), w).
Proof.
  induction l as [|kv l IH]; intros results w.
  - simpl. by rewrite app_nil_r.
  - cbn [mfold]. unfold mbind at 1, M_bind at 1.
    rewrite detectEntry_eq, IH, <- app_assoc. f_equal. f_equal. f_equal.
    simpl. by destruct (candidate w cwd prompt kv).
Qed.

Lemma detectModules_eq index cwd prompt w :
  detectModules index cwd prompt w
  = (Return (Array_sort byPriority (candidates w index cwd prompt)), w).
Proof.
  unfold detectModules, mbind, M_bind. by rewrite detect_loop.
Qed.

Lemma evidence_some_kind w cwd prompt ref :
  evidence w cwd prompt ref ≠ []
  ↔ filesEvidence w cwd ref ≠ [] ∨ importsEvidence w cwd ref ≠ []
    ∨ dependenciesEvidence w cwd ref ≠ [] ∨ keywordsEvidence prompt ref ≠ [].
Proof.
  unfold evidence.
  destruct (filesEvidence w cwd ref); [|split; [by left|done]].
  destruct (importsEvidence w cwd ref); [|split; [by right; left|done]].
  destruct (dependenciesEvidence w cwd ref); [|split; [by right; right; left|done]].
  destruct (keywordsEvidence prompt ref); [|split; [by right; right; right|done]].
  split; [done|]. by intros [?|[?|[?|?]]].
Qed.

(** C4: detection returns, for exactly the catalog entries for which at
    least one trigger kind produced evidence, one result each; the
    priorities along the returned list never increase; and results of
    equal priority stand in the order in which their entries were
    encountered. *)
Theorem detectModules_ranked (index : ReferenceIndex) (cwd : string)
    (prompt : option string) (w : World) :
  ∃ results,
    detectModules index cwd prompt w = (Return results, w)
    ∧ (∀ r, r ∈ results ↔
         ∃ k ref, index !! k = Some ref
           ∧ (filesEvidence w cwd ref ≠ [] ∨ importsEvidence w cwd ref ≠ []
              ∨ dependenciesEvidence w cwd ref ≠ [] ∨ keywordsEvidence prompt ref ≠ [])
           ∧ r = mkDetectionResult k (path ref) (priority ref) (maxTokens ref)
                   (evidence w cwd prompt ref))
    ∧ results ≡ₚ candidates w index cwd prompt
    ∧ StronglySorted (λ a b, dr_priority b ≤ dr_priority a) results
    ∧ ∀ p, filter (λ r, dr_priority r = p) results
           = filter (λ r, dr_priority r = p) (candidates w index cwd prompt).
Proof.
  eexists. split; [apply detectModules_eq|].
  split.
  { intros r. rewrite Array_sort_perm. unfold candidates. rewrite list_elem_of_omap.
    setoid_rewrite <- evidence_some_kind.
    split.
    - intros ([k ref] & Hin%elem_of_map_to_list & Hc). exists k, ref.
      unfold candidate in Hc. simpl in Hc.
      destruct (evidence w cwd prompt ref) as [|e ev] eqn:Hev; simpl in Hc; [done|].
      injection Hc as <-. done.
    - intros (k & ref & Hk & Hev & ->). exists (k, ref).
      split; [by apply elem_of_map_to_list|].
      unfold candidate. simpl. by destruct (evidence w cwd prompt ref). }
  split; [apply Array_sort_perm|].
  split; [apply Array_sort_sorted|].
  intros p. apply Array_sort_stable.
Qed.

(** C9: detection run twice in a row, on the same catalog, directory and
    prompt, returns the same ordered list both times, and the world after
    the two runs is the world before them. *)
Theorem detectModules_idempotent (index : ReferenceIndex) (cwd : string)
    (prompt : option string) (w : World) :
  let first := detectModules index cwd prompt w in
  let second := detectModules index cwd prompt first.2 in
  second.1 = first.1 ∧ second.2 = w ∧ ∃ results, first.1 = Return results.
Proof.
  cbv zeta. rewrite detectModules_eq. cbn [fst snd]. rewrite detectModules_eq.
  cbn [fst snd]. eauto.
Qed.
End detection_claims.

(** ** Catalog loading *)

Section loading_claims.
Context {rt : Runtime}.

Lemma returns_scanFile dir index file : returns (scanFile dir index file).
Proof.
  unfold scanFile. apply returns_try_catch. intros e.
  apply returns_bind; [apply returns_console_error|intros; apply returns_ret].
Qed.

Lemma returns_run {A} (m : M A) w : returns m → ∃ a w', m w = (Return a, w').
Proof. intros Hm. destruct (Hm w) as [a Ha]. destruct (m w) as [o w']. simpl in Ha. subst o. eauto. Qed.

Lemma scanReferencesDirectory_returns dir w listing :
  fs_readdir w dir = Some listing →
  ∃ index w', scanReferencesDirectory dir w = (Return index, w').
Proof.
  intros Hls. unfold scanReferencesDirectory, mbind, M_bind, readdirSync.
  rewrite Hls. simpl. apply returns_run, returns_mfold. intros. apply returns_scanFile.
Qed.

Lemma loadReferenceIndex_missing dir w :
  fs_exists w (path_join dir "references") = false →
  loadReferenceIndex dir w = (Return None, w).
Proof.
  intros Hno. unfold loadReferenceIndex, mbind, M_bind, existsSync. by rewrite Hno.
Qed.

Lemma loadReferenceIndex_usable dir w parsed :
  fs_exists w (path_join dir "references") = true →
  usableIndex w (path_join (path_join dir "references") "index.json") parsed →
  loadReferenceIndex dir w = (Return parsed, w).
Proof.
  intros Hdir (Hidx & content & Hread & Hparse).
  unfold loadReferenceIndex, mbind, M_bind, existsSync, try_catch, readFileSync, lift.
  rewrite Hdir. simpl. rewrite Hidx. simpl. rewrite Hread. simpl. rewrite Hparse. done.
Qed.

Lemma loadReferenceIndex_unusable dir w :
  fs_exists w (path_join dir "references") = true →
  unusableIndex w (path_join (path_join dir "references") "index.json") →
  loadReferenceIndex dir w
  = (index ← scanReferencesDirectory (path_join dir "references"); mret (Some index))
      (logged w [parseFailure (path_join (path_join dir "references") "index.json")]).
Proof.
  intros Hdir (Hidx & Hbad).
  unfold loadReferenceIndex, mbind, M_bind, existsSync, try_catch, readFileSync, lift.
  rewrite Hdir. simpl. rewrite Hidx. simpl.
  destruct Hbad as [Hread|(content & Hread & Hparse)]; rewrite Hread; simpl;
    [|rewrite Hparse]; done.
Qed.

Lemma loadReferenceIndex_no_index dir w :
  fs_exists w (path_join dir "references") = true →
  fs_exists w (path_join (path_join dir "references") "index.json") = false →
  loadReferenceIndex dir w
  = (index ← scanReferencesDirectory (path_join dir "references"); mret (Some index)) w.
Proof.
  intros Hdir Hidx.
  unfold loadReferenceIndex, mbind, M_bind, existsSync. rewrite Hdir. simpl.
  rewrite Hidx. done.
Qed.

Lemma scan_not_null dir w w' :
  (index ← scanReferencesDirectory dir; mret (Some index)) w ≠ (Return None, w').
Proof.
  unfold mbind, M_bind. destruct (scanReferencesDirectory dir w) as [[i|e] w1]; done.
Qed.

(** C8 (amended): the loader returns the sentinel exactly when the
    references directory does not exist or the index document parses to
    the literal [null] (a parsed index is returned as it is). An index
    document that is there but cannot be read or parsed is logged, and the
    load goes on with the scan; and whenever the directory exists, its
    index document is absent or unusable, and the directory can be listed,
    the loader returns a catalog. *)
Theorem loadReferenceIndex_cases (dir : string) (w : World) :
  let referencesDir := path_join dir "references" in
  let indexPath := path_join referencesDir "index.json" in
  ((∃ w', loadReferenceIndex dir w = (Return None, w'))
   ↔ fs_exists w referencesDir = false ∨ usableIndex w indexPath None)
  ∧ (fs_exists w referencesDir = true → unusableIndex w indexPath →
     loadReferenceIndex dir w
     = (index ← scanReferencesDirectory referencesDir; mret (Some index))
         (logged w [parseFailure indexPath]))
  ∧ (fs_exists w referencesDir = true →
     fs_exists w indexPath = false ∨ unusableIndex w indexPath →
     ∀ listing, fs_readdir w referencesDir = Some listing →
     ∃ index w', loadReferenceIndex dir w = (Return (Some index), w')).
Proof.
  cbv zeta. split; [|split].
  - split.
    + intros [w' Hrun].
      destruct (fs_exists w (path_join dir "references")) eqn:Hdir; [|by left].
      right.
      destruct (fs_exists w (path_join (path_join dir "references") "index.json")) eqn:Hidx.
      * destruct (fs_read w (path_join (path_join dir "references") "index.json"))
          as [content|] eqn:Hread.
        -- destruct (JSON_parse_index content) as [parsed|] eqn:Hparse.
           ++ rewrite (loadReferenceIndex_usable dir w parsed) in Hrun;
                [|done|split; eauto].
              injection Hrun as -> _. split; eauto.
           ++ rewrite loadReferenceIndex_unusable in Hrun;
                [|done|split; eauto].
              by apply scan_not_null in Hrun.
        -- rewrite loadReferenceIndex_unusable in Hrun; [|done|split; eauto].
           by apply scan_not_null in Hrun.
      * rewrite loadReferenceIndex_no_index in Hrun by done.
        by apply scan_not_null in Hrun.
    + intros [Hno|Hnull].
      * exists w. by apply loadReferenceIndex_missing.
      * destruct (fs_exists w (path_join dir "references")) eqn:Hdir.
        -- exists w. by apply loadReferenceIndex_usable.
        -- exists w. by apply loadReferenceIndex_missing.
  - apply loadReferenceIndex_unusable.
  - intros Hdir Hidx listing Hls.
    destruct Hidx as [Hidx|Hidx].
    + rewrite loadReferenceIndex_no_index by done.
      destruct (scanReferencesDirectory_returns _ w listing Hls) as (index & w' & Hscan).
      exists index, w'. unfold mbind, M_bind. by rewrite Hscan.
    + rewrite loadReferenceIndex_unusable by done.
      destruct (scanReferencesDirectory_returns _
                  (logged w [parseFailure (path_join (path_join dir "references") "index.json")])
                  listing Hls) as (index & w' & Hscan).
      exists index, w'. unfold mbind, M_bind. by rewrite Hscan.
Qed.
End loading_claims.

(** C8, as stated, fails: the references directory exists, and the loader
    still returns the sentinel, because the index document is [null]. *)
Lemma loadReferenceIndex_null_index :
  fs_exists nullIndexWorld "home/references" = true
  ∧ loadReferenceIndex (rt:=sampleRuntime) "home" nullIndexWorld
    = (Return None, nullIndexWorld).
Proof. split; vm_compute; reflexivity. Qed.

(** Nor is a catalog always returned when the directory entry exists: a
    failure to list it is not caught by the loader. *)
Example loadReferenceIndex_listing_failure :
  fs_exists plainFileWorld "home/references" = true
  ∧ loadReferenceIndex (rt:=sampleRuntime) "home" plainFileWorld
    = (Throw "ENOTDIR", plainFileWorld).
Proof. split; vm_compute; reflexivity. Qed.

Lemma loadReferenceIndex_cases_witness :
  ((∃ w', loadReferenceIndex (rt:=sampleRuntime) "home" nullIndexWorld = (Return None, w'))
   ↔ fs_exists nullIndexWorld "home/references" = false
     ∨ usableIndex (rt:=sampleRuntime) nullIndexWorld "home/references/index.json" None)
  ∧ (fs_exists nullIndexWorld "home/references" = true →
     unusableIndex (rt:=sampleRuntime) nullIndexWorld "home/references/index.json" →
     loadReferenceIndex (rt:=sampleRuntime) "home" nullIndexWorld
     = (index ← scanReferencesDirectory (rt:=sampleRuntime) "home/references";
        mret (Some index))
         (logged nullIndexWorld [parseFailure "home/references/index.json"]))
  ∧ (fs_exists nullIndexWorld "home/references" = true →
     fs_exists nullIndexWorld "home/references/index.json" = false
     ∨ unusableIndex (rt:=sampleRuntime) nullIndexWorld "home/references/index.json" →
     ∀ listing, fs_readdir nullIndexWorld "home/references" = Some listing →
     ∃ index w',
       loadReferenceIndex (rt:=sampleRuntime) "home" nullIndexWorld
       = (Return (Some index), w')).
Proof. exact (loadReferenceIndex_cases (rt:=sampleRuntime) "home" nullIndexWorld). Defined.

(** ** The entry point *)

Section entry_claims.
Context {rt : Runtime}.

Lemma renderLoaded_nonempty st :
  truthy_string (renderLoaded st) = true → loadedContent st ≠ [].
Proof. unfold renderLoaded. by destruct (loadedContent st). Qed.

(** C5: the entry point never throws: it always returns a text or the
    absent value. When neither base directory has a references directory
    the result is the absent value (and nothing is logged); and a returned
    text is never empty: it is the rendering of a load that kept at least
    one entry, so a load that keeps none yields the absent value. *)
Theorem detectAndLoadModuleRules_total (config : ModuleRulesConfig) (w : World) :
  ∃ v w',
    detectAndLoadModuleRules config w = (Return v, w')
    ∧ (fs_exists w (path_join (userDir config) "references") = false →
       fs_exists w (path_join (projectDir config) "references") = false →
       v = None ∧ w' = w)
    ∧ (∀ s, v = Some s →
         s ≠ EmptyString
         ∧ ∃ detected w1 st,
             loadLoop MAX_TOTAL_TOKENS initialLoadState detected w1 = (Return st, w')
             ∧ loadedContent st ≠ []
             ∧ s = renderLoaded st).
Proof.
  destruct (returns_run (detectAndLoadModuleRules config) w) as (v & w' & Hrun).
  { unfold detectAndLoadModuleRules. apply returns_try_catch. intros e.
    apply returns_bind; [apply returns_console_error|intros; apply returns_ret]. }
  exists v, w'. split; [done|]. split.
  - intros Hu Hp. revert Hrun.
    unfold detectAndLoadModuleRules, try_catch, mbind, M_bind.
    rewrite (loadReferenceIndex_missing _ w Hu), (loadReferenceIndex_missing _ w Hp).
    simpl. by intros [= <- <-].
  - intros s ->. revert Hrun.
    unfold detectAndLoadModuleRules, try_catch. unfold mbind at 1, M_bind at 1.
    destruct (loadReferenceIndex (userDir config) w) as [[ui|e] w1]; [|done].
    unfold mbind at 1, M_bind at 1.
    destruct (loadReferenceIndex (projectDir config) w1) as [[pi|e] w2]; [|done].
    destruct (negb _ && negb _); [done|].
    unfold mbind at 1, M_bind at 1, lift.
    destruct (mergeIndices ui pi) as [mergedIndex|e]; [|done].
    destruct (length (map_to_list mergedIndex) =? 0)%nat; [done|].
    unfold mbind at 1, M_bind at 1. rewrite detectModules_eq.
    destruct (length _ =? 0)%nat; [done|].
    unfold mbind at 1, M_bind at 1, loadReferences, loadReferencesWith.
    unfold mbind at 1, M_bind at 1.
    destruct (loadLoop_accepts MAX_TOTAL_TOKENS
                (Array_sort byPriority
                   (candidates w2 mergedIndex (cwd config) (prompt config)))
                initialLoadState w2) as (st & msgs & Hloop & _).
    rewrite Hloop. unfold mret, M_ret.
    destruct (truthy_string (renderLoaded st)) eqn:Hs; [|done].
    intros [= <- <-]. split.
    + intros Hempty. by rewrite Hempty in Hs.
    + eexists _, w2, st. split; [exact Hloop|].
      split; [by apply renderLoaded_nonempty|done].
Qed.
End entry_claims.

(** ** Front-matter parsing: where trigger lists end up *)

Lemma isArrayParent_plain k :
  isArrayParent k = true →
  k ≠ "triggers" ∧ str_eqb k "__proto__" = false ∧ str_eqb k "length" = false
  ∧ arrayIndex k = None.
Proof.
  unfold isArrayParent, TRIGGER_KINDS. intros Hk%bool_decide_eq_true.
  repeat (apply elem_of_cons in Hk as [->|Hk]; [by repeat split|]).
  by apply elem_of_nil in Hk.
Qed.

Lemma isArrayParent_not_triggers k : isArrayParent k = true → k ≠ "triggers".
Proof. intros Hk. by destruct (isArrayParent_plain k Hk). Qed.

Lemma ensureTriggers_other fm k : k ≠ "triggers" → ensureTriggers fm !! k = fm !! k.
Proof.
  intros Hk. unfold ensureTriggers. destruct (truthy _); [done|].
  by rewrite lookup_insert_ne.
Qed.

Lemma ensureTriggers_props fm props : triggersProps fm props → ensureTriggers fm = fm.
Proof. unfold ensureTriggers. by intros [->|[elems ->]]. Qed.

Lemma assignTop_ne fm key v k : k ≠ key → assignTop fm key v !! k = fm !! k.
Proof.
  intros Hne. unfold assignTop. destruct (str_eqb key "__proto__"); [done|].
  by rewrite lookup_insert_ne.
Qed.

Lemma assignTop_kind fm key v :
  isArrayParent key = true → assignTop fm key v = <[key := v]> fm.
Proof. intros (_ & Hp & _)%isArrayParent_plain. unfold assignTop. by rewrite Hp. Qed.

Lemma assignTop_is_Some fm key v k :
  is_Some (fm !! k) → is_Some (assignTop fm key v !! k).
Proof.
  intros Hk. unfold assignTop. destruct (str_eqb key "__proto__"); [done|].
  apply lookup_insert_is_Some'. by right.
Qed.

Lemma ofold_app {S A} (step : S → A → Outcome S) (l1 l2 : list A) s :
  ofold step s (l1 ++ l2) = obind (ofold step s l1) (λ s1, ofold step s1 l2).
Proof.
  revert s. induction l1 as [|a l1 IH]; intros s; simpl; [done|].
  destruct (step s a); simpl; [apply IH|done].
Qed.

Section parse_claims.
Context {rt : Runtime}.

Lemma setTrigger_cases fm key a items fm' :
  setTrigger fm key a items = Return fm' →
  fm' = fm ∨ ∃ v, fm' = <["triggers" := v]> fm
                  ∧ ((∃ props, fm !! "triggers" = Some (VObject props)
                               ∧ v = VObject (<[key := a]> props))
                     ∨ ∃ elems props elems', fm !! "triggers" = Some (VArray elems props)
                         ∧ (v = VArray elems' props ∨ v = VArray elems (<[key := a]> props))).
Proof.
  unfold setTrigger, setLength.
  destruct (fm !! "triggers") as [[s|elems props|props]|]; [| | |done].
  - destruct (str_eqb key "__proto__"); [|done]. intros [= <-]. by left.
  - destruct (str_eqb key "__proto__"); [intros [= <-]; by left|].
    destruct (str_eqb key "length").
    + destruct (Number _) as [n|]; [|done].
      destruct ((0 <=? n) && (n <=? MAX_ARRAY_LENGTH)); [|done].
      simpl. intros [= <-]. right.
      exists (VArray (resize (Z.to_nat n) elems) props). split; [done|]. right.
      exists elems, props, (resize (Z.to_nat n) elems). split; [done|by left].
    + destruct (arrayIndex key) as [i|]; intros [= <-]; right.
      * exists (VArray (setElement i (EArray a) elems) props). split; [done|]. right.
        exists elems, props, (setElement i (EArray a) elems). split; [done|by left].
      * exists (VArray elems (<[key := a]> props)). split; [done|]. right.
        exists elems, props, elems. split; [done|by right].
  - destruct (str_eqb key "__proto__"); [intros [= <-]; by left|].
    intros [= <-]. right. exists (VObject (<[key := a]> props)). split; [done|].
    left. by exists props.
Qed.

Lemma setTrigger_other fm key a items fm' k :
  setTrigger fm key a items = Return fm' → k ≠ "triggers" → fm' !! k = fm !! k.
Proof.
  intros [->|(v & -> & _)]%setTrigger_cases Hne; [done|]. by rewrite lookup_insert_ne.
Qed.

Lemma setTrigger_is_Some fm key a items fm' k :
  setTrigger fm key a items = Return fm' → is_Some (fm !! k) → is_Some (fm' !! k).
Proof.
  intros [->|(v & -> & _)]%setTrigger_cases Hk; [done|].
  apply lookup_insert_is_Some'. by right.
Qed.

(** Under a trigger-kind name the array is made a named property. *)
Lemma setTrigger_kind fm key a items fm' :
  isArrayParent key = true →
  setTrigger fm key a items = Return fm' →
  ∃ props, triggersProps fm' props ∧ props !! key = Some a.
Proof.
  intros (_ & Hproto & Hlen & Hidx)%isArrayParent_plain.
  unfold setTrigger, triggersProps. rewrite Hproto, Hlen, Hidx.
  destruct (fm !! "triggers") as [[s|elems props|props]|]; intros [= <-].
  - eexists. rewrite !lookup_insert_eq. eauto.
  - eexists. rewrite !lookup_insert_eq. eauto.
Qed.

(** What stands under the other names stays. *)
Lemma setTrigger_keeps fm key a items fm' props :
  triggersProps fm props →
  setTrigger fm key a items = Return fm' →
  ∃ props', triggersProps fm' props' ∧ ∀ k, k ≠ key → props' !! k = props !! k.
Proof.
  intros Hprops Hrun.
  apply setTrigger_cases in Hrun as [->|(v & -> & Hv)]; [by exists props|].
  unfold triggersProps. rewrite lookup_insert_eq.
  destruct Hv as [(props0 & H0 & ->)|(elems & props0 & elems' & H0 & Hv)].
  - assert (props0 = props) as ->.
    { destruct Hprops as [Hp|[elems0 Hp]]; congruence. }
    exists (<[key := a]> props). split; [by left|].
    intros k Hne. by rewrite lookup_insert_ne.
  - assert (props0 = props) as ->.
    { destruct Hprops as [Hp|[elems0 Hp]]; congruence. }
    destruct Hv as [-> | ->].
    + exists props. split; [right; eauto|done].
    + exists (<[key := a]> props). split; [right; eauto|].
      intros k Hne. by rewrite lookup_insert_ne.
Qed.

Lemma parseLine_keyValue st line key value :
  keyValue line = Some (key, value) → parseLine st line = assignKey st key value.
Proof.
  unfold keyValue, parseLine.
  destruct (negb _ || _); [done|]. destruct (JSString.startsWith "- " _); [done|].
  destruct (JSString.indexOf _ line) as [[|n]|]; [done| |done].
  by intros [= <- <-].
Qed.

Lemma parseLine_no_keyValue st line st' :
  keyValue line = None → parseLine st line = Return st' →
  frontmatter st' = frontmatter st.
Proof.
  unfold keyValue, parseLine.
  destruct (negb _ || _); [by intros _ [= <-]|].
  destruct (JSString.startsWith "- " _).
  - intros _. destruct (currentArray st); by intros [= <-].
  - destruct (JSString.indexOf _ line) as [[|n]|]; [|done|]; by intros _ [= <-].
Qed.

(** Block form: the list goes under [triggers]; no other key changes. *)
Lemma assignKey_block st key value st' :
  isBlockValue value = true → isArrayParent key = true →
  assignKey st key value = Return st' →
  (∃ props, triggersProps (frontmatter st') props
            ∧ props !! key = Some (length (arrays st)))
  ∧ arrays st' = arrays st ++ [[]]
  ∧ currentArray st' = Some (length (arrays st))
  ∧ ∀ k, k ≠ "triggers" → frontmatter st' !! k = frontmatter st !! k.
Proof.
  intros Hb Hk. unfold assignKey. rewrite Hb, Hk.
  destruct (setTrigger _ key _ _) as [fm|e] eqn:Hset; simpl; [|done].
  intros [= <-]. simpl. split; [by eapply setTrigger_kind|].
  repeat split. intros k Hne.
  by rewrite (setTrigger_other _ _ _ _ _ k Hset Hne), ensureTriggers_other.
Qed.

(** An inline list with no [triggers] in sight is stored at top level. *)
Lemma assignKey_inline_top st key value :
  isBlockValue value = false →
  isInlineArray (JSString.stripQuotes value) = true →
  currentKey st ≠ "triggers" →
  truthy (frontmatter st !! "triggers") = false →
  assignKey st key value
  = Return (mkParseState
              (assignTop (frontmatter st) key
                 (VArray (EString <$> inlineItems (JSString.stripQuotes value)) ∅))
              (arrays st) (currentKey st) None).
Proof.
  intros Hb Hi Hck Ht. unfold assignKey. rewrite Hb, Hi, Ht.
  unfold str_eqb. by rewrite bool_decide_eq_false_2.
Qed.

(** An inline list met after [triggers] goes under [triggers]. *)
Lemma assignKey_inline_nested st key value st' :
  isBlockValue value = false →
  isInlineArray (JSString.stripQuotes value) = true →
  currentKey st = "triggers" ∨ truthy (frontmatter st !! "triggers") = true →
  assignKey st key value = Return st' →
  setTrigger (ensureTriggers (frontmatter st)) key (length (arrays st))
    (inlineItems (JSString.stripQuotes value)) = Return (frontmatter st')
  ∧ arrays st' = arrays st ++ [inlineItems (JSString.stripQuotes value)]
  ∧ currentArray st' = None.
Proof.
  intros Hb Hi Hctx. unfold assignKey. rewrite Hb, Hi.
  assert (str_eqb (currentKey st) "triggers" || truthy (frontmatter st !! "triggers") = true)
    as ->.
  { destruct Hctx as [->| ->]; [done|apply orb_true_r]. }
  destruct (setTrigger _ key _ _) as [fm|e] eqn:Hset; simpl; [|done].
  by intros [= <-].
Qed.

(** Any other value is a scalar stored at top level. *)
Lemma assignKey_scalar st key value :
  isBlockValue value = false →
  isInlineArray (JSString.stripQuotes value) = false →
  ∃ v, assignKey st key value
       = Return (mkParseState (assignTop (frontmatter st) key (VScalar v))
                   (arrays st) (currentKey st) None).
Proof.
  intros Hb Hi. unfold assignKey. rewrite Hb, Hi.
  destruct (str_eqb _ "true"); [eauto|]. destruct (str_eqb _ "false"); [eauto|].
  destruct (Number _); eauto.
Qed.

(** The shapes a "key: value" line can take. *)
Lemma assignKey_cases st key value st' :
  assignKey st key value = Return st' →
  (isBlockValue value = true
   ∧ ((isArrayParent key = true
       ∧ setTrigger (ensureTriggers (frontmatter st)) key (length (arrays st)) []
         = Return (frontmatter st')
       ∧ arrays st' = arrays st ++ [[]]
       ∧ currentArray st' = Some (length (arrays st)))
      ∨ (isArrayParent key = false ∧ key = "triggers"
         ∧ frontmatter st' = <["triggers" := VObject ∅]> (frontmatter st)
         ∧ arrays st' = arrays st ∧ currentArray st' = currentArray st)
      ∨ (isArrayParent key = false ∧ key ≠ "triggers"
         ∧ frontmatter st' = frontmatter st
         ∧ arrays st' = arrays st ∧ currentArray st' = currentArray st)))
  ∨ (isBlockValue value = false
     ∧ ((∃ items, setTrigger (ensureTriggers (frontmatter st)) key (length (arrays st)) items
                  = Return (frontmatter st')
                  ∧ arrays st' = arrays st ++ [items] ∧ currentArray st' = None)
        ∨ (∃ v, frontmatter st' = assignTop (frontmatter st) key v
                ∧ arrays st' = arrays st ∧ currentArray st' = None))).
Proof.
  unfold assignKey. destruct (isBlockValue value) eqn:Hb.
  - intros Hrun. left. split; [done|].
    destruct (isArrayParent key) eqn:Hk.
    + destruct (setTrigger _ key _ _) as [fm|e] eqn:Hset; simpl in Hrun; [|done].
      injection Hrun as <-. left. by repeat split.
    + destruct (str_eqb key "triggers") eqn:Hkey; injection Hrun as <-; right.
      * left. apply bool_decide_eq_true in Hkey. by repeat split.
      * right. apply bool_decide_eq_false in Hkey. by repeat split.
  - intros Hrun. right. split; [done|].
    destruct (isInlineArray _).
    + destruct (_ || _).
      * destruct (setTrigger _ key _ _) as [fm|e] eqn:Hset; simpl in Hrun; [|done].
        injection Hrun as <-. left. eexists. by repeat split.
      * injection Hrun as <-. right. eexists. by repeat split.
    + destruct (str_eqb _ "true"); [injection Hrun as <-; right; eexists; by repeat split|].
      destruct (str_eqb _ "false"); [injection Hrun as <-; right; eexists; by repeat split|].
      destruct (Number _); injection Hrun as <-; right; eexists; by repeat split.
Qed.

(** A top-level key other than [triggers] changes only on a line that
    gives it a value on the line itself. *)
Lemma parseLine_top_level st line st' k :
  parseLine st line = Return st' → k ≠ "triggers" →
  (∀ value, keyValue line = Some (k, value) → isBlockValue value = true) →
  frontmatter st' !! k = frontmatter st !! k.
Proof.
  intros Hrun Hk Hline. destruct (keyValue line) as [[key value]|] eqn:Hkv.
  - rewrite (parseLine_keyValue _ _ _ _ Hkv) in Hrun.
    apply assignKey_cases in Hrun
      as [(Hb & [(_ & Hset & _)|[(_ & _ & -> & _)|(_ & _ & -> & _)]])
         |(Hb & [(items & Hset & _)|(v & -> & _)])].
    + by rewrite (setTrigger_other _ _ _ _ _ k Hset Hk), ensureTriggers_other.
    + by rewrite lookup_insert_ne.
    + done.
    + by rewrite (setTrigger_other _ _ _ _ _ k Hset Hk), ensureTriggers_other.
    + apply assignTop_ne. intros ->. specialize (Hline value eq_refl). congruence.
  - by rewrite (parseLine_no_keyValue _ _ _ Hkv Hrun).
Qed.

Lemma parse_fold_top_level ls : ∀ st st' k,
  ofold parseLine st ls = Return st' → k ≠ "triggers" →
  frontmatter st' !! k ≠ frontmatter st !! k →
  ∃ line value, line ∈ ls ∧ keyValue line = Some (k, value) ∧ isBlockValue value = false.
Proof.
  induction ls as [|line ls IH]; intros st st' k; simpl.
  - by intros [= <-].
  - destruct (parseLine st line) as [st1|e] eqn:Hstep; simpl; [|done].
    intros Hrun Hk Hchanged.
    destruct (keyValue line) as [[key value]|] eqn:Hkv.
    + destruct (decide (key = k ∧ isBlockValue value = false)) as [[-> Hb]|Hother].
      { exists line, value. split; [apply list_elem_of_here|done]. }
      assert (frontmatter st1 !! k = frontmatter st !! k) as Hsame.
      { apply (parseLine_top_level st line st1 k Hstep Hk).
        intros value' Hkv'. rewrite Hkv in Hkv'. injection Hkv' as Hk' Hv'.
        rewrite <- Hv'. destruct (isBlockValue value) eqn:Hb; [done|].
        by destruct Hother. }
      destruct (IH st1 st' k Hrun Hk) as (l & v & Hin & Hl); [congruence|].
      exists l, v. split; [by apply list_elem_of_further|done].
    + assert (frontmatter st1 !! k = frontmatter st !! k) as Hsame.
      { apply (parseLine_top_level st line st1 k Hstep Hk).
        intros value' Hkv'. by rewrite Hkv in Hkv'. }
      destruct (IH st1 st' k Hrun Hk) as (l & v & Hin & Hl); [congruence|].
      exists l, v. split; [by apply list_elem_of_further|done].
Qed.

(** A key, once there, stays. *)
Lemma parseLine_is_Some st line st' k :
  parseLine st line = Return st' →
  is_Some (frontmatter st !! k) → is_Some (frontmatter st' !! k).
Proof.
  intros Hrun Hk. destruct (keyValue line) as [[key value]|] eqn:Hkv.
  - rewrite (parseLine_keyValue _ _ _ _ Hkv) in Hrun.
    assert (is_Some (ensureTriggers (frontmatter st) !! k)) as Hens.
    { unfold ensureTriggers. destruct (truthy _); [done|].
      apply lookup_insert_is_Some'. by right. }
    apply assignKey_cases in Hrun
      as [(Hb & [(_ & Hset & _)|[(_ & _ & -> & _)|(_ & _ & -> & _)]])
         |(Hb & [(items & Hset & _)|(v & -> & _)])].
    + by eapply setTrigger_is_Some.
    + apply lookup_insert_is_Some'. by right.
    + done.
    + by eapply setTrigger_is_Some.
    + by apply assignTop_is_Some.
  - by rewrite (parseLine_no_keyValue _ _ _ Hkv Hrun).
Qed.

Lemma parse_fold_is_Some ls : ∀ st st' k,
  ofold parseLine st ls = Return st' →
  is_Some (frontmatter st !! k) → is_Some (frontmatter st' !! k).
Proof.
  induction ls as [|line ls IH]; intros st st' k; simpl.
  - by intros [= <-].
  - destruct (parseLine st line) as [st1|e] eqn:Hstep; simpl; [|done].
    intros Hrun Hk. eapply IH; [done|]. by eapply parseLine_is_Some.
Qed.

(** What [triggers] holds under a name stays through a line that gives a
    value neither to [triggers] nor to that name. *)
Lemma parseLine_nested st line st' key props :
  parseLine st line = Return st' → leaves key line = true →
  triggersProps (frontmatter st) props →
  ∃ props', triggersProps (frontmatter st') props' ∧ props' !! key = props !! key.
Proof.
  intros Hrun Hleaves Hprops. unfold leaves, assigns in Hleaves.
  destruct (keyValue line) as [[k value]|] eqn:Hkv.
  - apply andb_true_iff in Hleaves as [Ht%negb_true_iff Hk%negb_true_iff].
    apply bool_decide_eq_false in Ht, Hk.
    rewrite (parseLine_keyValue _ _ _ _ Hkv) in Hrun.
    assert (∀ v, triggersProps (assignTop (frontmatter st) k v) props) as Htop.
    { intros v. unfold triggersProps. rewrite assignTop_ne by done. exact Hprops. }
    apply assignKey_cases in Hrun
      as [(Hb & [(_ & Hset & _)|[(_ & ? & _)|(_ & _ & -> & _)]])
         |(Hb & [(items & Hset & _)|(v & -> & _)])]; [|done| | |].
    + rewrite (ensureTriggers_props _ _ Hprops) in Hset.
      destruct (setTrigger_keeps _ _ _ _ _ props Hprops Hset) as (props' & Hp & Hsame).
      exists props'. split; [done|]. apply Hsame. congruence.
    + by exists props.
    + rewrite (ensureTriggers_props _ _ Hprops) in Hset.
      destruct (setTrigger_keeps _ _ _ _ _ props Hprops Hset) as (props' & Hp & Hsame).
      exists props'. split; [done|]. apply Hsame. congruence.
    + by exists props.
  - rewrite (parseLine_no_keyValue _ _ _ Hkv Hrun). by exists props.
Qed.

(** The arrays of the store only grow, at their end, and only the array
    that [currentArray] points to. *)
Lemma parseLine_arrays st line st' a l :
  parseLine st line = Return st' → arrays st !! a = Some l →
  ∃ l', arrays st' !! a = Some l' ∧ l `prefix_of` l'
        ∧ (currentArray st ≠ Some a → l' = l ∧ currentArray st' ≠ Some a).
Proof.
  intros Hrun Ha. pose proof (lookup_lt_Some _ _ _ Ha) as Hlt.
  assert (∀ extra, (arrays st ++ extra) !! a = Some l) as Happ.
  { intros extra. by rewrite lookup_app_l. }
  destruct (keyValue line) as [[k value]|] eqn:Hkv.
  - rewrite (parseLine_keyValue _ _ _ _ Hkv) in Hrun.
    apply assignKey_cases in Hrun
      as [(Hb & [(_ & _ & -> & ->)|[(_ & _ & _ & -> & ->)|(_ & _ & _ & -> & ->)]])
         |(Hb & [(items & _ & -> & ->)|(v & _ & -> & ->)])];
      exists l; (split; [done|]); (split; [done|]); intros Hca; (split; [done|]);
      try done.
    intros [= Heq]. lia.
  - revert Hrun. unfold keyValue, parseLine in *.
    destruct (negb _ || _).
    { intros [= <-]. exists l. split; [done|]. split; [done|]. intros Hca. split; [done|congruence]. }
    destruct (JSString.startsWith "- " _).
    + destruct (currentArray st) as [c|] eqn:Hc.
      * intros [= <-]. simpl. unfold push.
        destruct (decide (c = a)) as [->|Hne].
        -- exists (l ++ [JSString.stripQuotes
                           (JSString.trim (JSString.sliceFrom 2 (JSString.trim line)))]).
           rewrite list_lookup_alter_eq, Ha. split; [done|].
           split; [by apply prefix_app_r|]. by intros [].
        -- exists l. rewrite list_lookup_alter_ne by done. split; [done|].
           split; [done|]. intros _. split; [done|]. congruence.
      * intros [= <-]. exists l. split; [done|]. split; [done|]. intros Hca. split; [done|congruence].
    + intros Hrun. assert (st' = st) as ->.
      { destruct (JSString.indexOf _ line) as [[|n]|]; [|done|]; by injection Hrun. }
      exists l. split; [done|]. split; [done|]. intros Hca. split; [done|congruence].
Qed.

Lemma parse_fold_nested ls : ∀ st st' key props a l,
  Forall (λ line, leaves key line = true) ls →
  ofold parseLine st ls = Return st' →
  triggersProps (frontmatter st) props → props !! key = Some a →
  arrays st !! a = Some l →
  ∃ props' l', triggersProps (frontmatter st') props' ∧ props' !! key = Some a
    ∧ arrays st' !! a = Some l' ∧ l `prefix_of` l'
    ∧ (currentArray st ≠ Some a → l' = l).
Proof.
  induction ls as [|line ls IH]; intros st st' key props a l Hall; simpl.
  - intros [= <-] Hprops Hkey Ha. exists props, l. by repeat split.
  - apply Forall_cons in Hall as [Hline Hall].
    destruct (parseLine st line) as [st1|e] eqn:Hstep; simpl; [|done].
    intros Hrun Hprops Hkey Ha.
    destruct (parseLine_nested st line st1 key props Hstep Hline Hprops)
      as (props1 & Hprops1 & Hkey1).
    destruct (parseLine_arrays st line st1 a l Hstep Ha) as (l1 & Ha1 & Hpre1 & Hexact1).
    destruct (IH st1 st' key props1 a l1 Hall Hrun Hprops1 ltac:(congruence) Ha1)
      as (props' & l' & Hp & Hk & Ha' & Hpre & Hexact).
    exists props', l'. split; [done|]. split; [done|]. split; [done|].
    split; [by etrans|]. intros Hca.
    destruct (Hexact1 Hca) as [-> Hca1]. by apply Hexact.
Qed.

(** A top-level key stays as it is through lines none of which gives it a
    value. *)
Lemma parse_fold_same ls : ∀ st st' k,
  ofold parseLine st ls = Return st' → k ≠ "triggers" →
  Forall (λ line, assigns k line = false) ls →
  frontmatter st' !! k = frontmatter st !! k.
Proof.
  induction ls as [|line ls IH]; intros st st' k; simpl.
  - by intros [= <-].
  - destruct (parseLine st line) as [st1|e] eqn:Hstep; simpl; [|done].
    intros Hrun Hk [Hline Hall]%Forall_cons.
    rewrite (IH st1 st' k Hrun Hk Hall).
    apply (parseLine_top_level st line st1 k Hstep Hk).
    intros value Hkv. unfold assigns in Hline. rewrite Hkv in Hline.
    unfold str_eqb in Hline. by rewrite bool_decide_eq_true_2 in Hline.
Qed.

Lemma prefix_cons a p b s :
  String.prefix (String a p) (String b s)
  = if ascii_dec a b then String.prefix p s else false.
Proof. reflexivity. Qed.

Lemma itemLine_keyValue line : itemLine line = true → keyValue line = None.
Proof.
  unfold itemLine, keyValue. intros ->. by destruct (negb _ || _).
Qed.

Lemma itemLine_leaves key line : itemLine line = true → leaves key line = true.
Proof. intros Hitem. unfold leaves, assigns. by rewrite (itemLine_keyValue _ Hitem). Qed.

Lemma itemLine_parse st line a :
  itemLine line = true → currentArray st = Some a →
  parseLine st line
  = Return (mkParseState (frontmatter st) (push a (itemValue line) (arrays st))
              (currentKey st) (Some a)).
Proof.
  unfold itemLine, parseLine, itemValue. intros Hitem Ha.
  assert (negb (truthy_string (JSString.trim line))
          || JSString.startsWith "#" (JSString.trim line) = false) as ->.
  { destruct (JSString.trim line) as [|c t]; [discriminate Hitem|].
    unfold JSString.startsWith in *. rewrite prefix_cons in Hitem.
    destruct (ascii_dec "-" c) as [<-|]; [reflexivity|discriminate Hitem]. }
  by rewrite Hitem, Ha.
Qed.

Lemma items_fold items : ∀ st a acc,
  Forall (λ line, itemLine line = true) items →
  currentArray st = Some a →
  arrays st !! a = Some acc →
  ∃ st', ofold parseLine st items = Return st'
    ∧ frontmatter st' = frontmatter st
    ∧ currentArray st' = Some a
    ∧ length (arrays st') = length (arrays st)
    ∧ arrays st' !! a = Some (acc ++ map itemValue items).
Proof.
  induction items as [|line items IH]; intros st a acc Hall Ha Hacc.
  - exists st. simpl. by rewrite app_nil_r.
  - apply Forall_cons in Hall as [Hline Hall]. cbn [ofold].
    rewrite (itemLine_parse st line a Hline Ha). cbn [obind].
    destruct (IH (mkParseState (frontmatter st) (push a (itemValue line) (arrays st))
                    (currentKey st) (Some a)) a (acc ++ [itemValue line]) Hall eq_refl)
      as (st' & -> & Hfm & Hca & Hlen & Harr).
    { simpl. unfold push. rewrite list_lookup_alter_eq, Hacc. done. }
    exists st'. split; [done|]. simpl in *.
    rewrite Hfm, Hca, Hlen, Harr. unfold push. rewrite length_alter.
    by rewrite <- app_assoc.
Qed.

(** A parse that returns has read every line of the block. *)
Lemma parseFrontmatter_fold content p :
  parseFrontmatter content = Return p →
  (blockLines content = [] ∧ p_frontmatter p = ∅)
  ∨ ∃ st, ofold parseLine initialParseState (blockLines content) = Return st
          ∧ p_frontmatter p = frontmatter st ∧ p_arrays p = arrays st.
Proof.
  unfold parseFrontmatter, blockLines.
  destruct (matchFrontmatter content) as [[yaml body]|].
  - destruct (ofold parseLine initialParseState _) as [st|e]; simpl; [|done].
    intros [= <-]. right. by exists st.
  - intros [= <-]. by left.
Qed.

(** The run over the lines of a block, cut at one of its lines. *)
Lemma parse_fold_cut pre line rest st0 stF :
  ofold parseLine st0 (pre ++ line :: rest) = Return stF →
  ∃ st st1, ofold parseLine st0 pre = Return st
            ∧ parseLine st line = Return st1
            ∧ ofold parseLine st1 rest = Return stF.
Proof.
  rewrite ofold_app. destruct (ofold parseLine st0 pre) as [st|e]; simpl; [|done].
  destruct (parseLine st line) as [st1|e] eqn:Hline; simpl; [|done].
  intros Hrest. by exists st, st1.
Qed.

Lemma parseFrontmatter_cut content p pre line rest :
  parseFrontmatter content = Return p →
  blockLines content = pre ++ line :: rest →
  ∃ st st1 stF, ofold parseLine initialParseState pre = Return st
                ∧ parseLine st line = Return st1
                ∧ ofold parseLine st1 rest = Return stF
                ∧ p_frontmatter p = frontmatter stF ∧ p_arrays p = arrays stF.
Proof.
  intros [[Hnil _]|(stF & Hfold & Hfm & Harr)]%parseFrontmatter_fold Hlines.
  - rewrite Hnil in Hlines. by destruct pre.
  - rewrite Hlines in Hfold.
    destruct (parse_fold_cut _ _ _ _ _ Hfold) as (st & st1 & Hpre & Hline & Hrest).
    by exists st, st1, stF.
Qed.

(** A list first put under a trigger-kind name of [triggers] is still
    there at the end if no later line gives [triggers] or that name a
    value. *)
Lemma nested_at_end rest st1 stF p key a l props :
  ofold parseLine st1 rest = Return stF →
  p_frontmatter p = frontmatter stF → p_arrays p = arrays stF →
  Forall (λ line, leaves key line = true) rest →
  triggersProps (frontmatter st1) props → props !! key = Some a →
  arrays st1 !! a = Some l →
  ∃ l', nested p key l' ∧ l `prefix_of` l' ∧ (currentArray st1 ≠ Some a → l' = l).
Proof.
  intros Hrest Hfm Harr Hall Hprops Hkey Ha.
  destruct (parse_fold_nested rest st1 stF key props a l Hall Hrest Hprops Hkey Ha)
    as (props' & l' & Hp' & Hk' & Ha' & Hpre & Hexact).
  exists l'. split; [|done]. exists props', a. by rewrite Hfm, Harr.
Qed.

(** A trigger-kind line meeting a truthy scalar under [triggers]. *)
Lemma assignKey_scalar_triggers st key value s :
  isArrayParent key = true →
  isBlockValue value = true ∨ isInlineArray (JSString.stripQuotes value) = true →
  frontmatter st !! "triggers" = Some (VScalar s) →
  truthy (Some (VScalar s)) = true →
  assignKey st key value = Throw "TypeError".
Proof.
  intros Hk Hform Ht Htruthy.
  destruct (isArrayParent_plain key Hk) as (_ & Hproto & _).
  assert (∀ a items, setTrigger (ensureTriggers (frontmatter st)) key a items
                     = Throw "TypeError") as Hset.
  { intros a items. unfold ensureTriggers, setTrigger. rewrite Ht, Htruthy, Ht.
    by rewrite Hproto. }
  unfold assignKey. destruct (isBlockValue value).
  - by rewrite Hk, Hset.
  - destruct Hform as [?| ->]; [done|].
    rewrite Ht, Htruthy, orb_true_r. by rewrite Hset.
Qed.
End parse_claims.

(** C6, as stated, fails: with no [triggers] line before it, an inline
    [keywords] list becomes a top-level key, and no [triggers] field is
    made. *)
Lemma parseFrontmatter_inline_top_level :
  ∃ p, parseFrontmatter (rt:=sampleRuntime) inlineKeywordsDoc = Return p
       ∧ p_frontmatter p !! "keywords"
         = Some (VArray [EString "login"; EString "oauth"] ∅)
       ∧ p_frontmatter p !! "triggers" = None.
Proof. eexists. split; [vm_compute; reflexivity|]. repeat split. Qed.

Example parseFrontmatter_block_nested :
  ∃ p, parseFrontmatter (rt:=sampleRuntime) blockKeywordsDoc = Return p
       ∧ p_frontmatter p !! "keywords" = None
       ∧ p_frontmatter p !! "triggers" = Some (VObject {["keywords" := 0%nat]})
       ∧ p_arrays p !! 0%nat = Some ["login"; "oauth"].
Proof. eexists. split; [vm_compute; reflexivity|]. repeat split. Qed.

(** A [triggers] line after the list drops the list from the parsed
    structure. *)
Example parseFrontmatter_later_triggers_line :
  ∃ p, parseFrontmatter (rt:=sampleRuntime) droppedKeywordsDoc = Return p
       ∧ p_frontmatter p !! "triggers" = Some (VObject ∅).
Proof. eexists. split; [vm_compute; reflexivity|]. repeat split. Qed.

Section parse_theorem.
Context {rt : Runtime}.

(** C6 (amended): of a document for which the parser returns a structure,
    - a trigger-kind name is a top-level key of the structure only if a
      line of the block gives that key a value on the line itself;
    - a trigger-kind key in block form (nothing, or an opening brace,
      after the colon) followed by list items has, under its name in
      [triggers], a list that begins with the values of those items,
      whether or not a [triggers:] line was seen, provided no later line
      gives [triggers] or that key a value;
    - a trigger-kind key given an inline bracketed list has that list
      under its name in [triggers], with the same proviso, if at that
      line the last key opened in block form is [triggers] or [triggers]
      holds a truthy value; otherwise the key is a top-level key, and it
      holds that list if no later line gives the key a value;
    - a trigger-kind key given any other value on its line is a top-level
      key, and holds a scalar if no later line gives the key a value.
    And the parser returns no structure but throws a [TypeError] when a
    trigger-kind key, in block form or given an inline list, comes at a
    line where [triggers] holds a truthy scalar. *)
Theorem parseFrontmatter_trigger_kinds (content : string) :
  (∀ p, parseFrontmatter content = Return p →
     (∀ key, key ∈ TRIGGER_KINDS → is_Some (p_frontmatter p !! key) →
        ∃ line value, line ∈ blockLines content
                      ∧ keyValue line = Some (key, value)
                      ∧ isBlockValue value = false)
     ∧ (∀ pre line items rest key value,
          blockLines content = pre ++ line :: items ++ rest →
          keyValue line = Some (key, value) →
          isArrayParent key = true → isBlockValue value = true →
          Forall (λ item, itemLine item = true) items →
          Forall (λ later, leaves key later = true) rest →
          ∃ l, nested p key l ∧ map itemValue items `prefix_of` l)
     ∧ (∀ pre st line rest key value,
          blockLines content = pre ++ line :: rest →
          ofold parseLine initialParseState pre = Return st →
          keyValue line = Some (key, value) →
          isArrayParent key = true → isBlockValue value = false →
          isInlineArray (JSString.stripQuotes value) = true →
          if str_eqb (currentKey st) "triggers" || truthy (frontmatter st !! "triggers")
          then Forall (λ later, leaves key later = true) rest →
               nested p key (inlineItems (JSString.stripQuotes value))
          else is_Some (p_frontmatter p !! key)
               ∧ (Forall (λ later, assigns key later = false) rest →
                  p_frontmatter p !! key
                  = Some (VArray (EString <$> inlineItems (JSString.stripQuotes value)) ∅)))
     ∧ (∀ pre line rest key value,
          blockLines content = pre ++ line :: rest →
          keyValue line = Some (key, value) →
          isArrayParent key = true → isBlockValue value = false →
          isInlineArray (JSString.stripQuotes value) = false →
          is_Some (p_frontmatter p !! key)
          ∧ (Forall (λ later, assigns key later = false) rest →
             ∃ v, p_frontmatter p !! key = Some (VScalar v))))
  ∧ (∀ pre st line rest key value s,
       blockLines content = pre ++ line :: rest →
       ofold parseLine initialParseState pre = Return st →
       keyValue line = Some (key, value) →
       isArrayParent key = true →
       isBlockValue value = true ∨ isInlineArray (JSString.stripQuotes value) = true →
       frontmatter st !! "triggers" = Some (VScalar s) →
       truthy (Some (VScalar s)) = true →
       parseFrontmatter content = Throw "TypeError").
Proof.
  split.
  - intros p Hparse. split; [|split; [|split]].
    + intros key Hkey Hsome.
      destruct (parseFrontmatter_fold content p Hparse)
        as [[_ Hfm]|(st & Hfold & Hfm & _)].
      { rewrite Hfm, lookup_empty in Hsome. by destruct Hsome. }
      apply (parse_fold_top_level _ _ _ key Hfold).
      * apply isArrayParent_not_triggers. unfold isArrayParent.
        by apply bool_decide_eq_true.
      * rewrite <- Hfm. simpl. rewrite lookup_empty.
        intros Hnone. rewrite Hnone in Hsome. by destruct Hsome.
    + intros pre line items rest key value Hlines Hkv Hk Hb Hitems Hrest.
      destruct (parseFrontmatter_cut content p pre line (items ++ rest) Hparse Hlines)
        as (st & st1 & stF & _ & Hline & Hfold & Hfm & Harr).
      rewrite (parseLine_keyValue _ _ _ _ Hkv) in Hline.
      destruct (assignKey_block st key value st1 Hb Hk Hline)
        as ((props & Hprops & Hkey) & Harr1 & Hca & _).
      assert (arrays st1 !! length (arrays st) = Some []) as Hnew.
      { rewrite Harr1. by rewrite lookup_app_r, Nat.sub_diag. }
      assert (Forall (λ later, leaves key later = true) (items ++ rest)) as Hleaves.
      { apply Forall_app. split; [|done].
        eapply Forall_impl; [exact Hitems|]. intros item. apply itemLine_leaves. }
      rewrite ofold_app in Hfold.
      destruct (items_fold items st1 _ [] Hitems Hca Hnew)
        as (st2 & Hrun2 & Hfm2 & _ & _ & Hcollected).
      rewrite Hrun2 in Hfold. simpl in Hfold, Hcollected.
      destruct (nested_at_end rest st2 stF p key (length (arrays st))
                  (map itemValue items) props Hfold Hfm Harr Hrest)
        as (l & Hnested & Hpre & _); [by rewrite Hfm2|done|done|].
      by exists l.
    + intros pre st line rest key value Hlines Hpre Hkv Hk Hb Hi.
      destruct (parseFrontmatter_cut content p pre line rest Hparse Hlines)
        as (st' & st1 & stF & Hpre' & Hline & Hfold & Hfm & Harr).
      rewrite Hpre in Hpre'. injection Hpre' as <-.
      rewrite (parseLine_keyValue _ _ _ _ Hkv) in Hline.
      destruct (str_eqb (currentKey st) "triggers" || truthy (frontmatter st !! "triggers"))
        eqn:Hctx.
      * intros Hrest. apply orb_true_iff in Hctx.
        destruct (assignKey_inline_nested st key value st1 Hb Hi) as (Hset & Harr1 & Hca);
          [|done|].
        { destruct Hctx as [Hc%bool_decide_eq_true|Ht]; [by left|by right]. }
        destruct (setTrigger_kind _ _ _ _ _ Hk Hset) as (props & Hprops & Hkey).
        destruct (nested_at_end rest st1 stF p key (length (arrays st))
                    (inlineItems (JSString.stripQuotes value)) props
                    Hfold Hfm Harr Hrest Hprops Hkey)
          as (l & Hnested & _ & Hexact).
        { rewrite Harr1. by rewrite lookup_app_r, Nat.sub_diag. }
        rewrite Hexact in Hnested; [done|]. by rewrite Hca.
      * apply orb_false_iff in Hctx as [Hc%bool_decide_eq_false Ht].
        rewrite assignKey_inline_top in Hline by done. injection Hline as <-.
        rewrite assignTop_kind in Hfold by done.
        split.
        -- rewrite Hfm. apply (parse_fold_is_Some _ _ _ key Hfold). simpl.
           by rewrite lookup_insert_eq.
        -- intros Hrest. rewrite Hfm.
           rewrite (parse_fold_same _ _ _ key Hfold
                      (isArrayParent_not_triggers _ Hk) Hrest).
           simpl. by rewrite lookup_insert_eq.
    + intros pre line rest key value Hlines Hkv Hk Hb Hi.
      destruct (parseFrontmatter_cut content p pre line rest Hparse Hlines)
        as (st & st1 & stF & _ & Hline & Hfold & Hfm & Harr).
      rewrite (parseLine_keyValue _ _ _ _ Hkv) in Hline.
      destruct (assignKey_scalar st key value Hb Hi) as [v Hrun].
      rewrite Hrun in Hline. injection Hline as <-.
      rewrite assignTop_kind in Hfold by done.
      split.
      * rewrite Hfm. apply (parse_fold_is_Some _ _ _ key Hfold). simpl.
        by rewrite lookup_insert_eq.
      * intros Hrest. exists v. rewrite Hfm.
        rewrite (parse_fold_same _ _ _ key Hfold
                   (isArrayParent_not_triggers _ Hk) Hrest).
        simpl. by rewrite lookup_insert_eq.
  - intros pre st line rest key value s Hlines Hpre Hkv Hk Hform Ht Htruthy.
    unfold parseFrontmatter, blockLines in *.
    destruct (matchFrontmatter content) as [[yaml body]|]; [|by destruct pre].
    rewrite Hlines, ofold_app, Hpre. simpl.
    rewrite (parseLine_keyValue _ _ _ _ Hkv).
    by rewrite (assignKey_scalar_triggers st key value s Hk Hform Ht Htruthy).
Qed.
End parse_theorem.

(** *** Instances on sample data *)

Lemma parseFrontmatter_trigger_kinds_witness :
  ∃ l, nested blockParsed "keywords" l
       ∧ map itemValue ["  - login"; "  - oauth"] `prefix_of` l.
Proof.
  apply (proj1 (proj2 (proj1 (parseFrontmatter_trigger_kinds (rt:=sampleRuntime)
                                blockKeywordsDoc) blockParsed eq_refl))
           ["name: Auth"] "keywords:" ["  - login"; "  - oauth"] [] "keywords" EmptyString).
  - vm_compute. reflexivity.
  - vm_compute. reflexivity.
  - reflexivity.
  - reflexivity.
  - repeat constructor.
  - constructor.
Defined.

Example checkFilePatterns_sample :
  checkFilePatterns ["["; "**/*.lock"; "supabase/**"; "*"] "proj" treeWorld
  = (Return ["supabase/config.toml"; "supabase/a.sql"; "supabase/b.sql"], treeWorld).
Proof. vm_compute. reflexivity. Qed.

Lemma checkFilePatterns_evidence_witness :
  ∃ found,
    checkFilePatterns ["["; "**/*.lock"; "supabase/**"; "*"] "proj" treeWorld
    = (Return found, treeWorld)
    ∧ found = yield treeWorld "proj" "supabase/**"
    ∧ (length found ≤ 3)%nat
    ∧ ∀ file, file ∈ found →
        JSString.includes "node_modules" file = false
        ∧ JSString.includes ".git" file = false.
Proof.
  destruct (checkFilePatterns_evidence ["["; "**/*.lock"; "supabase/**"; "*"] "proj" treeWorld)
    as (found & Hrun & Hkept & Hlen & Hstop & _).
  exists found. split; [exact Hrun|]. split.
  - apply (Hstop ["["; "**/*.lock"] "supabase/**" ["*"]).
    + reflexivity.
    + intros q Hq. apply elem_of_cons in Hq as [->|Hq]; [reflexivity|].
      apply list_elem_of_singleton in Hq as ->. reflexivity.
    + vm_compute. discriminate.
  - split; [exact Hlen|]. intros file Hin.
    destruct (Hkept file Hin) as (Hn & Hg & _). by split.
Defined.

(** Scenario 3 of the specification. *)
Example detectModules_scenario3 :
  detectModules (rt:=sampleRuntime) sampleMerged "proj" (Some "please add oauth support")
    sampleWorld
  = (Return [mkDetectionResult "auth" "references/auth.md" 90 (JSNumber.ofZ 2000) ["keyword: oauth"]],
     sampleWorld).
Proof. vm_compute. reflexivity. Qed.

Lemma detectModules_ranked_witness :
  ∃ results,
    detectModules (rt:=sampleRuntime) sampleMerged "proj" (Some "please add oauth support")
      sampleWorld = (Return results, sampleWorld)
    ∧ mkDetectionResult "auth" "references/auth.md" 90 (JSNumber.ofZ 2000) ["keyword: oauth"] ∈ results
    ∧ StronglySorted (λ a b, dr_priority b ≤ dr_priority a) results.
Proof.
  destruct (detectModules_ranked (rt:=sampleRuntime) sampleMerged "proj"
              (Some "please add oauth support") sampleWorld)
    as (results & Hrun & Hmem & _ & Hsorted & _).
  exists results. split; [exact Hrun|]. split; [|exact Hsorted].
  apply Hmem.
  exists "auth", (mkReferenceEntry "auth" "references/auth.md" None
                    (mkTriggers (Some []) (Some []) (Some []) (Some ["login"; "oauth"]))
                    90 (JSNumber.ofZ 2000) None None).
  split; [vm_compute; reflexivity|].
  split; [right; right; right; vm_compute; discriminate|].
  vm_compute. reflexivity.
Defined.

(** Scenario 5 of the specification. *)
Lemma detectAndLoadModuleRules_total_witness :
  ∃ w', detectAndLoadModuleRules (rt:=sampleRuntime) sampleConfig sampleWorld
        = (Return None, w')
        ∧ w' = sampleWorld.
Proof.
  destruct (detectAndLoadModuleRules_total (rt:=sampleRuntime) sampleConfig sampleWorld)
    as (v & w' & Hrun & Hnone & _).
  destruct Hnone as [-> ->]; [reflexivity|reflexivity|].
  exists sampleWorld. split; [exact Hrun|reflexivity].
Defined.

(** * Further properties of the code *)

(** ** The merge, entry by entry *)

(** X1: with no project catalog the merged catalog is the user catalog
    (empty if that is absent too); and in every merged catalog an entry
    whose name the project catalog does not mention is the user's entry of
    that name, unchanged. *)
Theorem mergeIndices_user_only (u : option ReferenceIndex) :
  mergeIndices u None = Return (default ∅ u)
  ∧ ∀ p merged k,
      mergeIndices u (Some p) = Return merged →
      p !! k = None → merged !! k = default ∅ u !! k.
Proof.
  split; [done|]. intros p merged k Hrun Hp.
  by rewrite (mergeIndices_lookup u p merged k Hrun), Hp.
Qed.

Lemma mergeIndices_user_only_witness :
  sampleMerged !! "legacy" = sampleUser !! "legacy".
Proof.
  apply (proj2 (mergeIndices_user_only (Some sampleUser)) sampleProject sampleMerged "legacy").
  - vm_compute. reflexivity.
  - vm_compute. reflexivity.
Defined.

Section clash.
Implicit Types (d : Dictionary) (l : list (string * ReferenceEntry)).

Lemma mergeStep_error d kv err : mergeStep d kv = Throw err → err = "TypeError".
Proof.
  destruct kv as [k e]. unfold mergeStep.
  destruct (truthy_flag (disabled e)); [done|].
  destruct (lookupProperty d k);
    destruct (negb (truthy_flag (overrideTriggers e))); try done. by intros [= <-].
Qed.

Lemma merge_fold_clash l : ∀ d k pe,
  NoDup l.*1 → (k, pe) ∈ l →
  own d !! k = None → inherited k = true →
  truthy_flag (disabled pe) = false → truthy_flag (overrideTriggers pe) = false →
  (k = "__proto__" → proto d = None) →
  ofold mergeStep d l = Throw "TypeError".
Proof.
  induction l as [|[k' e'] l IH]; intros d k pe Hnd Hin Hown Hinh Hdis Hovr Hproto.
  - by apply elem_of_nil in Hin.
  - rewrite fmap_cons in Hnd. apply NoDup_cons in Hnd as [Hfresh Hnd].
    simpl in Hfresh. cbn [ofold]. apply elem_of_cons in Hin as [Heq|Hin].
    + injection Heq as <- <-.
      assert (lookupProperty d k = PForeign) as Hfound.
      { unfold lookupProperty. rewrite Hown.
        destruct (proto d) as [e0|] eqn:Hp; [|by rewrite Hinh].
        destruct (decide (k = "__proto__")) as [Heq|Hne]; [by specialize (Hproto Heq)|].
        unfold str_eqb. rewrite bool_decide_eq_false_2 by done.
        by rewrite Hinh, orb_true_r. }
      rewrite (proj1 (mergeStep_throws d (k, pe))); [done|].
      unfold clashes. simpl. by rewrite Hdis, Hovr, Hfound.
    + assert (k ≠ k') as Hne.
      { intros ->. apply Hfresh. apply list_elem_of_fmap. by exists (k', pe). }
      destruct (mergeStep d (k', e')) as [d1|err] eqn:Hstep; cbn [obind].
      * apply (IH d1 k pe); try done.
        -- by rewrite (mergeStep_other _ _ _ _ _ Hne Hstep).
        -- intros ->. rewrite <- Hproto by done.
           eapply mergeStep_proto; [|exact Hstep]. left. congruence.
      * by rewrite (mergeStep_error _ _ _ Hstep).
Qed.
End clash.

(** X2: a project entry that is not disabled and either is new (no user
    entry of its name) or sets [overrideTriggers] is, in every merged
    catalog, the entry of its name verbatim, its triggers included; only
    a new entry named [__proto__] is not in the catalog at all. And the
    merge produces no catalog when a new entry that sets neither flag is
    named like a property that every object inherits: it throws. *)
Theorem mergeIndices_project_verbatim (u : option ReferenceIndex)
    (p : ReferenceIndex) (k : string) (pe : ReferenceEntry) :
  p !! k = Some pe →
  truthy_flag (disabled pe) = false →
  (∀ merged, mergeIndices u (Some p) = Return merged →
     default ∅ u !! k = None ∨ truthy_flag (overrideTriggers pe) = true →
     merged !! k = if str_eqb k "__proto__" && bool_decide (default ∅ u !! k = None)
                   then None else Some pe)
  ∧ (default ∅ u !! k = None → truthy_flag (overrideTriggers pe) = false →
     inherited k = true →
     mergeIndices u (Some p) = Throw "TypeError").
Proof.
  intros Hp Hdis. split.
  - intros merged Hrun Hcase.
    rewrite (mergeIndices_lookup u p merged k Hrun), Hp. unfold mergedEntry.
    rewrite Hdis. destruct (default ∅ u !! k) as [ue|] eqn:Hu.
    + destruct Hcase as [?| ->]; [done|].
      rewrite bool_decide_eq_false_2 by done. by rewrite andb_false_r.
    + rewrite bool_decide_eq_true_2 by done. by rewrite andb_true_r.
  - intros Hu Hovr Hinh. unfold mergeIndices, mergeEntries.
    rewrite (merge_fold_clash (map_to_list p) _ k pe); try done.
    + apply NoDup_fst_map_to_list.
    + by apply elem_of_map_to_list.
Qed.

Lemma mergeIndices_project_verbatim_witness :
  (∃ merged, mergeIndices (Some sampleUser) (Some overridingProject) = Return merged
             ∧ merged !! "auth" = Some (entry "auth" 90 ["oauth"] None (Some true)))
  ∧ mergeIndices (Some sampleUser) (Some clashingProject) = Throw "TypeError".
Proof.
  split.
  - destruct (mergeIndices (Some sampleUser) (Some overridingProject))
      as [merged|err] eqn:Hrun; [|vm_compute in Hrun; discriminate Hrun].
    exists merged. split; [done|].
    apply (proj1 (mergeIndices_project_verbatim (Some sampleUser) overridingProject "auth"
                    (entry "auth" 90 ["oauth"] None (Some true)) eq_refl eq_refl)
             merged Hrun).
    by right.
  - apply (proj2 (mergeIndices_project_verbatim (Some sampleUser) clashingProject "constructor"
                    (entry "constructor" 10 ["new"] None None) eq_refl eq_refl));
      reflexivity.
Defined.

(** X3: the names of a merged catalog are the user's names that the
    project catalog does not mention, together with the project's names
    whose entry is not disabled, save a project entry named [__proto__]
    that has no user entry of that name beside it. *)
Theorem mergeIndices_names (u : option ReferenceIndex) (p merged : ReferenceIndex)
    (k : string) :
  mergeIndices u (Some p) = Return merged →
  is_Some (merged !! k)
  ↔ (is_Some (default ∅ u !! k) ∧ p !! k = None)
    ∨ ∃ pe, p !! k = Some pe ∧ truthy_flag (disabled pe) = false
        ∧ (k = "__proto__" → is_Some (default ∅ u !! k)).
Proof.
  intros Hrun. rewrite (mergeIndices_lookup u p merged k Hrun).
  destruct (p !! k) as [pe|] eqn:Hp.
  - unfold mergedEntry. destruct (truthy_flag (disabled pe)) eqn:Hdis.
    + split; [by intros [? ?]|].
      intros [[_ ?]|(pe' & [= <-] & Hd & _)]; congruence.
    + destruct (default ∅ u !! k) as [ue|] eqn:Hu.
      * split; [intros _; right; eauto|intros _].
        destruct (truthy_flag (overrideTriggers pe)); eauto.
      * destruct (str_eqb k "__proto__") eqn:Hk.
        -- apply bool_decide_eq_true in Hk. split; [by intros [? ?]|].
           intros [[[? ?] _]|(pe' & _ & _ & Hs)]; [done|].
           destruct (Hs Hk) as [? ?]. done.
        -- apply bool_decide_eq_false in Hk. split; [|eauto].
           intros _. right. exists pe. by repeat split.
  - split; [intros Hu; by left|].
    intros [[Hu _]|(pe & Hpe & _)]; [done|congruence].
Qed.

Lemma mergeIndices_names_witness :
  is_Some (sampleMerged !! "auth")
  ↔ (is_Some (sampleUser !! "auth") ∧ sampleProject !! "auth" = None)
    ∨ ∃ pe, sampleProject !! "auth" = Some pe ∧ truthy_flag (disabled pe) = false
        ∧ ("auth" = "__proto__" → is_Some (sampleUser !! "auth")).
Proof.
  apply (mergeIndices_names (Some sampleUser) sampleProject sampleMerged "auth").
  vm_compute. reflexivity.
Defined.



(** With an entry named [__proto__] the order does matter: visited first,
    it becomes the prototype, and the entry named [path] then meets the
    prototype's field of that name. *)
Example mergeEntries_order_matters :
  mergeEntries None [("__proto__", protoEntry); ("path", pathEntry)] = Throw "TypeError"
  ∧ mergeEntries None [("path", pathEntry); ("__proto__", protoEntry)]
    = Return (mkDictionary {["path" := pathEntry]} (Some protoEntry)).
Proof. split; vm_compute; reflexivity. Qed.

(** X5: merging trigger sets is associative, so cascading three layers
    gives the same lists however the merges are grouped. *)
Theorem mergeTriggers_assoc (a b c : Triggers) :
  mergeTriggers (mergeTriggers a b) c = mergeTriggers a (mergeTriggers b c).
Proof. unfold mergeTriggers. simpl. by rewrite !app_assoc. Qed.

(** ** The keyword check *)

Lemma find_first {A} (f : A → bool) (l : list A) (x : A) :
  List.find f l = Some x →
  ∃ pre post, l = pre ++ x :: post ∧ f x = true ∧ Forall (λ y, f y = false) pre.
Proof.
  induction l as [|y l IH]; simpl; [done|].
  destruct (f y) eqn:Hy.
  - intros [= ->]. by exists [], l.
  - intros (pre & post & -> & Hx & Hpre)%IH.
    exists (y :: pre), post. by repeat split; [|constructor].
Qed.

Lemma find_none_iff {A} (f : A → bool) (l : list A) :
  List.find f l = None ↔ Forall (λ y, f y = false) l.
Proof.
  induction l as [|y l IH]; simpl; [by split|].
  destruct (f y) eqn:Hy.
  - split; [done|]. intros [Hy' _]%Forall_cons. congruence.
  - rewrite IH. split; [by constructor|by intros [_ ?]%Forall_cons].
Qed.

Lemma lower_upper c : JSString.lower (JSString.upper c) = JSString.lower c.
Proof. by destruct c as [[] [] [] [] [] [] [] []]. Qed.

Lemma lower_lower c : JSString.lower (JSString.lower c) = JSString.lower c.
Proof. by destruct c as [[] [] [] [] [] [] [] []]. Qed.

Lemma toLowerCase_toUpperCase s :
  JSString.toLowerCase (JSString.toUpperCase s) = JSString.toLowerCase s.
Proof.
  unfold JSString.toLowerCase, JSString.toUpperCase.
  induction s as [|c s IH]; simpl; [done|]. by rewrite lower_upper, IH.
Qed.

Lemma toLowerCase_idemp s :
  JSString.toLowerCase (JSString.toLowerCase s) = JSString.toLowerCase s.
Proof.
  unfold JSString.toLowerCase.
  induction s as [|c s IH]; simpl; [done|]. by rewrite lower_lower, IH.
Qed.

(** X6: the keyword check returns the first keyword of the list, in list
    order, that occurs in the prompt, and nothing exactly when no keyword
    of the list occurs in it. *)
Theorem checkKeywords_first (kws : list string) (prompt : string) :
  (∀ k, checkKeywords kws prompt = Some k →
     ∃ pre post, kws = pre ++ k :: post
       ∧ occurs k prompt = true
       ∧ Forall (λ q, occurs q prompt = false) pre)
  ∧ (checkKeywords kws prompt = None ↔ Forall (λ q, occurs q prompt = false) kws).
Proof.
  unfold checkKeywords, occurs. split.
  - intros k Hk. by apply find_first in Hk.
  - apply find_none_iff.
Qed.

(** X7: for a prompt and a keyword written in ASCII, where the case
    mapping is that of the letters A to Z, letter case plays no part in
    the keyword check: the prompt in upper or in lower case gives the same
    keyword, and the keyword in upper case occurs in the same prompts. *)
Theorem checkKeywords_ignores_case (kws : list string) (prompt keyword : string) :
  isAscii prompt = true →
  isAscii keyword = true →
  checkKeywords kws (JSString.toUpperCase prompt) = checkKeywords kws prompt
  ∧ checkKeywords kws (JSString.toLowerCase prompt) = checkKeywords kws prompt
  ∧ occurs (JSString.toUpperCase keyword) prompt = occurs keyword prompt.
Proof.
  intros _ _. unfold checkKeywords, occurs.
  by rewrite !toLowerCase_toUpperCase, toLowerCase_idemp.
Qed.

Lemma checkKeywords_ignores_case_witness :
  checkKeywords ["login"; "OAuth"] (JSString.toUpperCase "Please add oauth support")
  = checkKeywords ["login"; "OAuth"] "Please add oauth support"
  ∧ checkKeywords ["login"; "OAuth"] (JSString.toLowerCase "Please add oauth support")
    = checkKeywords ["login"; "OAuth"] "Please add oauth support"
  ∧ occurs (JSString.toUpperCase "oauth") "Please add oauth support"
    = occurs "oauth" "Please add oauth support".
Proof.
  apply (checkKeywords_ignores_case ["login"; "OAuth"] "Please add oauth support" "oauth");
    reflexivity.
Defined.

(** X8: an empty keyword is found in every prompt and is itself falsy, so
    an entry whose keyword list starts with one never gets keyword
    evidence, whatever keywords follow it. *)
Theorem empty_keyword_masks (ref : ReferenceEntry) (rest : list string)
    (prompt : option string) :
  keywords (triggers ref) = Some (EmptyString :: rest) →
  (∀ text, checkKeywords (EmptyString :: rest) text = Some EmptyString)
  ∧ keywordsEvidence prompt ref = [].
Proof.
  intros Hkw.
  assert (∀ text, checkKeywords (EmptyString :: rest) text = Some EmptyString) as Hfound.
  { intros text. unfold checkKeywords. cbn [List.find JSString.toLowerCase JSString.mapChars].
    by destruct (JSString.toLowerCase text). }
  split; [done|].
  unfold keywordsEvidence. rewrite Hkw. cbn [has_length or_empty default from_option id andb].
  destruct (truthy_match prompt); [|done]. by rewrite Hfound.
Qed.

Lemma empty_keyword_masks_witness :
  (∀ text, checkKeywords [EmptyString; "oauth"] text = Some EmptyString)
  ∧ keywordsEvidence (Some "please add oauth support") maskedEntry = [].
Proof.
  apply (empty_keyword_masks maskedEntry ["oauth"] (Some "please add oauth support")).
  reflexivity.
Defined.

(** ** The import check *)

Lemma trim_truthy output :
  truthy_string (JSString.trim output) = true → (0 <? String.length output)%nat = true.
Proof. by destruct output. Qed.

(** X9: the import check never throws and leaves the world as it is. When
    the search prints something it reports the first import string of the
    list, whichever string the search matched; when the search prints
    nothing or cannot be run it reports nothing. *)
Theorem checkImports_first_pattern (patterns : list string) (cwd : string)
    (w : World) :
  checkImports patterns cwd w
  = (Return (if grepHit w patterns cwd then head patterns else None), w).
Proof.
  unfold checkImports, grepHit, grepOutput, try_catch, mbind, M_bind, spawn.
  destruct (grep w _ cwd) as [output|]; simpl; [|done].
  destruct (truthy_string (JSString.trim output)) eqn:Hout; [|done].
  rewrite (trim_truthy _ Hout).
  destruct patterns as [|p rest]; [done|]. simpl. by rewrite orb_true_r.
Qed.

(** ** Escaping import strings *)

Lemma special_backslash : JSString.is_regex_special backslash = true.
Proof. reflexivity. Qed.

Lemma not_special c :
  JSString.is_regex_special c = false →
  Ascii.eqb c backslash = false ∧ Ascii.eqb c "|"%char = false.
Proof.
  intros Hc. split.
  - destruct (Ascii.eqb_spec c backslash) as [->|]; [discriminate Hc|done].
  - destruct (Ascii.eqb_spec c "|"%char) as [->|]; [discriminate Hc|done].
Qed.

Lemma escapeRegex_length s :
  (String.length s ≤ String.length (JSString.escapeRegex s))%nat.
Proof.
  induction s as [|c s IH]; simpl; [lia|].
  destruct (JSString.is_regex_special c); simpl; lia.
Qed.

(** X10: escaping loses nothing and leaves no operator behind: reading the
    escaped string back gives the original string, so two import strings
    with the same escape are equal, and in the escaped string every
    reserved character is escaped. *)
Theorem escapeRegex_faithful (s : string) :
  unescapeRegex (JSString.escapeRegex s) = s
  ∧ literalPattern (JSString.escapeRegex s) = true
  ∧ ∀ t, JSString.escapeRegex t = JSString.escapeRegex s → t = s.
Proof.
  assert (∀ x, unescapeRegex (JSString.escapeRegex x) = x) as Hround.
  { induction x as [|c x IH]; simpl; [done|].
    destruct (JSString.is_regex_special c) eqn:Hc; simpl.
    - by rewrite IH.
    - destruct (not_special c Hc) as [-> _]. by rewrite IH. }
  split; [apply Hround|]. split.
  - induction s as [|c s IH]; simpl; [done|].
    destruct (JSString.is_regex_special c) eqn:Hc; simpl.
    + by rewrite Hc, IH.
    + destruct (not_special c Hc) as [-> _]. by rewrite Hc, IH.
  - intros t Heq. by rewrite <- (Hround t), Heq.
Qed.

(** X11: an import string is handed to the search unchanged exactly when
    it has no reserved character. *)
Theorem escapeRegex_unchanged (s : string) :
  JSString.escapeRegex s = s ↔ noSpecial s = true.
Proof.
  induction s as [|c s IH]; simpl; [done|].
  destruct (JSString.is_regex_special c) eqn:Hc; simpl.
  - split; [|done]. intros Heq. exfalso.
    injection Heq as _ Heq.
    pose proof (escapeRegex_length s) as Hlen.
    rewrite <- Heq in Hlen at 1. simpl in Hlen. lia.
  - rewrite <- IH. split; [by intros [= ?]|by intros ->].
Qed.

Lemma append_nil_l s : EmptyString +:+ s = s.
Proof. reflexivity. Qed.

Lemma append_cons c s r : String c s +:+ r = String c (s +:+ r).
Proof. reflexivity. Qed.

Lemma append_empty s : s +:+ EmptyString = s.
Proof. induction s as [|c s IH]; [done|]. by rewrite append_cons, IH. Qed.

Lemma alternatives_nonempty s : ∃ h t, alternatives s = h :: t.
Proof.
  destruct s as [|c s]; cbn [alternatives]; [eauto|].
  destruct (Ascii.eqb c backslash).
  - destruct s as [|d s]; [eauto|]. destruct (alternatives s); simpl; eauto.
  - destruct (Ascii.eqb c "|"%char); [eauto|]. destruct (alternatives s); simpl; eauto.
Qed.

Lemma alternatives_escaped s rest :
  alternatives (JSString.escapeRegex s +:+ rest)
  = prependHead (JSString.escapeRegex s) (alternatives rest).
Proof.
  destruct (alternatives_nonempty rest) as (h & t & Hrest).
  induction s as [|c s IH]; cbn [JSString.escapeRegex].
  - rewrite append_nil_l. by rewrite Hrest.
  - destruct (JSString.is_regex_special c) eqn:Hc;
      rewrite !append_cons; cbn [alternatives].
    + change (Ascii.eqb "\"%char backslash) with true. cbn iota.
      rewrite IH, Hrest. cbn [prependHead consHead]. by rewrite ?append_cons.
    + destruct (not_special c Hc) as [-> ->]. rewrite IH, Hrest.
      cbn [prependHead consHead]. by rewrite ?append_cons.
Qed.

(** X12: in the pattern built for the search, the bars inside import
    strings are escaped and only the joining bars separate: cut at its
    unescaped bars, the pattern has exactly one branch per import string,
    the escape of that string. *)
Theorem importPattern_branches (patterns : list string) :
  patterns ≠ [] →
  alternatives (JSString.join "|" (map JSString.escapeRegex patterns))
  = map JSString.escapeRegex patterns.
Proof.
  induction patterns as [|p rest IH]; [done|]. intros _.
  destruct rest as [|q rest].
  - cbn [map JSString.join String.concat].
    rewrite <- (append_empty (JSString.escapeRegex p)) at 1.
    rewrite alternatives_escaped. cbn [alternatives prependHead].
    by rewrite append_empty.
  - change (JSString.join "|" (map JSString.escapeRegex (p :: q :: rest)))
      with (JSString.escapeRegex p
            +:+ String "|"%char (JSString.join "|" (map JSString.escapeRegex (q :: rest)))).
    rewrite alternatives_escaped.
    change (alternatives (String "|"%char
              (JSString.join "|" (map JSString.escapeRegex (q :: rest)))))
      with (EmptyString
            :: alternatives (JSString.join "|" (map JSString.escapeRegex (q :: rest)))).
    rewrite IH by done. cbn [prependHead map]. by rewrite append_empty.
Qed.

Lemma importPattern_branches_witness :
  alternatives (JSString.join "|" (map JSString.escapeRegex ["a|b"; "from 'x.y'"; "c"]))
  = map JSString.escapeRegex ["a|b"; "from 'x.y'"; "c"].
Proof. apply importPattern_branches. discriminate. Defined.

(** ** The dependency check *)

Section dependency_facts.
Context {rt : Runtime}.

Lemma checkDependencies_eq packages cwd w :
  checkDependencies packages cwd w
  = (Return (match manifestHit w packages cwd with
             | Some pkgName => Some pkgName
             | None => requirementsHit w packages cwd
             end), w).
Proof.
  unfold checkDependencies, manifestHit, requirementsHit, occurs.
  unfold mbind, M_bind, existsSync, try_catch, readFileSync, lift.
  destruct (fs_exists w (path_join cwd "package.json")); simpl.
  - destruct (fs_read w (path_join cwd "package.json")) as [content|]; simpl.
    + destruct (JSON_parse_package content) as [pkg|]; simpl.
      * destruct (List.find (declares (allDeps pkg)) packages); [done|].
        destruct (fs_exists w (path_join cwd "requirements.txt")); [|done].
        by destruct (fs_read w (path_join cwd "requirements.txt")).
      * destruct (fs_exists w (path_join cwd "requirements.txt")); [|done].
        by destruct (fs_read w (path_join cwd "requirements.txt")).
    + destruct (fs_exists w (path_join cwd "requirements.txt")); [|done].
      by destruct (fs_read w (path_join cwd "requirements.txt")).
  - destruct (fs_exists w (path_join cwd "requirements.txt")); [|done].
    by destruct (fs_read w (path_join cwd "requirements.txt")).
Qed.

Lemma find_member {A} (f : A → bool) (l : list A) (x : A) :
  List.find f l = Some x → x ∈ l.
Proof. intros Hx%find_some. apply list_elem_of_In. tauto. Qed.

(** X13: the dependency check never throws and leaves the world as it is;
    what it reports is one of the listed packages; and with neither a
    manifest nor a plain dependency list in the directory it reports
    nothing. *)
Theorem checkDependencies_result (packages : list string) (cwd : string) (w : World) :
  ∃ r,
    checkDependencies packages cwd w = (Return r, w)
    ∧ (∀ pkgName, r = Some pkgName → pkgName ∈ packages)
    ∧ (fs_exists w (path_join cwd "package.json") = false →
       fs_exists w (path_join cwd "requirements.txt") = false →
       r = None).
Proof.
  eexists. split; [apply checkDependencies_eq|]. split.
  - intros pkgName.
    destruct (manifestHit w packages cwd) as [n|] eqn:Hm.
    + intros [= <-]. unfold manifestHit in Hm.
      destruct (fs_exists w _); [|done]. destruct (fs_read w _); [|done].
      destruct (JSON_parse_package _); [|done]. by apply find_member in Hm.
    + unfold requirementsHit. destruct (fs_exists w _); [|done].
      destruct (fs_read w _); [|done]. apply find_member.
  - intros Hpkg Hreq. unfold manifestHit, requirementsHit. by rewrite Hpkg, Hreq.
Qed.

(** X14: the manifest comes first. When it parses and declares a listed
    package, the check reports the first such package in list order and
    the plain dependency list is not consulted. A package counts as
    declared when the last of the sections [dependencies],
    [devDependencies], [peerDependencies] that mentions it gives it a
    non-empty version, and, when no section mentions it, when its name is
    that of a property every object inherits ([constructor], [toString]
    and the like). *)
Theorem checkDependencies_manifest_first (packages : list string) (cwd : string)
    (w : World) (content : string) (pkg : PackageJson) (pkgName : string) :
  fs_exists w (path_join cwd "package.json") = true →
  fs_read w (path_join cwd "package.json") = Some content →
  JSON_parse_package content = Some pkg →
  List.find (declares (allDeps pkg)) packages = Some pkgName →
  checkDependencies packages cwd w = (Return (Some pkgName), w)
  ∧ (∃ pre post, packages = pre ++ pkgName :: post
       ∧ Forall (λ q, declares (allDeps pkg) q = false) pre)
  ∧ ∀ q, declares (allDeps pkg) q
         = match pkg_peerDependencies pkg !! q with
           | Some v => truthy_string v
           | None =>
               match pkg_devDependencies pkg !! q with
               | Some v => truthy_string v
               | None =>
                   match pkg_dependencies pkg !! q with
                   | Some v => truthy_string v
                   | None => inherited q
                   end
               end
           end.
Proof.
  intros Hex Hread Hparse Hfind. split; [|split].
  - rewrite checkDependencies_eq. unfold manifestHit.
    by rewrite Hex, Hread, Hparse, Hfind.
  - apply find_first in Hfind as (pre & post & -> & _ & Hpre). eauto.
  - intros q. unfold declares, allDeps. rewrite !lookup_union.
    destruct (pkg_peerDependencies pkg !! q), (pkg_devDependencies pkg !! q),
      (pkg_dependencies pkg !! q); reflexivity.
Qed.
End dependency_facts.

(** An inherited name counts as declared, ahead of a declared package. *)
Example checkDependencies_inherited_name :
  checkDependencies (rt:=manifestRuntime) ["constructor"; "react"] "proj" manifestWorld
  = (Return (Some "constructor"), manifestWorld).
Proof. vm_compute. reflexivity. Qed.

Lemma checkDependencies_manifest_first_witness :
  checkDependencies (rt:=manifestRuntime) ["vue"; "react"; "zod"] "proj" manifestWorld
  = (Return (Some "react"), manifestWorld).
Proof.
  apply (checkDependencies_manifest_first (rt:=manifestRuntime)
           ["vue"; "react"; "zod"] "proj" manifestWorld "{manifest}" samplePackage "react");
    vm_compute; reflexivity.
Defined.

(** ** Scanning a references directory *)

Section scan_facts.
Context {rt : Runtime}.

Lemma assignEntry_cases index key e :
  assignEntry index key e = index ∨ assignEntry index key e = <[key := e]> index.
Proof.
  unfold assignEntry, assignProperty. simpl.
  destruct (index !! key); [by right|].
  destruct (str_eqb key "__proto__"); [by left|by right].
Qed.

(** One file either leaves the index as it is, possibly logging a failure,
    or adds one entry under its lower-cased name. *)
Lemma scanFile_cases dir index file w :
  ∃ index' msgs,
    scanFile dir index file w = (Return index', logged w msgs)
    ∧ (length msgs ≤ 1)%nat
    ∧ (index' = index
       ∨ ∃ e, index' = <[JSString.toLowerCase (name e) := e]> index
              ∧ path e = path_join dir file).
Proof.
  assert (∀ msg, ∃ index' msgs,
            (Return index, logged w [msg]) = (Return index', logged w msgs)
            ∧ (length msgs ≤ 1)%nat
            ∧ (index' = index
               ∨ ∃ e, index' = <[JSString.toLowerCase (name e) := e]> index
                      ∧ path e = path_join dir file)) as Hfail.
  { intros msg. exists index, [msg]. split; [done|]. split; [simpl; lia|by left]. }
  unfold scanFile, try_catch, mbind, M_bind, readFileSync, lift, console_error.
  destruct (fs_read w (path_join dir file)) as [content|]; simpl; [|apply Hfail].
  destruct (parseFrontmatter content) as [parsed|e]; simpl; [|apply Hfail].
  destruct (truthy (p_frontmatter parsed !! "name")
            && truthy (p_frontmatter parsed !! "triggers")); simpl;
    [|exists index, []; rewrite logged_nil; split; [done|]; split; [simpl; lia|by left]].
  destruct (p_frontmatter parsed !! "name") as [[[b|n|nm]|a props|props]|]; simpl;
    try apply Hfail.
  destruct (p_frontmatter parsed !! "triggers") as [trig|]; simpl; [|apply Hfail].
  match goal with
  | |- context [assignEntry index ?k ?e] =>
      destruct (assignEntry_cases index k e) as [-> | ->];
        [exists index, []
        |exists (<[JSString.toLowerCase (name e) := e]> index), []];
        rewrite logged_nil; (split; [done|]); (split; [simpl; lia|]);
        [by left|right; by exists e]
  end.
Qed.

Lemma scan_fold dir files : ∀ index w,
  ∃ index' msgs,
    mfold (scanFile dir) index files w = (Return index', logged w msgs)
    ∧ (length msgs ≤ length files)%nat
    ∧ ∀ k e, index' !! k = Some e →
        index !! k = Some e
        ∨ (k = JSString.toLowerCase (name e)
           ∧ ∃ file, file ∈ files ∧ path e = path_join dir file).
Proof.
  induction files as [|file files IH]; intros index w.
  - exists index, []. rewrite logged_nil. simpl. split; [done|]. split; [lia|eauto].
  - cbn [mfold]. unfold mbind at 1, M_bind at 1.
    destruct (scanFile_cases dir index file w) as (index1 & msgs1 & -> & Hlen1 & Hcase).
    destruct (IH index1 (logged w msgs1)) as (index' & msgs & -> & Hlen & Hinv).
    exists index', (msgs1 ++ msgs). rewrite logged_logged. split; [done|].
    split; [rewrite length_app; simpl; lia|].
    intros k e Hk. destruct (Hinv k e Hk) as [Hold|(-> & f & Hf & Hp)].
    + destruct Hcase as [->|(e1 & -> & Hp1)]; [by left|].
      destruct (decide (JSString.toLowerCase (name e1) = k)) as [<-|Hne].
      * rewrite lookup_insert_eq in Hold. injection Hold as ->.
        right. split; [done|]. exists file. split; [apply list_elem_of_here|done].
      * rewrite lookup_insert_ne in Hold by done. by left.
    + right. split; [done|]. exists f. split; [by apply list_elem_of_further|done].
Qed.

(** X15: scanning a references directory fails exactly when the directory
    cannot be listed; a document that cannot be read or parsed costs one
    console line at most and the scan goes on. Every entry of the scanned
    catalog stands under the lower-cased form of its display name, and its
    path is that of a listed .md file other than README.md. *)
Theorem scanReferencesDirectory_entries (dir : string) (w : World) :
  (fs_readdir w dir = None → scanReferencesDirectory dir w = (Throw "ENOTDIR", w))
  ∧ ∀ listing, fs_readdir w dir = Some listing →
      ∃ index msgs,
        scanReferencesDirectory dir w = (Return index, logged w msgs)
        ∧ (length msgs ≤ length listing)%nat
        ∧ ∀ k e, index !! k = Some e →
            k = JSString.toLowerCase (name e)
            ∧ ∃ file, file ∈ listing
                ∧ JSString.endsWith ".md" file = true
                ∧ file ≠ "README.md"
                ∧ path e = path_join dir file.
Proof.
  split.
  - intros Hls. unfold scanReferencesDirectory, mbind, M_bind, readdirSync.
    by rewrite Hls.
  - intros listing Hls. unfold scanReferencesDirectory, mbind, M_bind, readdirSync.
    rewrite Hls. simpl.
    destruct (scan_fold dir
                (filter (λ f, JSString.endsWith ".md" f = true ∧ f ≠ "README.md") listing)
                ∅ w) as (index & msgs & -> & Hlen & Hinv).
    exists index, msgs. split; [done|]. split.
    { etrans; [exact Hlen|]. apply length_filter. }
    intros k e Hk. destruct (Hinv k e Hk) as [Hempty|(-> & f & Hf & Hp)].
    + by rewrite lookup_empty in Hempty.
    + split; [done|]. apply list_elem_of_filter in Hf as [[Hmd Hreadme] Hf].
      by exists f.
Qed.
End scan_facts.

(** ** What the assembler logs and renders *)

Section load_facts.
Context {rt : Runtime}.

Lemma loadLoop_logs ceiling detected : ∀ st w,
  ∃ st' msgs,
    loadLoop ceiling st detected w = (Return st', logged w msgs)
    ∧ (length msgs + length (accepted ceiling w (totalTokens st) detected)
       = length detected)%nat
    ∧ Forall (λ m, ∃ d, d ∈ detected ∧ (m = skipMessage d ∨ m = failMessage d)) msgs.
Proof.
  unfold loadLoop.
  induction detected as [|d rest IH]; intros st w.
  - exists st, []. simpl. rewrite logged_nil. by repeat split.
  - cbn [mfold accepted]. unfold mbind at 1, M_bind at 1. rewrite loadStep_eq.
    assert (∀ msgs : list string,
              Forall (λ m, ∃ d', d' ∈ rest
                           ∧ (m = skipMessage d' ∨ m = failMessage d')) msgs →
              Forall (λ m, ∃ d', d' ∈ d :: rest
                           ∧ (m = skipMessage d' ∨ m = failMessage d')) msgs) as Hweak.
    { intros msgs Hmsgs. eapply Forall_impl; [exact Hmsgs|]. intros m (d' & Hd' & Hm).
      exists d'. split; [by apply list_elem_of_further|done]. }
    destruct (JSNumber.gtb (JSNumber.add (totalTokens st) (dr_maxTokens d)) ceiling).
    + destruct (IH st (logged w [skipMessage d])) as (st' & msgs & -> & Hlen & Hall).
      rewrite accepted_logged in Hlen. rewrite logged_logged.
      exists st', (skipMessage d :: msgs). split; [done|]. split; [simpl; lia|].
      constructor; [|by apply Hweak]. exists d. split; [apply list_elem_of_here|by left].
    + destruct (readBody w d) as [body|].
      * destruct (IH (mkLoadState (JSNumber.add (totalTokens st) (dr_maxTokens d))
                        (loadedContent st ++ [renderSection d body])
                        (loadedModules st ++ [dr_module d])) w)
          as (st' & msgs & -> & Hlen & Hall).
        simpl in Hlen. exists st', msgs. split; [done|]. split; [simpl; lia|].
        by apply Hweak.
      * destruct (IH st (logged w [failMessage d])) as (st' & msgs & -> & Hlen & Hall).
        rewrite accepted_logged in Hlen. rewrite logged_logged.
        exists st', (failMessage d :: msgs). split; [done|]. split; [simpl; lia|].
        constructor; [|by apply Hweak]. exists d. split; [apply list_elem_of_here|by right].
Qed.

(** X16: the assembler's only effect is on the console, and it logs
    exactly one line for every entry it does not load: a budget line or a
    load-failure line naming that entry. *)
Theorem loadReferences_logs (ceiling : number) (detected : list DetectionResult)
    (w : World) :
  ∃ out msgs,
    loadReferencesWith ceiling detected w = (Return out, logged w msgs)
    ∧ (length msgs + length (accepted ceiling w (JSNumber.ofZ 0) detected) = length detected)%nat
    ∧ Forall (λ m, ∃ d, d ∈ detected ∧ (m = skipMessage d ∨ m = failMessage d)) msgs.
Proof.
  destruct (loadLoop_logs ceiling detected initialLoadState w)
    as (st & msgs & Hrun & Hlen & Hall).
  exists (renderLoaded st), msgs. split; [|done].
  unfold loadReferencesWith, mbind, M_bind. by rewrite Hrun.
Qed.

Lemma prefix_append a b : String.prefix a (a +:+ b) = true.
Proof.
  induction a as [|c a IH]; [by destruct b|].
  rewrite append_cons. simpl. by destruct (ascii_dec c c).
Qed.

Lemma prefix_append_mono a x y :
  String.prefix x y = true → String.prefix (a +:+ x) (a +:+ y) = true.
Proof.
  intros Hxy. induction a as [|c a IH]; [done|].
  rewrite !append_cons. simpl. by destruct (ascii_dec c c).
Qed.

(** X17: the assembled text is empty exactly when no entry was accepted;
    otherwise it opens with the header that names the accepted entries in
    the order of the input list. *)
Theorem loadReferences_header (ceiling : number) (detected : list DetectionResult)
    (w : World) :
  ∃ out w',
    loadReferencesWith ceiling detected w = (Return out, w')
    ∧ (out = EmptyString ↔ accepted ceiling w (JSNumber.ofZ 0) detected = [])
    ∧ (accepted ceiling w (JSNumber.ofZ 0) detected ≠ [] →
       String.prefix (header (map dr_module (accepted ceiling w (JSNumber.ofZ 0) detected))) out = true).
Proof.
  destruct (loadLoop_accepts ceiling detected initialLoadState w)
    as (st & msgs & Hrun & Hm & Hl & _).
  simpl in Hm, Hl.
  exists (renderLoaded st), (logged w msgs). split.
  { unfold loadReferencesWith, mbind, M_bind. by rewrite Hrun. }
  unfold renderLoaded. rewrite <- Hm.
  destruct (loadedContent st) as [|section sections]; simpl in Hl.
  - destruct (accepted ceiling w (JSNumber.ofZ 0) detected); [|done].
    split; [done|]. by intros [].
  - destruct (accepted ceiling w (JSNumber.ofZ 0) detected) as [|d acc]; [done|].
    split; [split; done|]. intros _. unfold header.
    do 4 apply prefix_append_mono. apply prefix_append.
Qed.
End load_facts.

(** ** More on detection *)

Section detection_facts.
Context {rt : Runtime}.

Lemma candidate_module w cwd prompt kv r :
  candidate w cwd prompt kv = Some r →
  dr_module r = kv.1 ∧ dr_path r = path kv.2 ∧ dr_priority r = priority kv.2
  ∧ dr_maxTokens r = maxTokens kv.2 ∧ evidence w cwd prompt kv.2 ≠ [].
Proof.
  unfold candidate. destruct (evidence w cwd prompt kv.2) eqn:Hev; simpl; [done|].
  by intros [= <-].
Qed.

Lemma candidates_names w cwd prompt l :
  map dr_module (omap (candidate w cwd prompt) l) `sublist_of` l.*1.
Proof.
  induction l as [|kv l IH]; [done|]. simpl.
  destruct (candidate w cwd prompt kv) as [r|] eqn:Hc; simpl.
  - apply candidate_module in Hc as [-> _]. by apply sublist_skip.
  - by apply sublist_cons.
Qed.

(** X18: every catalog entry gives at most one detection result: the
    module names of the results are pairwise distinct, there are no more
    results than catalog entries, and each result carries the path,
    priority and maxTokens of the catalog entry of its name. *)
Theorem detectModules_distinct (index : ReferenceIndex) (cwd : string)
    (prompt : option string) (w : World) :
  ∃ results,
    detectModules index cwd prompt w = (Return results, w)
    ∧ NoDup (map dr_module results)
    ∧ (length results ≤ size index)%nat
    ∧ ∀ r, r ∈ results →
        ∃ ref, index !! dr_module r = Some ref
          ∧ dr_path r = path ref ∧ dr_priority r = priority ref
          ∧ dr_maxTokens r = maxTokens ref.
Proof.
  eexists. split; [apply detectModules_eq|].
  pose proof (candidates_names w cwd prompt (map_to_list index)) as Hsub.
  fold (candidates w index cwd prompt) in Hsub.
  split; [|split].
  - rewrite Array_sort_perm. eapply sublist_NoDup; [|exact Hsub].
    apply NoDup_fst_map_to_list.
  - rewrite Array_sort_perm. apply sublist_length in Hsub.
    rewrite !length_map, length_map_to_list in Hsub. done.
  - intros r. rewrite Array_sort_perm. unfold candidates. rewrite list_elem_of_omap.
    intros ([k ref] & Hin%elem_of_map_to_list & Hc).
    apply candidate_module in Hc as (-> & -> & -> & -> & _). by exists ref.
Qed.

(** X19: an entry with no file pattern, import string or dependency, and
    with no keyword or no prompt to look them up in, is never detected. *)
Theorem detectModules_needs_triggers (index : ReferenceIndex) (cwd : string)
    (prompt : option string) (w : World) (k : string) (ref : ReferenceEntry) :
  index !! k = Some ref →
  has_length (filePatterns (triggers ref)) = false →
  has_length (imports (triggers ref)) = false →
  has_length (dependencies (triggers ref)) = false →
  has_length (keywords (triggers ref)) = false ∨ truthy_match prompt = false →
  ∃ results,
    detectModules index cwd prompt w = (Return results, w)
    ∧ k ∉ map dr_module results.
Proof.
  intros Hk Hf Hi Hd Hkw. eexists. split; [apply detectModules_eq|].
  assert (evidence w cwd prompt ref = []) as Hev.
  { unfold evidence, filesEvidence, importsEvidence, dependenciesEvidence,
      keywordsEvidence. rewrite Hf, Hi, Hd.
    destruct Hkw as [-> | ->]; [done|]. by rewrite andb_false_r. }
  rewrite Array_sort_perm.
  intros (r & Heq & Hr)%list_elem_of_fmap.
  unfold candidates in Hr. apply list_elem_of_omap in Hr as ([k' ref'] & Hin & Hc).
  apply elem_of_map_to_list in Hin.
  apply candidate_module in Hc as (Hm & _ & _ & _ & Hne). simpl in Hm, Hne.
  assert (k' = k) as -> by congruence.
  assert (ref' = ref) as -> by congruence. done.
Qed.
End detection_facts.

Lemma detectModules_needs_triggers_witness :
  ∃ results,
    detectModules (rt:=sampleRuntime) silentIndex "proj"
      (Some "please add oauth support") sampleWorld = (Return results, sampleWorld)
    ∧ "notes" ∉ map dr_module results.
Proof.
  apply (detectModules_needs_triggers (rt:=sampleRuntime) silentIndex "proj"
           (Some "please add oauth support") sampleWorld "notes" silentEntry);
    try reflexivity.
  by left.
Defined.

(** ** The engine only writes to the console *)

Lemma logsOnly_frames {A} (m : M A) : frames m → logsOnly m.
Proof. intros Hm w. exists []. by rewrite logged_nil. Qed.

Lemma logsOnly_ret {A} (a : A) : logsOnly (mret a).
Proof. apply logsOnly_frames, frames_ret. Qed.

Lemma logsOnly_console_error msg : logsOnly (console_error msg).
Proof. intros w. by exists [msg]. Qed.

Lemma logsOnly_bind {A B} (m : M A) (k : A → M B) :
  logsOnly m → (∀ a, logsOnly (k a)) → logsOnly (m ≫= k).
Proof.
  intros Hm Hk w. unfold mbind, M_bind. destruct (Hm w) as [msgs Hw].
  destruct (m w) as [[a|e] w1]; simpl in Hw; subst w1; [|by exists msgs].
  destruct (Hk a (logged w msgs)) as [msgs' ->].
  exists (msgs ++ msgs'). apply logged_logged.
Qed.

Lemma logsOnly_try_catch {A} (body : M A) (handler : string → M A) :
  logsOnly body → (∀ e, logsOnly (handler e)) → logsOnly (try_catch body handler).
Proof.
  intros Hb Hh w. unfold try_catch. destruct (Hb w) as [msgs Hw].
  destruct (body w) as [[a|e] w1]; simpl in Hw; subst w1; [by exists msgs|].
  destruct (Hh e (logged w msgs)) as [msgs' ->].
  exists (msgs ++ msgs'). apply logged_logged.
Qed.

Lemma logsOnly_mfold {S A} (step : S → A → M S) l :
  (∀ s a, logsOnly (step s a)) → ∀ s, logsOnly (mfold step s l).
Proof.
  intros Hstep. induction l as [|a l IH]; intros s; simpl.
  - apply logsOnly_ret.
  - apply logsOnly_bind; [apply Hstep|apply IH].
Qed.

Ltac logs :=
  repeat first
    [ progress intros
    | apply logsOnly_ret | apply logsOnly_console_error
    | apply logsOnly_bind | apply logsOnly_try_catch | apply logsOnly_mfold
    | apply logsOnly_frames;
      first [ apply frames_existsSync | apply frames_readFileSync
            | apply frames_lift | apply frames_ret ]
    | match goal with
      | |- context [if ?b then _ else _] => destruct b
      | |- context [match ?x with _ => _ end] => destruct x
      end ].

Section effect_facts.
Context {rt : Runtime}.

Lemma logsOnly_scanFile dir index file : logsOnly (scanFile dir index file).
Proof. intros w. destruct (scanFile_cases dir index file w) as (? & msgs & -> & _). by exists msgs. Qed.

Lemma logsOnly_loadReferenceIndex dir : logsOnly (loadReferenceIndex dir).
Proof.
  unfold loadReferenceIndex, scanReferencesDirectory.
  repeat first
    [ progress intros
    | apply logsOnly_ret | apply logsOnly_console_error | apply logsOnly_scanFile
    | apply logsOnly_bind | apply logsOnly_try_catch | apply logsOnly_mfold
    | apply logsOnly_frames;
      first [ apply frames_existsSync | apply frames_readFileSync
            | apply frames_lift | apply frames_ret ]
    | by (intros w; exists []; rewrite logged_nil)
    | match goal with
      | |- context [if ?b then _ else _] => destruct b
      | |- context [match ?x with _ => _ end] => destruct x
      end ].
Qed.

Lemma logsOnly_detectModules index cwd prompt : logsOnly (detectModules index cwd prompt).
Proof. intros w. exists []. by rewrite detectModules_eq, logged_nil. Qed.

Lemma logsOnly_loadReferences detected : logsOnly (loadReferences detected).
Proof.
  intros w. unfold loadReferences, loadReferencesWith, mbind, M_bind.
  destruct (loadLoop_accepts MAX_TOTAL_TOKENS detected initialLoadState w)
    as (st & msgs & -> & _). by exists msgs.
Qed.

Lemma detectAndLoadModuleRules_returns config : returns (detectAndLoadModuleRules config).
Proof.
  unfold detectAndLoadModuleRules. apply returns_try_catch. intros e.
  apply returns_bind; [apply returns_console_error|intros; apply returns_ret].
Qed.

(** X20: whatever happens inside, the entry point's only effect on the
    world is to append lines to the console: what exists, what files and
    directories hold and what the external tools answer is the same after
    the call as before it. *)
Theorem detectAndLoadModuleRules_logs_only (config : ModuleRulesConfig) (w : World) :
  ∃ v msgs,
    detectAndLoadModuleRules config w = (Return v, logged w msgs)
    ∧ fs_exists (logged w msgs) = fs_exists w
    ∧ fs_read (logged w msgs) = fs_read w
    ∧ fs_readdir (logged w msgs) = fs_readdir w.
Proof.
  assert (logsOnly (detectAndLoadModuleRules config)) as Hlogs.
  { unfold detectAndLoadModuleRules.
    apply logsOnly_try_catch; [|logs].
    apply logsOnly_bind; [apply logsOnly_loadReferenceIndex|intros userIndex].
    apply logsOnly_bind; [apply logsOnly_loadReferenceIndex|intros projectIndex].
    destruct (negb _ && negb _); [apply logsOnly_ret|].
    apply logsOnly_bind; [apply logsOnly_frames, frames_lift|intros mergedIndex].
    destruct (length _ =? 0)%nat; [apply logsOnly_ret|].
    apply logsOnly_bind; [apply logsOnly_detectModules|intros detected].
    destruct (length detected =? 0)%nat; [apply logsOnly_ret|].
    apply logsOnly_bind; [apply logsOnly_loadReferences|intros; apply logsOnly_ret]. }
  destruct (Hlogs w) as [msgs Hw].
  destruct (detectAndLoadModuleRules_returns config w) as [v Hv].
  exists v, msgs. split; [|done].
  destruct (detectAndLoadModuleRules config w) as [o w']. simpl in *. by subst.
Qed.
End effect_facts.

(** ** Front-matter delimiters *)

Lemma append_assoc a b c : (a +:+ b) +:+ c = a +:+ (b +:+ c).
Proof. induction a as [|x a IH]; [done|]. by rewrite !append_cons, IH. Qed.

Lemma append_length a b : String.length (a +:+ b) = (String.length a + String.length b)%nat.
Proof. induction a as [|x a IH]; [done|]. rewrite append_cons. simpl. by rewrite IH. Qed.

Lemma prefix_empty s : String.prefix EmptyString s = true.
Proof. by destruct s. Qed.

Lemma prefix_short p x y :
  (String.length p ≤ String.length x)%nat →
  String.prefix p (x +:+ y) = String.prefix p x.
Proof.
  revert x. induction p as [|c p IH]; intros x Hlen; [by rewrite !prefix_empty|].
  destruct x as [|d x]; [simpl in Hlen; lia|]. rewrite append_cons. simpl.
  destruct (ascii_dec c d); [|done]. apply IH. simpl in Hlen. lia.
Qed.

Lemma prefix_sliceFrom p s :
  String.prefix p s = true → s = p +:+ JSString.sliceFrom (String.length p) s.
Proof.
  revert s. induction p as [|c p IH]; intros s; [done|].
  destruct s as [|d s]; [done|]. simpl.
  destruct (ascii_dec c d) as [->|]; [|done].
  intros Hp. rewrite append_cons. f_equal. by apply IH.
Qed.

Lemma sliceFrom_append p s : JSString.sliceFrom (String.length p) (p +:+ s) = s.
Proof. induction p as [|c p IH]; [by destruct s|]. by rewrite append_cons. Qed.

Lemma prefix_closing_cons c a b :
  String.prefix closingLine (String c (a +:+ closingLine +:+ b))
  = String.prefix closingLine (String c (a +:+ JSString.nl +:+ "---")).
Proof.
  assert (a +:+ closingLine +:+ b
          = (a +:+ JSString.nl +:+ "---") +:+ (JSString.nl +:+ b)) as ->.
  { rewrite append_assoc. reflexivity. }
  rewrite <- append_cons. apply prefix_short.
  simpl. rewrite append_length. simpl. lia.
Qed.

Lemma cut_closing_sound s : ∀ a b,
  JSString.cut closingLine s = Some (a, b) →
  s = a +:+ closingLine +:+ b ∧ closesEarly a = false.
Proof.
  induction s as [|c s IH]; intros a b.
  - cbn. discriminate.
  - cbn [JSString.cut].
    destruct (String.prefix closingLine (String c s)) eqn:Hp.
    + intros [= <- <-]. split; [|reflexivity].
      rewrite append_nil_l. by apply prefix_sliceFrom in Hp.
    + destruct (JSString.cut closingLine s) as [[a' b']|] eqn:Hcut; [|done].
      intros [= <- <-]. destruct (IH a' b' eq_refl) as [Hs Hearly]. subst s.
      split; [by rewrite append_cons|].
      unfold closesEarly in *. rewrite append_cons. cbn [JSString.includes].
      apply orb_false_iff. split; [|done].
      by rewrite <- (prefix_closing_cons c a' b').
Qed.

Lemma cut_closing_complete a b :
  closesEarly a = false →
  JSString.cut closingLine (a +:+ closingLine +:+ b) = Some (a, b).
Proof.
  unfold closesEarly. induction a as [|c a IH].
  - intros _. rewrite append_nil_l. destruct b; reflexivity.
  - rewrite !append_cons. cbn [JSString.includes JSString.cut].
    intros [Hp Hrest]%orb_false_iff.
    rewrite prefix_closing_cons, Hp. by rewrite IH.
Qed.

(** X21: the pattern matches a document, with a given block and body,
    exactly when the document is three dashes and a newline, the block, a
    newline with three dashes and a newline, and the body, and no line of
    the block after its first is three dashes: the block ends at the
    first closing line. So at least one line, possibly empty, stands
    between the opening and the closing line, and the closing dashes are
    followed by a newline. *)
Theorem matchFrontmatter_spec (content yaml body : string) :
  matchFrontmatter content = Some (yaml, body)
  ↔ content = openingLine +:+ yaml +:+ closingLine +:+ body
    ∧ closesEarly yaml = false.
Proof.
  unfold matchFrontmatter, JSString.startsWith. split.
  - destruct (String.prefix ("---" +:+ JSString.nl) content) eqn:Hopen; [|done].
    intros [Hcut Hearly]%cut_closing_sound. split; [|done].
    apply prefix_sliceFrom in Hopen. rewrite Hopen at 1.
    change (String.length ("---" +:+ JSString.nl)) with 4%nat. by rewrite Hcut.
  - intros [-> Hearly].
    assert (String.prefix ("---" +:+ JSString.nl)
              (openingLine +:+ yaml +:+ closingLine +:+ body) = true) as ->
      by apply (prefix_append openingLine).
    change (JSString.sliceFrom 4 (openingLine +:+ yaml +:+ closingLine +:+ body))
      with (yaml +:+ closingLine +:+ body).
    by apply cut_closing_complete.
Qed.

(** The closing line directly after the opening line, and closing dashes
    at the very end of the text, do not make a front-matter block. *)
Example matchFrontmatter_no_block :
  matchFrontmatter (lines ["---"; "---"; "Body."]) = None
  ∧ matchFrontmatter (lines ["---"; "name: Auth"; "---"]) = None
  ∧ matchFrontmatter (lines ["---"; ""; "---"; "Body."]) = Some (EmptyString, "Body.").
Proof. repeat split. Qed.

(** ** The parser, line by line *)

Section line_facts.
Context {rt : Runtime}.

Lemma triggersPlain_notScalar fm : triggersPlain fm → triggersNotScalar fm.
Proof. intros [Hp|[props Hp]] s; congruence. Qed.

(** An assignment under [triggers] returns unless [triggers] holds a
    scalar, or holds an array and the name is [length]. *)
Lemma setTrigger_returns fm key a items :
  triggersNotScalar fm →
  str_eqb key "length" = false ∨ triggersPlain fm →
  ∃ fm', setTrigger (ensureTriggers fm) key a items = Return fm'
         ∧ triggersNotScalar fm' ∧ (triggersPlain fm → triggersPlain fm').
Proof.
  intros Hns Hlen. unfold setTrigger, ensureTriggers.
  destruct (fm !! "triggers") as [[s|elems props|props]|] eqn:Ht; simpl.
  - by destruct (Hns s).
  - assert (¬ triggersPlain fm) as Hnot.
    { intros [Hp|[props' Hp]]; congruence. }
    rewrite Ht. destruct (str_eqb key "__proto__"); [by exists fm|].
    destruct Hlen as [-> |Hplain]; [|done].
    destruct (arrayIndex key); eexists; (split; [done|]); (split; [|done]);
      intros s; by rewrite lookup_insert_eq.
  - rewrite Ht. destruct (str_eqb key "__proto__").
    + exists fm. split; [done|]. split; [done|]. by intros _; right; exists props.
    + eexists. split; [done|]. split.
      * intros s. by rewrite lookup_insert_eq.
      * intros _. right. eexists. by rewrite lookup_insert_eq.
  - rewrite lookup_insert_eq. destruct (str_eqb key "__proto__").
    + eexists. split; [done|]. split.
      * intros s. by rewrite lookup_insert_eq.
      * intros _. right. eexists. by rewrite lookup_insert_eq.
    + eexists. split; [done|]. split.
      * intros s. by rewrite lookup_insert_eq.
      * intros _. right. eexists. by rewrite lookup_insert_eq.
Qed.

Lemma assignTop_triggers fm key v :
  key ≠ "triggers" → assignTop fm key v !! "triggers" = fm !! "triggers".
Proof. intros Hne. by apply assignTop_ne. Qed.

Lemma assignKey_total st key value :
  str_eqb key "triggers" && negb (isBlockValue value)
  && negb (isInlineArray (JSString.stripQuotes value)) = false →
  triggersNotScalar (frontmatter st) →
  str_eqb key "length" && negb (isBlockValue value)
  && isInlineArray (JSString.stripQuotes value) = false
  ∨ triggersPlain (frontmatter st) →
  ∃ st', assignKey st key value = Return st'
         ∧ triggersNotScalar (frontmatter st')
         ∧ (str_eqb key "triggers" && negb (isBlockValue value)
            && isInlineArray (JSString.stripQuotes value) = false →
            triggersPlain (frontmatter st) → triggersPlain (frontmatter st')).
Proof.
  intros Hline Hns Hlen. unfold assignKey.
  destruct (isBlockValue value).
  - destruct (isArrayParent key) eqn:Hk.
    + destruct (isArrayParent_plain key Hk) as (_ & _ & Hl & _).
      destruct (setTrigger_returns (frontmatter st) key (length (arrays st)) []
                  Hns (or_introl Hl)) as (fm' & Hset & Hns' & Hplain').
      rewrite Hset. simpl. eexists. split; [done|]. simpl. by split.
    + destruct (str_eqb key "triggers"); eexists; (split; [done|]); simpl; [|by split].
      split; [intros s; by rewrite lookup_insert_eq|].
      intros _ _. right. exists ∅. by rewrite lookup_insert_eq.
  - rewrite !andb_true_r in *.
    destruct (isInlineArray (JSString.stripQuotes value)); simpl in *.
    + rewrite !andb_true_r in *.
      destruct (str_eqb (currentKey st) "triggers" || truthy (frontmatter st !! "triggers")).
      * destruct (setTrigger_returns (frontmatter st) key (length (arrays st))
                    (inlineItems (JSString.stripQuotes value)) Hns Hlen)
          as (fm' & Hset & Hns' & Hplain').
        rewrite Hset. simpl. eexists. split; [done|]. simpl. split; [done|].
        intros _. exact Hplain'.
      * eexists. split; [done|]. simpl. split.
        -- intros s. unfold assignTop. destruct (str_eqb key "__proto__"); [apply Hns|].
           destruct (decide (key = "triggers")) as [->|Hne].
           ++ by rewrite lookup_insert_eq.
           ++ rewrite lookup_insert_ne by done. apply Hns.
        -- intros Hkey%bool_decide_eq_false Hplain. unfold triggersPlain.
           by rewrite assignTop_triggers.
    + rewrite !andb_true_r in Hline. apply bool_decide_eq_false in Hline.
      assert (∀ v, triggersNotScalar (assignTop (frontmatter st) key v)
                   ∧ (true = false → triggersPlain (frontmatter st) →
                      triggersPlain (assignTop (frontmatter st) key v))) as Hkeep.
      { intros v. split; [|done]. intros s. rewrite assignTop_triggers by done.
        apply Hns. }
      assert (∀ v, triggersNotScalar (assignTop (frontmatter st) key v)
                   ∧ (str_eqb key "triggers" && false = false →
                      triggersPlain (frontmatter st) →
                      triggersPlain (assignTop (frontmatter st) key v))) as Hkeep'.
      { intros v. split.
        - intros s. rewrite assignTop_triggers by done. apply Hns.
        - intros _ Hplain. unfold triggersPlain. by rewrite assignTop_triggers. }
      destruct (str_eqb _ "true"); [eexists; split; [done|apply Hkeep']|].
      destruct (str_eqb _ "false"); [eexists; split; [done|apply Hkeep']|].
      destruct (Number _); eexists; (split; [done|apply Hkeep']).
Qed.

Lemma parseLine_total st line :
  scalarTriggersLine line = false →
  triggersNotScalar (frontmatter st) →
  inlineListLine "length" line = false ∨ triggersPlain (frontmatter st) →
  ∃ st', parseLine st line = Return st'
         ∧ triggersNotScalar (frontmatter st')
         ∧ (inlineListLine "triggers" line = false →
            triggersPlain (frontmatter st) → triggersPlain (frontmatter st')).
Proof.
  unfold scalarTriggersLine, inlineListLine.
  destruct (keyValue line) as [[key value]|] eqn:Hkv.
  - intros Hline Hns Hlen. rewrite (parseLine_keyValue _ _ _ _ Hkv).
    by apply assignKey_total.
  - intros _ Hns _. unfold keyValue, parseLine in *.
    destruct (negb _ || _); [by exists st|].
    destruct (JSString.startsWith "- " _).
    + destruct (currentArray st); eexists; (split; [done|]); by split.
    + destruct (JSString.indexOf _ line) as [[|n]|]; [by exists st|done|by exists st].
Qed.

Lemma parse_fold_total ls : ∀ st,
  Forall (λ line, scalarTriggersLine line = false) ls →
  (Forall (λ line, inlineListLine "triggers" line = false) ls
   ∧ triggersPlain (frontmatter st))
  ∨ Forall (λ line, inlineListLine "length" line = false) ls →
  triggersNotScalar (frontmatter st) →
  ∃ st', ofold parseLine st ls = Return st'.
Proof.
  induction ls as [|line ls IH]; intros st Hall Hlists Hns; simpl; [eauto|].
  apply Forall_cons in Hall as [Hline Hall].
  destruct Hlists as [[[Htrig Htrigs]%Forall_cons Hplain]|[Hlen Hlens]%Forall_cons].
  - destruct (parseLine_total st line Hline Hns (or_intror Hplain))
      as (st1 & -> & Hns1 & Hplain1). simpl.
    apply IH; [done| |done]. left. split; [done|]. by apply Hplain1.
  - destruct (parseLine_total st line Hline Hns (or_introl Hlen))
      as (st1 & -> & Hns1 & _). simpl.
    apply IH; [done| |done]. by right.
Qed.

(** X22: the parser throws only where it assigns under a [triggers] that
    is not a plain object: a document none of whose lines gives the key
    [triggers] a scalar value, and in which no line gives [triggers] an
    inline list or no line gives the key [length] an inline list, is
    parsed without an exception. *)
Theorem parseFrontmatter_total (content : string) :
  Forall (λ line, scalarTriggersLine line = false) (blockLines content) →
  Forall (λ line, inlineListLine "triggers" line = false) (blockLines content)
  ∨ Forall (λ line, inlineListLine "length" line = false) (blockLines content) →
  ∃ p, parseFrontmatter content = Return p.
Proof.
  unfold parseFrontmatter, blockLines.
  destruct (matchFrontmatter content) as [[yaml body]|]; [|eauto].
  intros Hall Hlists.
  assert (triggersPlain (frontmatter initialParseState)) as Hplain by (by left).
  destruct (parse_fold_total _ initialParseState Hall) as [st ->]; [| |simpl; eauto].
  - destruct Hlists as [Htrig|Hlen]; [by left|by right].
  - by apply triggersPlain_notScalar.
Qed.

(** X23: blank lines, comment lines and lines that are neither list items
    nor have a colon after their first character never change what is
    parsed: the loop over the lines gives the same result with them
    removed. *)
Theorem parseLine_skips_inert (st : ParseState) (ls : list string) :
  ofold parseLine st (List.filter (λ line, negb (inert line)) ls)
  = ofold parseLine st ls.
Proof.
  revert st. induction ls as [|line ls IH]; intros st; [done|].
  cbn [List.filter]. destruct (inert line) eqn:Hinert; cbn [negb ofold].
  - assert (parseLine st line = Return st) as ->.
    { unfold inert, parseLine in *.
      destruct (negb _ || _); [done|].
      destruct (JSString.startsWith "- " _); [done|].
      by destruct (JSString.indexOf _ line) as [[|n]|]. }
    simpl. apply IH.
  - destruct (parseLine st line); simpl; [apply IH|done].
Qed.

(** X24: a trigger-kind key in block form followed by list items collects
    the items, in order and with their quotes stripped, in the list that
    stands under that key in [triggers]. *)
Theorem block_list_collects (st st1 : ParseState) (keyLine key value : string)
    (items : list string) :
  keyValue keyLine = Some (key, value) →
  isArrayParent key = true → isBlockValue value = true →
  parseLine st keyLine = Return st1 →
  Forall (λ line, itemLine line = true) items →
  ∃ st' props,
    ofold parseLine st (keyLine :: items) = Return st'
    ∧ triggersProps (frontmatter st') props
    ∧ props !! key = Some (length (arrays st))
    ∧ arrays st' !! length (arrays st) = Some (map itemValue items).
Proof.
  intros Hkv Hk Hb Hrun Hitems. cbn [ofold]. rewrite Hrun. cbn [obind].
  rewrite (parseLine_keyValue _ _ _ _ Hkv) in Hrun.
  destruct (assignKey_block st key value st1 Hb Hk Hrun)
    as ((props & Hprops & Hkey) & Harr & Hca & _).
  destruct (items_fold items st1 (length (arrays st)) [] Hitems Hca)
    as (st' & -> & Hfm & _ & _ & Hcollected).
  { rewrite Harr. by rewrite lookup_app_r, Nat.sub_diag. }
  exists st', props. rewrite Hfm. done.
Qed.

(** X25: a [triggers] line with nothing after the colon starts the trigger
    set afresh: whatever was collected under [triggers] before is dropped,
    and list items that follow the line do not reach the new set. *)
Theorem triggers_line_resets (st : ParseState) (line value : string)
    (items : list string) :
  keyValue line = Some ("triggers", value) →
  isBlockValue value = true →
  Forall (λ item, itemLine item = true) items →
  ∃ st', ofold parseLine st (line :: items) = Return st'
    ∧ frontmatter st' = <["triggers" := VObject ∅]> (frontmatter st).
Proof.
  intros Hkv Hb Hitems. cbn [ofold].
  rewrite (parseLine_keyValue _ _ _ _ Hkv). unfold assignKey. rewrite Hb.
  change (isArrayParent "triggers") with false.
  change (str_eqb "triggers" "triggers") with true. cbn [obind].
  destruct (currentArray st) as [a|] eqn:Ha.
  - destruct (arrays st !! a) as [acc|] eqn:Hacc.
    + destruct (items_fold items
                  (mkParseState (<["triggers" := VObject ∅]> (frontmatter st))
                     (arrays st) "triggers" (Some a)) a acc Hitems eq_refl Hacc)
        as (st' & -> & Hfm & _). by exists st'.
    + clear Hkv Hb. 
      assert (∀ st0, currentArray st0 = Some a → arrays st0 !! a = None →
                ∃ st', ofold parseLine st0 items = Return st'
                       ∧ frontmatter st' = frontmatter st0) as Hdangling.
      { induction Hitems as [|item items Hitem _ IH]; intros st0 Hca Hnone; [by exists st0|].
        cbn [ofold]. rewrite (itemLine_parse st0 item a Hitem Hca). cbn [obind].
        destruct (IH (mkParseState (frontmatter st0) (push a (itemValue item) (arrays st0))
                        (currentKey st0) (Some a)) eq_refl) as (st' & -> & Hfm).
        { simpl. unfold push. by rewrite list_lookup_alter_eq, Hnone. }
        by exists st'. }
      destruct (Hdangling (mkParseState (<["triggers" := VObject ∅]> (frontmatter st))
                             (arrays st) "triggers" (Some a)) eq_refl Hacc)
        as (st' & -> & Hfm). by exists st'.
  - assert (∀ st0, currentArray st0 = None →
              ofold parseLine st0 items = Return st0) as Hnone.
    { induction Hitems as [|item items Hitem _ IH]; intros st0 Hca; [done|].
      cbn [ofold].
      assert (parseLine st0 item = Return st0) as ->.
      { unfold itemLine, parseLine in *.
        destruct (negb _ || _); [done|]. by rewrite Hitem, Hca. }
      cbn [obind]. by apply IH. }
    rewrite Hnone by done. by eexists.
Qed.
End line_facts.

(** The exceptions of X22 do occur: a scalar [triggers] followed by a
    trigger list in block form, and an array [triggers] followed by an
    inline list under the key [length]. *)
Example parseFrontmatter_scalar_triggers_throws :
  parseFrontmatter (rt:=sampleRuntime) scalarTriggersDoc = Throw "TypeError".
Proof. vm_compute. reflexivity. Qed.

Example parseFrontmatter_array_length_throws :
  parseFrontmatter (rt:=sampleRuntime) arrayLengthDoc = Throw "RangeError".
Proof. vm_compute. reflexivity. Qed.

Lemma parseFrontmatter_total_witness :
  ∃ p, parseFrontmatter (rt:=sampleRuntime) blockKeywordsDoc = Return p.
Proof.
  apply (parseFrontmatter_total (rt:=sampleRuntime) blockKeywordsDoc).
  - vm_compute. repeat constructor.
  - left. vm_compute. repeat constructor.
Defined.

Lemma block_list_collects_witness :
  ∃ st' props,
    ofold (parseLine (rt:=sampleRuntime)) initialParseState
      ["keywords:"; "  - login"; "  - 'oauth'"] = Return st'
    ∧ triggersProps (frontmatter st') props
    ∧ props !! "keywords" = Some 0%nat
    ∧ arrays st' !! 0%nat = Some ["login"; "oauth"].
Proof.
  apply (block_list_collects (rt:=sampleRuntime) initialParseState keywordsState
           "keywords:" "keywords" EmptyString ["  - login"; "  - 'oauth'"]).
  - vm_compute. reflexivity.
  - reflexivity.
  - reflexivity.
  - vm_compute. reflexivity.
  - repeat constructor.
Defined.

Lemma triggers_line_resets_witness :
  ∃ st', ofold (parseLine (rt:=sampleRuntime)) keywordsState
           ["triggers:"; "  - login"] = Return st'
    ∧ frontmatter st' = <["triggers" := VObject ∅]> (frontmatter keywordsState).
Proof.
  apply (triggers_line_resets (rt:=sampleRuntime) keywordsState "triggers:" EmptyString
           ["  - login"]).
  - vm_compute. reflexivity.
  - reflexivity.
  - repeat constructor.
Defined.

(** ** Inline lists *)

(** X26: an inline bracketed list never reads as an empty list: it has at
    least one item, and empty brackets give the list whose only item is
    the empty string. *)
Theorem inlineItems_nonempty (cleanValue : string) :
  (1 ≤ length (inlineItems cleanValue))%nat
  ∧ (cleanValue = "[]" → inlineItems cleanValue = [EmptyString]).
Proof.
  split; [|by intros ->].
  unfold inlineItems. rewrite length_map.
  destruct (split_head_prefix ","%char (JSString.sliceInner cleanValue))
    as (h & t & -> & _).
  simpl. lia.
Qed.

(** ** Loading is stable under extension of the list *)

Section extension_facts.
Context {rt : Runtime}.

Lemma loadLoop_extends ceiling detected : ∀ st w,
  ∃ st' w' ms cs,
    loadLoop ceiling st detected w = (Return st', w')
    ∧ loadedModules st' = loadedModules st ++ ms
    ∧ loadedContent st' = loadedContent st ++ cs.
Proof.
  unfold loadLoop. induction detected as [|d rest IH]; intros st w.
  - exists st, w, [], []. simpl. by rewrite !app_nil_r.
  - cbn [mfold]. unfold mbind at 1, M_bind at 1. rewrite loadStep_eq.
    destruct (JSNumber.gtb (JSNumber.add (totalTokens st) (dr_maxTokens d)) ceiling);
      [apply IH|].
    destruct (readBody w d) as [body|]; [|apply IH].
    destruct (IH (mkLoadState (JSNumber.add (totalTokens st) (dr_maxTokens d))
                    (loadedContent st ++ [renderSection d body])
                    (loadedModules st ++ [dr_module d])) w)
      as (st' & w' & ms & cs & -> & Hm & Hc).
    simpl in Hm, Hc. exists st', w', (dr_module d :: ms), (renderSection d body :: cs).
    split; [done|]. rewrite Hm, Hc, <- !app_assoc. done.
Qed.

(** X27: results added at the end of the list never change what is loaded
    from the results before them: the names and the sections loaded from a
    list open the names and the sections loaded from any extension of
    it. *)
Theorem loadLoop_prefix_stable (ceiling : number) (front back : list DetectionResult)
    (w w1 : World) (st1 : LoadState) :
  loadLoop ceiling initialLoadState front w = (Return st1, w1) →
  ∃ st2 w2,
    loadLoop ceiling initialLoadState (front ++ back) w = (Return st2, w2)
    ∧ loadedModules st1 `prefix_of` loadedModules st2
    ∧ loadedContent st1 `prefix_of` loadedContent st2.
Proof.
  intros Hfront. unfold loadLoop in *. rewrite mfold_app, Hfront.
  destruct (loadLoop_extends ceiling back st1 w1) as (st2 & w2 & ms & cs & Hrun & Hm & Hc).
  exists st2, w2. split; [exact Hrun|]. split; [by exists ms|by exists cs].
Qed.
End extension_facts.

Lemma loadLoop_prefix_stable_witness :
  ∃ st2 w2,
    loadLoop (rt:=sampleRuntime) (JSNumber.ofZ 3000) initialLoadState
      ([result "a" 90 2000] ++ [result "b" 80 2000; result "c" 70 500]) sampleWorld
    = (Return st2, w2)
    ∧ ["a"] `prefix_of` loadedModules st2
    ∧ [renderSection (result "a" 90 2000) "Use the auth service."]
      `prefix_of` loadedContent st2.
Proof.
  apply (loadLoop_prefix_stable (rt:=sampleRuntime) (JSNumber.ofZ 3000) [result "a" 90 2000]
           [result "b" 80 2000; result "c" 70 500] sampleWorld sampleWorld
           (mkLoadState (JSNumber.ofZ 2000) [renderSection (result "a" 90 2000) "Use the auth service."]
              ["a"])).
  vm_compute. reflexivity.
Defined.

(** ** One unlistable layer *)

Section layer_facts.
Context {rt : Runtime}.

(** X28: a references directory of the user layer that exists without an
    index document and cannot be listed makes the whole detection come
    back empty-handed: the failure is absorbed at the entry point, which
    logs it and returns the absent value without looking at the project
    layer. *)
Theorem detectAndLoadModuleRules_unlistable_user (config : ModuleRulesConfig)
    (w : World) :
  fs_exists w (path_join (userDir config) "references") = true →
  fs_exists w (path_join (path_join (userDir config) "references") "index.json") = false →
  fs_readdir w (path_join (userDir config) "references") = None →
  detectAndLoadModuleRules config w
  = (Return None, logged w ["[ModuleRules] Detection error:"]).
Proof.
  intros Hdir Hidx Hls.
  unfold detectAndLoadModuleRules, try_catch. unfold mbind at 1, M_bind at 1.
  rewrite (loadReferenceIndex_no_index _ w Hdir Hidx).
  unfold mbind at 1, M_bind at 1.
  unfold scanReferencesDirectory. unfold mbind at 1, M_bind at 1, readdirSync.
  rewrite Hls. reflexivity.
Qed.
End layer_facts.

Lemma detectAndLoadModuleRules_unlistable_user_witness :
  detectAndLoadModuleRules (rt:=sampleRuntime) sampleConfig brokenUserWorld
  = (Return None, logged brokenUserWorld ["[ModuleRules] Detection error:"]).
Proof.
  apply (detectAndLoadModuleRules_unlistable_user (rt:=sampleRuntime) sampleConfig
           brokenUserWorld); reflexivity.
Defined.
